(** * Mamba: command resolution and execution engine

    A shallow embedding of the core of [command.go] (package [mamba]):
    the command tree ([AddCommand], [RemoveCommand], [Find]), the built-in
    positional-argument validators, the composition of flag sets
    ([mergePersistentFlags]) and the lifecycle pipeline ([execute]).

    Go pointers [*Command] are addresses into a heap of [Command] records;
    the lifecycle callbacks and user-supplied validators are opaque function
    values, named by identifiers and interpreted by an environment. *)

From Stdlib Require Import ZArith Lia Ascii.
From stdpp Require Import base tactics option list strings functions sorting.

Open Scope string_scope.
Open Scope list_scope.
Open Scope Z_scope.
Open Scope nat_scope.

(** ** Errors

    One constructor per [fmt.Errorf] call site of the source, carrying the
    arguments of the format string; [ErrHelp] and [ErrFlag] are the errors
    produced by the flag parser, [ErrUser] those returned by callbacks. *)

Inductive error : Type :=
  | ErrUnknownCommand (arg use : string)     (* "unknown command %q for %q" *)
  | ErrMinimumNArgs (n : Z) (received : nat) (* "requires at least %d arg(s), only received %d" *)
  | ErrMaximumNArgs (n : Z) (received : nat) (* "accepts at most %d arg(s), received %d" *)
  | ErrExactArgs (n : Z) (received : nat)    (* "accepts %d arg(s), received %d" *)
  | ErrRangeArgs (min max : Z) (received : nat)
                                             (* "accepts between %d and %d arg(s), received %d" *)
  | ErrHelp                                  (* pflag.ErrHelp *)
  | ErrFlag (msg : string)
  | ErrUser (msg : string).

Global Instance error_eq_dec : EqDecision error.
Proof. solve_decision. Defined.

(** ** Flag sets *)

(** Modelled from the spec: the declared type of a flag of the flag
    library; boolean flags take no value on the command line. *)
Inductive FlagKind := BoolFlag | StringFlag.

Global Instance FlagKind_eq_dec : EqDecision FlagKind.
Proof. solve_decision. Defined.

(** Modelled from the spec: [pflag.Flag] belongs to the third-party flag
    library, which is not part of the source tree.  A flag descriptor has a
    name, an optional one-character shorthand (the empty string when there
    is none) and a declared type; [Addr] is the identity of the descriptor
    (the Go pointer [*pflag.Flag]), so that two descriptors with the same
    name registered on different nodes can be told apart. *)
Record Flag : Type := mkFlag {
  Addr : nat;
  FlagName : string;
  Shorthand : string;
  Kind : FlagKind;
}.

Global Instance Flag_eq_dec : EqDecision Flag.
Proof. solve_decision. Defined.

(** Modelled from the spec: [pflag.FlagSet] (third-party, not under the
    source tree) is a scope of flags with unique names and unique
    shorthands, looked up by name.  The flags are kept in registration
    order. *)
Definition FlagSet : Type := list Flag.

(** Modelled from the spec: [FlagSet.Lookup(name)] returns the descriptor
    registered under [name], or nil. *)
Definition Lookup (fs : FlagSet) (name : string) : option Flag :=
  snd <$> list_find (λ f, FlagName f = name) fs.

(** Modelled from the spec: the lookup of a flag by its one-character
    shorthand, of the flag library. *)
Definition ShorthandLookup (fs : FlagSet) (c : string) : option Flag :=
  snd <$> list_find (λ f, Shorthand f = c) fs.

(** Modelled from the spec: [FlagSet.AddFlag(flag)] registers a descriptor.
    Names and shorthands are unique within a scope: registering a name or a
    shorthand that is already taken, or a shorthand longer than one
    character, is a panic of the flag library ([None]). *)
Definition AddFlag (fs : FlagSet) (f : Flag) : option FlagSet :=
  if Lookup fs (FlagName f) is Some _ then None
  else if bool_decide (Shorthand f = "") then Some (fs ++ [f])
  else if bool_decide (1 < String.length (Shorthand f)) then None
  else if ShorthandLookup fs (Shorthand f) is Some _ then None
  else Some (fs ++ [f]).

(** Modelled from the spec: [FlagSet.VisitAll(fn)] visits the flags of the
    scope in lexicographical order of their names (the library's default). *)
Definition VisitAll (fs : FlagSet) : list Flag :=
  merge_sort (λ f g, String.le (FlagName f) (FlagName g)) fs.

(** ** Commands *)

(** Addresses of [Command] objects, and identifiers of Go function values. *)
Definition ptr : Type := nat.
Definition Fn : Type := nat.

(** [io.Writer] values: the two process streams and caller-supplied
    writers. *)
Inductive Writer := Stdout | Stderr | Buffer (id : nat).

Global Instance Writer_eq_dec : EqDecision Writer.
Proof. solve_decision. Defined.

(** The value of the [Args] field: one of the standard validators of the
    source, or a function supplied by the application. *)
Inductive PositionalArgs : Type :=
  | ArgsNoArgs
  | ArgsArbitraryArgs
  | ArgsMinimumNArgs (n : Z)
  | ArgsMaximumNArgs (n : Z)
  | ArgsExactArgs (n : Z)
  | ArgsRangeArgs (min max : Z)
  | ArgsCustom (f : Fn).

(** The fields of [type Command struct] that resolution, flag composition
    and execution read or write; a nil function field or pointer is
    [None]. *)
Record Command : Type := mkCommand {
  Use : string;
  Aliases : list string;
  Run : option Fn;
  RunE : option Fn;
  PreRun : option Fn;
  PreRunE : option Fn;
  PostRun : option Fn;
  PostRunE : option Fn;
  PersistentPreRun : option Fn;
  PersistentPreRunE : option Fn;
  PersistentPostRun : option Fn;
  PersistentPostRunE : option Fn;
  SilenceErrors : bool;
  SilenceUsage : bool;
  DisableFlagParsing : bool;
  Args : option PositionalArgs;
  commands : list ptr;
  parent : option ptr;
  flags : FlagSet;
  pflags : FlagSet;
  lflags : FlagSet;
  output : option Writer;
  errOutput : option Writer;
}.

(** The zero value [Command{}]. *)
Definition zeroCommand : Command :=
  mkCommand "" [] None None None None None None None None None None
            false false false None [] None [] [] [] None None.

Global Instance Command_inhabited : Inhabited Command := populate zeroCommand.

(** The Go heap: every address holds a [Command]. *)
Abbreviation Heap := (ptr → Command).

Definition emptyHeap : Heap := λ _, zeroCommand.

Definition set_commands (l : list ptr) (c : Command) : Command :=
  mkCommand (Use c) (Aliases c) (Run c) (RunE c) (PreRun c) (PreRunE c)
    (PostRun c) (PostRunE c) (PersistentPreRun c) (PersistentPreRunE c)
    (PersistentPostRun c) (PersistentPostRunE c) (SilenceErrors c)
    (SilenceUsage c) (DisableFlagParsing c) (Args c) l (parent c)
    (flags c) (pflags c) (lflags c) (output c) (errOutput c).

Definition set_parent (p : option ptr) (c : Command) : Command :=
  mkCommand (Use c) (Aliases c) (Run c) (RunE c) (PreRun c) (PreRunE c)
    (PostRun c) (PostRunE c) (PersistentPreRun c) (PersistentPreRunE c)
    (PersistentPostRun c) (PersistentPostRunE c) (SilenceErrors c)
    (SilenceUsage c) (DisableFlagParsing c) (Args c) (commands c) p
    (flags c) (pflags c) (lflags c) (output c) (errOutput c).

Definition set_flags (fs : FlagSet) (c : Command) : Command :=
  mkCommand (Use c) (Aliases c) (Run c) (RunE c) (PreRun c) (PreRunE c)
    (PostRun c) (PostRunE c) (PersistentPreRun c) (PersistentPreRunE c)
    (PersistentPostRun c) (PersistentPostRunE c) (SilenceErrors c)
    (SilenceUsage c) (DisableFlagParsing c) (Args c) (commands c) (parent c)
    fs (pflags c) (lflags c) (output c) (errOutput c).

(** ** Names and aliases *)

(** [func (c *Command) Name() string]: the usage string up to its first
    space. *)
Definition Name (c : Command) : string :=
  let name := Use c in
  match String.index 0 " " name with
  | Some i => String.substring 0 i name
  | None => name
  end.

(** [func (c *Command) HasAlias(s string) bool] *)
Fixpoint HasAlias_loop (aliases : list string) (s : string) : bool :=
  match aliases with
  | [] => false
  | a :: rest => if bool_decide (a = s) then true else HasAlias_loop rest s
  end.

Definition HasAlias (c : Command) (s : string) : bool :=
  HasAlias_loop (Aliases c) s.

(** ** Standard validators for positional arguments *)

Definition NoArgs (cmd : Command) (args : list string) : option error :=
  if bool_decide (0 < length args)
  then Some (ErrUnknownCommand (nth 0 args "") (Use cmd))
  else None.

Definition ArbitraryArgs (cmd : Command) (args : list string) : option error :=
  None.

Definition MinimumNArgs (n : Z) (cmd : Command) (args : list string)
  : option error :=
  if bool_decide (Z.of_nat (length args) < n)%Z
  then Some (ErrMinimumNArgs n (length args))
  else None.

Definition MaximumNArgs (n : Z) (cmd : Command) (args : list string)
  : option error :=
  if bool_decide (Z.of_nat (length args) > n)%Z
  then Some (ErrMaximumNArgs n (length args))
  else None.

Definition ExactArgs (n : Z) (cmd : Command) (args : list string)
  : option error :=
  if bool_decide (Z.of_nat (length args) ≠ n)
  then Some (ErrExactArgs n (length args))
  else None.

Definition RangeArgs (min max : Z) (cmd : Command) (args : list string)
  : option error :=
  if bool_decide (Z.of_nat (length args) < min)%Z
     || bool_decide (Z.of_nat (length args) > max)%Z
  then Some (ErrRangeArgs min max (length args))
  else None.

(** ** Resolution *)

(** The loop of [Find] over [c.commands]: the first child, in registration
    order, whose name or one of whose aliases is the token. *)
Fixpoint Find_child (h : Heap) (children : list ptr) (tok : string)
  : option ptr :=
  match children with
  | [] => None
  | cmd :: rest =>
      if bool_decide (Name (h cmd) = tok) || HasAlias (h cmd) tok
      then Some cmd
      else Find_child h rest tok
  end.

(** [func (c *Command) Find(args []string)]: the resolved command and the
    remaining tokens; the third result of the source, an error, is nil on
    every path and is left out. *)
Fixpoint Find (h : Heap) (c : ptr) (args : list string) : ptr * list string :=
  match args with
  | [] => (c, args)
  | tok :: rest =>
      match Find_child h (commands (h c)) tok with
      | Some cmd => Find h cmd rest
      | None => (c, args)
      end
  end.

(** ** Building the tree *)

(** How a Go call ends: it returns, it panics, or (for the functions that
    follow the [parent] pointers, which loop on a cyclic chain) the fuel
    of the model runs out. *)
Inductive Res (A : Type) : Type :=
  | Val (a : A)
  | Panic (msg : string)
  | OutOfFuel.
Arguments Val {A} a.
Arguments Panic {A} msg.
Arguments OutOfFuel {A}.

(** [func (c *Command) AddCommand(cmds ...*Command)], for non-nil
    arguments: the heap when the call ends, and how it ends. *)
Fixpoint AddCommand (h : Heap) (c : ptr) (cmds : list ptr) : Heap * Res unit :=
  match cmds with
  | [] => (h, Val ())
  | cmd :: rest =>
      if bool_decide (cmd = c)
      then (h, Panic "command can't be a child of itself")
      else
        let h1 := <[cmd := set_parent (Some c) (h cmd)]> h in
        let h2 := <[c := set_commands (commands (h1 c) ++ [cmd]) (h1 c)]> h1 in
        AddCommand h2 c rest
  end.

(** The inner loop of [RemoveCommand]: is [command] one of [cmds]? *)
Fixpoint RemoveCommand_match (command : ptr) (cmds : list ptr) : bool :=
  match cmds with
  | [] => false
  | cmd :: rest =>
      if bool_decide (command = cmd) then true
      else RemoveCommand_match command rest
  end.

(** The outer loop of [RemoveCommand], labelled [main] in the source, over
    the children; [kept] is the local slice [commands]. *)
Fixpoint RemoveCommand_loop (h : Heap) (children cmds kept : list ptr)
  : Heap * list ptr :=
  match children with
  | [] => (h, kept)
  | command :: rest =>
      if RemoveCommand_match command cmds
      then RemoveCommand_loop
             (<[command := set_parent None (h command)]> h) rest cmds kept
      else RemoveCommand_loop h rest cmds (kept ++ [command])
  end.

(** [func (c *Command) RemoveCommand(cmds ...*Command)] *)
Definition RemoveCommand (h : Heap) (c : ptr) (cmds : list ptr) : Heap :=
  let '(h1, kept) := RemoveCommand_loop h (commands (h c)) cmds [] in
  <[c := set_commands kept (h1 c)]> h1.

(** A construction step, and the run of a sequence of steps (stopping at
    the first panic). *)
Inductive TreeOp : Type :=
  | OpAdd (c : ptr) (cmds : list ptr)
  | OpRemove (c : ptr) (cmds : list ptr).

Definition run_op (h : Heap) (op : TreeOp) : Heap * Res unit :=
  match op with
  | OpAdd c cmds => AddCommand h c cmds
  | OpRemove c cmds => (RemoveCommand h c cmds, Val ())
  end.

Fixpoint run_ops (h : Heap) (ops : list TreeOp) : Heap * Res unit :=
  match ops with
  | [] => (h, Val ())
  | op :: rest =>
      match run_op h op with
      | (h1, Val _) => run_ops h1 rest
      | (h1, r) => (h1, r)
      end
  end.

(** Single-parent ownership: a node listed as a child of [p] has [p] as its
    parent, no child list lists a node twice, and a parent back-reference
    always points to a node that lists the child. *)
Definition single_parent (h : Heap) : Prop :=
  (∀ p x, x ∈ commands (h p) → parent (h x) = Some p) ∧
  (∀ p, NoDup (commands (h p))) ∧
  (∀ p x, parent (h x) = Some p → x ∈ commands (h p)).

(** The steps that keep it: [AddCommand] of distinct nodes, none of them
    the receiver, that have no parent at that time. *)
Definition detached_op (h : Heap) (op : TreeOp) : Prop :=
  match op with
  | OpAdd c cmds =>
      (c ∉ cmds) ∧ NoDup cmds ∧ (∀ x, x ∈ cmds → parent (h x) = None)
  | OpRemove _ _ => True
  end.

Fixpoint detached_ops (h : Heap) (ops : list TreeOp) : Prop :=
  match ops with
  | [] => True
  | op :: rest => detached_op h op ∧ detached_ops (run_op h op).1 rest
  end.

(** ** Streams and the usage line *)

(** [func (c *Command) OutOrStdout() io.Writer] *)
Fixpoint OutOrStdout (fuel : nat) (h : Heap) (c : ptr) : Res Writer :=
  match fuel with
  | 0 => OutOfFuel
  | S fuel' =>
      match output (h c) with
      | Some w => Val w
      | None =>
          match parent (h c) with
          | Some p => OutOrStdout fuel' h p
          | None => Val Stdout
          end
      end
  end.

(** [func (c *Command) ErrOrStderr() io.Writer] *)
Fixpoint ErrOrStderr (fuel : nat) (h : Heap) (c : ptr) : Res Writer :=
  match fuel with
  | 0 => OutOfFuel
  | S fuel' =>
      match errOutput (h c) with
      | Some w => Val w
      | None =>
          match parent (h c) with
          | Some p => ErrOrStderr fuel' h p
          | None => Val Stderr
          end
      end
  end.

(** [func (c *Command) UseLine() string] *)
Fixpoint UseLine (fuel : nat) (h : Heap) (c : ptr) : Res string :=
  match fuel with
  | 0 => OutOfFuel
  | S fuel' =>
      match parent (h c) with
      | Some p =>
          match UseLine fuel' h p with
          | Val s => Val (String.app s (String.app " " (Use (h c))))
          | r => r
          end
      | None => Val (Use (h c))
      end
  end.

(** ** Execution *)

(** The five lifecycle stages, in pipeline order. *)
Inductive Stage : Type :=
  | StagePersistentPreRun
  | StagePreRun
  | StageRun
  | StagePostRun
  | StagePersistentPostRun.

Global Instance Stage_eq_dec : EqDecision Stage.
Proof. solve_decision. Defined.

(** What [execute] itself does, in order: the calls it makes to the
    validator and to the lifecycle callbacks (with what they returned), and
    what it writes on a failed run. *)
Inductive Event : Type :=
  | EvValidate (cmd : ptr) (args : list string) (r : option error)
      (* cmd.Args(cmd, args) returned r *)
  | EvCallback (s : Stage) (fallible : bool) (cmd : ptr) (args : list string)
      (r : option error)
      (* the callback of stage s (the E variant when fallible) returned r *)
  | EvPrintErr (w : Writer) (e : error)
      (* fmt.Fprintln(w, e) *)
  | EvUsage (c : ptr) (w : Writer).
      (* c.Usage(): the usage text of c is written to w *)

Global Instance Event_eq_dec : EqDecision Event.
Proof. solve_decision. Defined.

(** Result of [c.Flags().Parse(args)] followed by [c.Flags().Args()]. *)
Inductive ParseResult : Type :=
  | ParseOk (rest : list string)
  | ParseErr (e : error).

Section Execution.

(** The state of the application outside the command tree: the variables
    the flag values are bound to and whatever the callbacks touch. *)
Context {W : Type}.

(** The flag parser of the third-party flag library, and the meaning of
    the Go function values stored in the tree: a callback receives the
    node and the arguments, reads the tree, and acts on the application
    state; the [E] variants also return an error.  Callbacks are taken to
    return and to leave the command tree as it is: the tree is built
    before [execute] is called. *)
Context (Parse : FlagSet → list string → W → W * ParseResult).
Context (call : Fn → ptr → list string → Heap → W → W).
Context (callE : Fn → ptr → list string → Heap → W → W * option error).

Record State : Type := mkState { heap : Heap; app : W }.

(** Computations over the state that log events and may panic. *)
Definition M (A : Type) : Type := State → State * list Event * Res A.

Definition ret {A} (a : A) : M A := λ s, (s, [], Val a).

Definition bind {A B} (m : M A) (k : A → M B) : M B := λ s,
  match m s with
  | (s1, t1, Val a) =>
      match k a s1 with (s2, t2, r) => (s2, t1 ++ t2, r) end
  | (s1, t1, Panic msg) => (s1, t1, Panic msg)
  | (s1, t1, OutOfFuel) => (s1, t1, OutOfFuel)
  end.

Definition emit (e : Event) : M unit := λ s, (s, [e], Val ()).
Definition panic {A} (msg : string) : M A := λ s, (s, [], Panic msg).
Definition get_heap : M Heap := λ s, (s, [], Val (heap s)).
Definition put_heap (h : Heap) : M unit :=
  λ s, (mkState h (app s), [], Val ()).
Definition lift_res {A} (r : Res A) : M A := λ s, (s, [], r).

Notation "'let*' x ':=' m 'in' k" := (bind m (λ x, k))
  (at level 10, x name, m at level 100, k at level 200).
Notation "'run' m 'in' k" := (bind m (λ _, k))
  (at level 10, m at level 100, k at level 200).
(** Go's [if err := m; err != nil { return err }]. *)
Notation "'check' m 'in' k" :=
  (bind m (λ r, match r with Some err => ret (Some err) | None => k end))
  (at level 10, m at level 100, k at level 200).

(** *** Flag composition *)

(** The function passed to [VisitAll] in [mergePersistentFlags]:
    [if c.Flags().Lookup(f.Name) == nil { c.Flags().AddFlag(f) }]. *)
Definition merge_flag (c : ptr) (f : Flag) : M unit :=
  let* h := get_heap in
  match Lookup (flags (h c)) (FlagName f) with
  | None =>
      match AddFlag (flags (h c)) f with
      | Some fs => put_heap (<[c := set_flags fs (h c)]> h)
      | None => panic "flag redefined"
      end
  | Some _ => ret ()
  end.

Fixpoint visit (l : list Flag) (fn : Flag → M unit) : M unit :=
  match l with
  | [] => ret ()
  | f :: rest => run fn f in visit rest fn
  end.

(** [func (c *Command) mergePersistentFlags()] *)
Fixpoint mergePersistentFlags (fuel : nat) (c : ptr) : M unit :=
  match fuel with
  | 0 => lift_res OutOfFuel
  | S fuel' =>
      let* h := get_heap in
      run (match parent (h c) with
           | Some p =>
               run mergePersistentFlags fuel' p in
               let* h1 := get_heap in
               visit (VisitAll (pflags (h1 p))) (merge_flag c)
           | None => ret ()
           end) in
      let* h2 := get_heap in
      run visit (VisitAll (pflags (h2 c))) (merge_flag c) in
      let* h3 := get_heap in
      visit (VisitAll (lflags (h3 c))) (merge_flag c)
  end.

(** [c.Flags().Parse(args)], then [c.Flags().Args()]. *)
Definition Flags_Parse (c : ptr) (args : list string) : M ParseResult :=
  λ s, let '(w, r) := Parse (flags (heap s c)) args (app s) in
       (mkState (heap s) w, [], Val r).

(** [func (c *Command) ParseFlags(args []string) error] *)
Definition ParseFlags (fuel : nat) (c : ptr) (args : list string)
  : M ParseResult :=
  run mergePersistentFlags fuel c in
  Flags_Parse c args.

(** *** Lifecycle stages *)

(** A call of a callback without error result, and of one with. *)
Definition invoke (s : Stage) (f : Fn) (cmd : ptr) (args : list string)
  : M unit :=
  λ st, (mkState (heap st) (call f cmd args (heap st) (app st)),
         [EvCallback s false cmd args None], Val ()).

Definition invokeE (s : Stage) (f : Fn) (cmd : ptr) (args : list string)
  : M (option error) :=
  λ st, let '(w, r) := callE f cmd args (heap st) (app st) in
        (mkState (heap st) w, [EvCallback s true cmd args r], Val r).

(** The common shape of the five [execute...] methods: the [E] variant
    if it is set, else the plain one if it is set, else nothing. *)
Definition executeStage (s : Stage) (fE f : option Fn) (c : ptr)
    (args : list string) : M (option error) :=
  match fE with
  | Some g => invokeE s g c args
  | None =>
      match f with
      | Some g => run invoke s g c args in ret None
      | None => ret None
      end
  end.

Definition executePersistentPreRun (c : ptr) (args : list string)
  : M (option error) :=
  let* h := get_heap in
  executeStage StagePersistentPreRun
    (PersistentPreRunE (h c)) (PersistentPreRun (h c)) c args.

Definition executePreRun (c : ptr) (args : list string) : M (option error) :=
  let* h := get_heap in
  executeStage StagePreRun (PreRunE (h c)) (PreRun (h c)) c args.

Definition executeRun (c : ptr) (args : list string) : M (option error) :=
  let* h := get_heap in
  executeStage StageRun (RunE (h c)) (Run (h c)) c args.

Definition executePostRun (c : ptr) (args : list string) : M (option error) :=
  let* h := get_heap in
  executeStage StagePostRun (PostRunE (h c)) (PostRun (h c)) c args.

Definition executePersistentPostRun (c : ptr) (args : list string)
  : M (option error) :=
  let* h := get_heap in
  executeStage StagePersistentPostRun
    (PersistentPostRunE (h c)) (PersistentPostRun (h c)) c args.

(** The call [cmd.Args(cmd, flags)]. *)
Definition call_Args (v : PositionalArgs) (cmd : ptr) (args : list string)
  : M (option error) :=
  λ st,
    let h := heap st in
    let '(w, r) :=
      match v with
      | ArgsNoArgs => (app st, NoArgs (h cmd) args)
      | ArgsArbitraryArgs => (app st, ArbitraryArgs (h cmd) args)
      | ArgsMinimumNArgs n => (app st, MinimumNArgs n (h cmd) args)
      | ArgsMaximumNArgs n => (app st, MaximumNArgs n (h cmd) args)
      | ArgsExactArgs n => (app st, ExactArgs n (h cmd) args)
      | ArgsRangeArgs min max => (app st, RangeArgs min max (h cmd) args)
      | ArgsCustom f => callE f cmd args h (app st)
      end in
    (mkState h w, [EvValidate cmd args r], Val r).

(** [func (c *Command) Usage() error]: the text, rendered by [ModernHelp]
    or [UsageString] from the usage line, is written to
    [c.OutOrStdout()]; its result is always nil. *)
Definition Usage (fuel : nat) (c : ptr) : M unit :=
  let* h := get_heap in
  let* w := lift_res (OutOrStdout fuel h c) in
  let* _ := lift_res (UseLine fuel h c) in
  emit (EvUsage c w).

(** [func (c *Command) execute(args []string) error] *)
Definition execute (fuel : nat) (c : ptr) (args : list string)
  : M (option error) :=
  let* h := get_heap in
  let* parsed := (if DisableFlagParsing (h c) then ret (ParseOk args)
                  else ParseFlags fuel c args) in
  match parsed with
  | ParseErr err => ret (Some err)
  | ParseOk args =>
      let* h := get_heap in
      let '(cmd, flags) := Find h c args in
      check (match Args (h cmd) with
             | Some v => call_Args v cmd flags
             | None => ret None
             end) in
      check executePersistentPreRun cmd flags in
      check executePreRun cmd flags in
      let* rerr := executeRun cmd flags in
      match rerr with
      | Some err =>
          let* h := get_heap in
          run (if negb (SilenceErrors (h c))
               then let* w := lift_res (ErrOrStderr fuel h c) in
                    emit (EvPrintErr w err)
               else ret ()) in
          run (if negb (SilenceUsage (h c)) then Usage fuel c
               else ret ()) in
          ret (Some err)
      | None =>
          check executePostRun cmd flags in
          check executePersistentPostRun cmd flags in
          ret None
      end
  end.

End Execution.

(** ** A flag parser and an application for concrete runs *)

(** The application state of the examples: a log of the flag values
    assigned by the parser and of the callbacks called. *)
Inductive LogEntry : Type :=
  | Assigned (name value : string)
  | Called (f : Fn).

Definition Log : Type := list LogEntry.

(** Modelled from the spec: the conversion of a value to the declared type
    of a flag belongs to the flag library, which is not under the source
    tree.  These are the literals a boolean flag accepts; a string flag
    accepts every value. *)
Definition bool_literals : list string :=
  ["1"; "t"; "T"; "TRUE"; "true"; "True"; "0"; "f"; "F"; "FALSE"; "false"; "False"].

(** Modelled from the spec: the assignment of a parsed value to a flag, of
    the flag library; it fails when the value does not convert to the
    declared type. *)
Definition set_flag (f : Flag) (value : string) (w : Log) : Log * option error :=
  match Kind f with
  | BoolFlag =>
      if bool_decide (value ∈ bool_literals)
      then (w ++ [Assigned (FlagName f) value], None)
      else (w, Some (ErrFlag "invalid argument"))
  | StringFlag => (w ++ [Assigned (FlagName f) value], None)
  end.

(** What one flag token amounts to: an assignment, a flag that takes the
    next token as its value, or an error. *)
Inductive FlagToken : Type :=
  | TokSet (f : Flag) (value : string)
  | TokNeedsValue (f : Flag)
  | TokErr (e : error).

Definition string_drop (n : nat) (s : string) : string :=
  String.substring n (String.length s - n) s.

(** Modelled from the spec: one flag token of the flag library's parser,
    [--name] or [--name=value] with the names looked up by [Lookup], [-x]
    or [-x=value] with the shorthands looked up by [ShorthandLookup];
    [body] is the token without its dashes and [help] the reserved name,
    [help] or [h].  A boolean flag without [=value] is set to true, any
    other flag without [=value] takes the next token; a name that is not
    declared is an error, the help request when it is the reserved one. *)
Definition parseFlagArg (lookup : string → option Flag) (help body : string)
  : FlagToken :=
  if String.prefix "-" body || String.prefix "=" body
  then TokErr (ErrFlag "bad flag syntax")
  else
    let '(name, value) :=
      match String.index 0 "=" body with
      | Some i => (String.substring 0 i body, Some (string_drop (S i) body))
      | None => (body, None)
      end in
    match lookup name with
    | None =>
        if bool_decide (name = help) then TokErr ErrHelp
        else TokErr (ErrFlag "unknown flag")
    | Some f =>
        match value with
        | Some v => TokSet f v
        | None =>
            if bool_decide (Kind f = BoolFlag) then TokSet f "true"
            else TokNeedsValue f
        end
    end.

(** Modelled from the spec: [FlagSet.Parse] of the third-party flag library
    (section 4.1 of the spec) consumes the recognized [--name] and [-x]
    tokens, with [--name=value], [-x=value] and [-x value], assigns the
    values and returns the non-flag remainder; it fails on an unknown flag,
    on a value that does not convert and on a missing value.  [--] ends
    the flags; [-h] and [--help] are reserved.  [pending] is a flag whose
    value is the next token, [acc] the non-flag tokens so far. *)
Fixpoint parseArgs (fs : FlagSet) (pending : option Flag)
    (args acc : list string) (w : Log) : Log * ParseResult :=
  match args with
  | [] =>
      match pending with
      | Some _ => (w, ParseErr (ErrFlag "flag needs an argument"))
      | None => (w, ParseOk acc)
      end
  | s :: rest =>
      match pending with
      | Some f =>
          match set_flag f s w with
          | (w1, None) => parseArgs fs None rest acc w1
          | (w1, Some e) => (w1, ParseErr e)
          end
      | None =>
          if bool_decide (String.length s ≤ 1) || negb (String.prefix "-" s)
          then parseArgs fs None rest (acc ++ [s]) w
          else if bool_decide (s = "--") then (w, ParseOk (acc ++ rest))
          else
            match (if String.prefix "--" s
                   then parseFlagArg (Lookup fs) "help" (string_drop 2 s)
                   else parseFlagArg (ShorthandLookup fs) "h" (string_drop 1 s))
            with
            | TokSet f v =>
                match set_flag f v w with
                | (w1, None) => parseArgs fs None rest acc w1
                | (w1, Some e) => (w1, ParseErr e)
                end
            | TokNeedsValue f => parseArgs fs (Some f) rest acc w
            | TokErr e => (w, ParseErr e)
            end
      end
  end.

(** Modelled from the spec: the entry point [FlagSet.Parse(arguments)] of
    the flag library, followed by [FlagSet.Args()]. *)
Definition pflag_Parse (fs : FlagSet) (args : list string) (w : Log)
  : Log * ParseResult :=
  parseArgs fs None args [] w.

(** The callbacks of the examples log their call; those with an
    identifier of 100 or more fail. *)
Definition demo_call (f : Fn) (cmd : ptr) (args : list string) (h : Heap)
    (w : Log) : Log :=
  w ++ [Called f].

Definition demo_callE (f : Fn) (cmd : ptr) (args : list string) (h : Heap)
    (w : Log) : Log * option error :=
  (w ++ [Called f],
   if bool_decide (100 ≤ f) then Some (ErrUser "failed") else None).

Definition demo_execute (fuel : nat) (c : ptr) (args : list string)
    (h : Heap) : State * list Event * Res (option error) :=
  execute pflag_Parse demo_call demo_callE fuel c args (mkState h []).

(** A node matches a token by its name or by one of its aliases. *)
Definition matches (h : Heap) (cmd : ptr) (tok : string) : Prop :=
  Name (h cmd) = tok ∨ tok ∈ Aliases (h cmd).

(** ** Example trees *)

(** [root] (address 0) with the children [greet] (1, alias [hi]) and
    [list] (2, aliases [ls] and [greet]); [greet] has the child [all] (3). *)
Definition tree_find : Heap :=
  <[0 := set_commands [1; 2] (mkCommand "root" [] None None None None None
          None None None None None false false false None [] None [] [] []
          None None)]>
  (<[1 := set_commands [3] (mkCommand "greet [name]" ["hi"] None None None
          None None None None None None None false false false None []
          (Some 0) [] [] [] None None)]>
  (<[2 := mkCommand "list" ["ls"; "greet"] None None None None None None
          None None None None false false false None [] (Some 0) [] [] []
          None None]>
  (<[3 := mkCommand "all" [] None None None None None None None None None
          None false false false None [] (Some 1) [] [] [] None None]>
   emptyHeap))).

(** ** Notions used to state the properties *)

(** [h'] is [h] with flags appended to effective flag sets, and nothing
    else changed. *)
Definition flags_extend (h h' : Heap) : Prop :=
  ∀ x, ∃ added, h' x = set_flags (flags (h x) ++ added) (h x).

(** [c] is [k] parent links below a root. *)
Fixpoint depth_is (k : nat) (h : Heap) (c : ptr) : Prop :=
  match k with
  | 0 => parent (h c) = None
  | S k' => ∃ p, parent (h c) = Some p ∧ depth_is k' h p
  end.

(** The parent chain of [c] ends at a root in fewer than [fuel] links: [c]
    sits in a tree, and the fuel covers its depth. *)
Definition rooted (fuel : nat) (h : Heap) (c : ptr) : Prop :=
  ∃ k, k < fuel ∧ depth_is k h c.

(** A computation that logs nothing and leaves the application state
    alone, whatever its outcome. *)
Definition silent (W : Type) {A : Type} (m : @M W A) : Prop :=
  ∀ st, (m st).1.2 = [] ∧ app (m st).1.1 = app st.

(** [root] (0) declares the persistent flag [verbose]; its child [local]
    (1) declares a flag [verbose] of its own in its local scope, its child
    [persistent] (2) in its persistent scope, and its child [direct] (3)
    directly in its effective set. *)
Definition flag_root : Flag := mkFlag 10 "verbose" "v" BoolFlag.
Definition flag_local : Flag := mkFlag 11 "verbose" "" BoolFlag.
Definition flag_persistent : Flag := mkFlag 12 "verbose" "" StringFlag.
Definition flag_direct : Flag := mkFlag 13 "verbose" "" StringFlag.

Definition tree_flags : Heap :=
  <[0 := mkCommand "root" [] None None None None None None None None None
          None false false false None [1; 2; 3] None [] [flag_root] [] None
          None]>
  (<[1 := mkCommand "local" [] None None None None None None None None None
          None false false false None [] (Some 0) [] [] [flag_local] None
          None]>
  (<[2 := mkCommand "persistent" [] None None None None None None None None
          None None false false false None [] (Some 0) [] [flag_persistent]
          [] None None]>
  (<[3 := mkCommand "direct" [] None None None None None None None None
          None None false false false None [] (Some 0) [flag_direct] [] []
          None None]>
   emptyHeap))).

(** The two callbacks of a stage on a node, the [E] variant first. *)
Definition stage_slots (s : Stage) (c : Command) : option Fn * option Fn :=
  match s with
  | StagePersistentPreRun => (PersistentPreRunE c, PersistentPreRun c)
  | StagePreRun => (PreRunE c, PreRun c)
  | StageRun => (RunE c, Run c)
  | StagePostRun => (PostRunE c, PostRun c)
  | StagePersistentPostRun => (PersistentPostRunE c, PersistentPostRun c)
  end.

Definition all_stages : list Stage :=
  [StagePersistentPreRun; StagePreRun; StageRun; StagePostRun;
   StagePersistentPostRun].

(** What a stage that completes without error logs: the call of its [E]
    callback if that is set, else of its plain callback if that is set,
    else nothing. *)
Definition passed (h : Heap) (cmd : ptr) (a : list string) (s : Stage)
  : list Event :=
  match stage_slots s (h cmd) with
  | (Some _, _) => [EvCallback s true cmd a None]
  | (None, Some _) => [EvCallback s false cmd a None]
  | (None, None) => []
  end.

(** The stage a callback event belongs to. *)
Definition stage_of (ev : Event) : option Stage :=
  match ev with
  | EvCallback s _ _ _ _ => Some s
  | _ => None
  end.

(** The events that report a failed run. *)
Definition is_report (ev : Event) : bool :=
  match ev with
  | EvPrintErr _ _ | EvUsage _ _ => true
  | _ => false
  end.

Section Pipeline.

Context {W : Type}.
Context (call : Fn → ptr → list string → Heap → W → W).
Context (callE : Fn → ptr → list string → Heap → W → W * option error).

(** The method of a stage. *)
Definition execute_stage (s : Stage) (cmd : ptr) (a : list string)
  : @M W (option error) :=
  match s with
  | StagePersistentPreRun => executePersistentPreRun call callE cmd a
  | StagePreRun => executePreRun call callE cmd a
  | StageRun => executeRun call callE cmd a
  | StagePostRun => executePostRun call callE cmd a
  | StagePersistentPostRun => executePersistentPostRun call callE cmd a
  end.

(** A run of consecutive stages, up to the first error. *)
Fixpoint run_stages (l : list Stage) (cmd : ptr) (a : list string)
  : @M W (option error) :=
  match l with
  | [] => ret None
  | s :: rest =>
      bind (execute_stage s cmd a)
        (λ r, match r with
              | Some err => ret (Some err)
              | None => run_stages rest cmd a
              end)
  end.

(** What [execute] does when the run stage has failed with [err]. *)
Definition report_failure (fuel : nat) (c : ptr) (err : error)
  : @M W (option error) :=
  bind get_heap (λ h,
  bind (if negb (SilenceErrors (h c))
        then bind (lift_res (ErrOrStderr fuel h c))
                  (λ w, emit (EvPrintErr w err))
        else ret ()) (λ _,
  bind (if negb (SilenceUsage (h c)) then Usage fuel c else ret ()) (λ _,
  ret (Some err)))).

(** What [execute] does once the flags are parsed: resolution, validation
    and the lifecycle. *)
Definition dispatch (fuel : nat) (c : ptr) (args : list string)
  : @M W (option error) :=
  bind get_heap (λ h,
  let '(cmd, a) := Find h c args in
  bind (match Args (h cmd) with
        | Some v => call_Args callE v cmd a
        | None => ret None
        end)
    (λ r, match r with
          | Some err => ret (Some err)
          | None =>
  bind (run_stages [StagePersistentPreRun; StagePreRun] cmd a)
    (λ r, match r with
          | Some err => ret (Some err)
          | None =>
  bind (executeRun call callE cmd a)
    (λ r, match r with
          | Some err => report_failure fuel c err
          | None => run_stages [StagePostRun; StagePersistentPostRun] cmd a
          end)
          end)
          end)).

End Pipeline.

(** The position of a stage in the pipeline. *)
Definition stage_index (s : Stage) : nat :=
  match s with
  | StagePersistentPreRun => 0
  | StagePreRun => 1
  | StageRun => 2
  | StagePostRun => 3
  | StagePersistentPostRun => 4
  end.

(** The validation step went through and logged [vt]: there is no
    validator, or it was called and returned nil. *)
Definition validated (h : Heap) (cmd : ptr) (a : list string)
    (vt : list Event) : Prop :=
  (Args (h cmd) = None ∧ vt = []) ∨
  (is_Some (Args (h cmd)) ∧ vt = [EvValidate cmd a None]).

(** The report of a failed run logged [rep] and ended with [r]: the error
    is written to the error stream of the receiver [c] unless [c] silences
    errors, then the usage of [c] to the output stream of [c] unless [c]
    silences usage, and the error is returned; on a cyclic parent chain the
    streams cannot be resolved. *)
Definition reported (h : Heap) (fuel : nat) (c : ptr) (e : error)
    (rep : list Event) (r : Res (option error)) : Prop :=
  (∀ ev, ev ∈ rep → is_report ev = true) ∧
  (r = Val (Some e) ∨ r = OutOfFuel) ∧
  (rooted fuel h c →
   r = Val (Some e) ∧
   ∃ w w', ErrOrStderr fuel h c = Val w ∧ OutOrStdout fuel h c = Val w' ∧
           rep = (if SilenceErrors (h c) then [] else [EvPrintErr w e]) ++
                 (if SilenceUsage (h c) then [] else [EvUsage c w'])).

(** The runs of [execute] once the flags are parsed, on the target [cmd]
    with the arguments [a]: what is logged, and the result. *)
Inductive Shape (h : Heap) (fuel : nat) (c cmd : ptr) (a : list string)
  : list Event → Res (option error) → Prop :=
  | ShapeInvalid (e : error) :
      is_Some (Args (h cmd)) →
      Shape h fuel c cmd a [EvValidate cmd a (Some e)] (Val (Some e))
  | ShapeDone (vt : list Event) :
      validated h cmd a vt →
      Shape h fuel c cmd a
        (vt ++ flat_map (passed h cmd a) all_stages) (Val None)
  | ShapeFailed (vt : list Event) (l1 l2 : list Stage) (s : Stage)
      (e : error) :
      validated h cmd a vt →
      all_stages = l1 ++ s :: l2 → s ≠ StageRun →
      is_Some (stage_slots s (h cmd)).1 →
      Shape h fuel c cmd a
        (vt ++ flat_map (passed h cmd a) l1 ++ [EvCallback s true cmd a (Some e)])
        (Val (Some e))
  | ShapeRunFailed (vt rep : list Event) (e : error)
      (r : Res (option error)) :
      validated h cmd a vt →
      is_Some (RunE (h cmd)) →
      reported h fuel c e rep r →
      Shape h fuel c cmd a
        (vt ++ flat_map (passed h cmd a) [StagePersistentPreRun; StagePreRun]
            ++ [EvCallback StageRun true cmd a (Some e)] ++ rep)
        r.

(** The first step of [execute]: the tokens the rest works on are the
    non-flag remainder of the parse, or all of them when flag parsing is
    disabled on the receiver. *)
Definition parse_step {W : Type}
    (Parse : FlagSet → list string → W → W * ParseResult)
    (fuel : nat) (c : ptr) (args : list string) : @M W ParseResult :=
  λ st, (if DisableFlagParsing (heap st c) then ret (ParseOk args)
         else ParseFlags Parse fuel c args) st.

(** A small application.  [app] (0) declares the persistent flag
    [verbose] and has three children.  [sub] (1) silences errors and
    usage, requires one argument, and has callbacks on every stage but the
    last; its [RunE] (100) fails.  [noop] (2) and [noopfail] (3) have
    neither [Run] nor [RunE]; the [PostRunE] of [noopfail] (101) fails. *)
Definition cli_app : Command :=
  {| Use := "app"; Aliases := [];
     Run := None; RunE := None; PreRun := None; PreRunE := None;
     PostRun := None; PostRunE := None;
     PersistentPreRun := None; PersistentPreRunE := None;
     PersistentPostRun := None; PersistentPostRunE := None;
     SilenceErrors := false; SilenceUsage := false;
     DisableFlagParsing := false; Args := None;
     commands := [1; 2; 3]; parent := None;
     flags := []; pflags := [mkFlag 10 "verbose" "v" BoolFlag]; lflags := [];
     output := None; errOutput := None |}.

Definition cli_sub : Command :=
  {| Use := "sub <arg>"; Aliases := ["s"];
     Run := Some 5; RunE := Some 100; PreRun := None; PreRunE := Some 2;
     PostRun := Some 3; PostRunE := None;
     PersistentPreRun := Some 1; PersistentPreRunE := None;
     PersistentPostRun := None; PersistentPostRunE := Some 4;
     SilenceErrors := true; SilenceUsage := true;
     DisableFlagParsing := false; Args := Some (ArgsMinimumNArgs 1);
     commands := []; parent := Some 0;
     flags := []; pflags := []; lflags := [];
     output := None; errOutput := None |}.

Definition cli_noop : Command :=
  {| Use := "noop"; Aliases := [];
     Run := None; RunE := None; PreRun := Some 6; PreRunE := None;
     PostRun := None; PostRunE := Some 7;
     PersistentPreRun := None; PersistentPreRunE := None;
     PersistentPostRun := None; PersistentPostRunE := None;
     SilenceErrors := false; SilenceUsage := false;
     DisableFlagParsing := false; Args := Some ArgsNoArgs;
     commands := []; parent := Some 0;
     flags := []; pflags := []; lflags := [];
     output := None; errOutput := None |}.

Definition cli_noopfail : Command :=
  {| Use := "noopfail"; Aliases := [];
     Run := None; RunE := None; PreRun := Some 6; PreRunE := None;
     PostRun := None; PostRunE := Some 101;
     PersistentPreRun := None; PersistentPreRunE := None;
     PersistentPostRun := Some 8; PersistentPostRunE := None;
     SilenceErrors := false; SilenceUsage := false;
     DisableFlagParsing := false; Args := None;
     commands := []; parent := Some 0;
     flags := []; pflags := []; lflags := [];
     output := None; errOutput := None |}.

Definition tree_cli : Heap :=
  <[0 := cli_app]> (<[1 := cli_sub]> (<[2 := cli_noop]>
  (<[3 := cli_noopfail]> emptyHeap))).

(** A command that declares the flag [help] with the shorthand [h] in its
    effective set and takes exactly one argument, and a command with flag
    parsing disabled that takes no argument. *)
Definition cli_help : Command :=
  {| Use := "test"; Aliases := [];
     Run := Some 1; RunE := None; PreRun := None; PreRunE := None;
     PostRun := None; PostRunE := None;
     PersistentPreRun := None; PersistentPreRunE := None;
     PersistentPostRun := None; PersistentPostRunE := None;
     SilenceErrors := false; SilenceUsage := false;
     DisableFlagParsing := false; Args := Some (ArgsExactArgs 1);
     commands := []; parent := None;
     flags := [mkFlag 20 "help" "h" BoolFlag]; pflags := []; lflags := [];
     output := None; errOutput := None |}.

Definition cli_raw : Command :=
  {| Use := "raw"; Aliases := [];
     Run := Some 1; RunE := None; PreRun := None; PreRunE := None;
     PostRun := None; PostRunE := None;
     PersistentPreRun := None; PersistentPreRunE := None;
     PersistentPostRun := None; PersistentPostRunE := None;
     SilenceErrors := false; SilenceUsage := false;
     DisableFlagParsing := true; Args := Some ArgsNoArgs;
     commands := []; parent := None;
     flags := []; pflags := []; lflags := [];
     output := None; errOutput := None |}.

Definition tree_help : Heap := <[0 := cli_help]> (<[1 := cli_raw]> emptyHeap).

(** ** Accessors and setters of the tree *)

(** [func (c *Command) Commands() []*Command] *)
Definition Commands (h : Heap) (c : ptr) : list ptr := commands (h c).

(** [func (c *Command) Parent() *Command] *)
Definition Parent (h : Heap) (c : ptr) : option ptr := parent (h c).

(** [func (c *Command) HasSubCommands() bool] *)
Definition HasSubCommands (h : Heap) (c : ptr) : bool :=
  bool_decide (0 < length (commands (h c))).

(** [func (c *Command) HasParent() bool] *)
Definition HasParent (h : Heap) (c : ptr) : bool :=
  bool_decide (parent (h c) ≠ None).

(** [func (c *Command) Root() *Command] *)
Fixpoint Root (fuel : nat) (h : Heap) (c : ptr) : Res ptr :=
  match fuel with
  | 0 => OutOfFuel
  | S fuel' =>
      match parent (h c) with
      | Some p => Root fuel' h p
      | None => Val c
      end
  end.

Definition set_output (o : option Writer) (c : Command) : Command :=
  mkCommand (Use c) (Aliases c) (Run c) (RunE c) (PreRun c) (PreRunE c)
    (PostRun c) (PostRunE c) (PersistentPreRun c) (PersistentPreRunE c)
    (PersistentPostRun c) (PersistentPostRunE c) (SilenceErrors c)
    (SilenceUsage c) (DisableFlagParsing c) (Args c) (commands c) (parent c)
    (flags c) (pflags c) (lflags c) o (errOutput c).

Definition set_errOutput (o : option Writer) (c : Command) : Command :=
  mkCommand (Use c) (Aliases c) (Run c) (RunE c) (PreRun c) (PreRunE c)
    (PostRun c) (PostRunE c) (PersistentPreRun c) (PersistentPreRunE c)
    (PersistentPostRun c) (PersistentPostRunE c) (SilenceErrors c)
    (SilenceUsage c) (DisableFlagParsing c) (Args c) (commands c) (parent c)
    (flags c) (pflags c) (lflags c) (output c) o.

(** [func (c *Command) SetOutput(output io.Writer)]; a nil writer is
    [None]. *)
Definition SetOutput (h : Heap) (c : ptr) (o : option Writer) : Heap :=
  <[c := set_output o (h c)]> h.

(** [func (c *Command) SetErr(err io.Writer)] *)
Definition SetErr (h : Heap) (c : ptr) (o : option Writer) : Heap :=
  <[c := set_errOutput o (h c)]> h.

(** ** Further notions used to state the properties *)

(** [x] is [k] parent links above [c]. *)
Fixpoint reaches (k : nat) (h : Heap) (c x : ptr) : Prop :=
  match k with
  | 0 => c = x
  | S k' => ∃ p, parent (h c) = Some p ∧ reaches k' h p x
  end.

(** The node [c] and its ancestors, [c] first, over at most [k] links. *)
Fixpoint ancestors (k : nat) (h : Heap) (c : ptr) : list ptr :=
  match k with
  | 0 => [c]
  | S k' =>
      match parent (h c) with
      | Some p => c :: ancestors k' h p
      | None => [c]
      end
  end.

(** The first writer that is set in a list of bindings. *)
Fixpoint first_set (l : list (option Writer)) : option Writer :=
  match l with
  | [] => None
  | Some w :: _ => Some w
  | None :: rest => first_set rest
  end.

(** [cmd] is the first child of [c], in registration order, that matches
    the token. *)
Definition first_match (h : Heap) (c : ptr) (tok : string) (cmd : ptr)
  : Prop :=
  ∃ i, commands (h c) !! i = Some cmd ∧ matches h cmd tok ∧
       ∀ j other, j < i → commands (h c) !! j = Some other →
                  ¬ matches h other tok.

(** [t] is reached from [c] by entering, token after token, the first
    matching child. *)
Inductive resolves (h : Heap) : ptr → list string → ptr → Prop :=
  | resolves_nil (c : ptr) : resolves h c [] c
  | resolves_cons (c cmd t : ptr) (tok : string) (rest : list string) :
      first_match h c tok cmd → resolves h cmd rest t →
      resolves h c (tok :: rest) t.

(** The standard validator a value of the [Args] field stands for, if it
    is one. *)
Definition standard_validator (v : PositionalArgs)
  : option (Command → list string → option error) :=
  match v with
  | ArgsNoArgs => Some NoArgs
  | ArgsArbitraryArgs => Some ArbitraryArgs
  | ArgsMinimumNArgs n => Some (MinimumNArgs n)
  | ArgsMaximumNArgs n => Some (MaximumNArgs n)
  | ArgsExactArgs n => Some (ExactArgs n)
  | ArgsRangeArgs min max => Some (RangeArgs min max)
  | ArgsCustom _ => None
  end.

(** The node and the arguments of a call that [execute] logs. *)
Definition call_of (ev : Event) : option (ptr * list string) :=
  match ev with
  | EvValidate cmd a _ => Some (cmd, a)
  | EvCallback _ _ cmd a _ => Some (cmd, a)
  | _ => None
  end.

(** A chain [root] (0), [mid] (1), [leaf] (2) of otherwise empty commands
    in which only [root] has an output writer set. *)
Definition tree_streams : Heap :=
  SetOutput (<[2 := set_parent (Some 1) zeroCommand]>
               (<[1 := set_parent (Some 0) zeroCommand]> emptyHeap))
    0 (Some (Buffer 7)).

(** The effective flag set of [c] holds a flag for every name declared in
    the persistent and local scopes of [c] and in the persistent scope of
    its parent. *)
Definition saturated (h : Heap) (c : ptr) : Prop :=
  (∀ f, f ∈ pflags (h c) → is_Some (Lookup (flags (h c)) (FlagName f))) ∧
  (∀ f, f ∈ lflags (h c) → is_Some (Lookup (flags (h c)) (FlagName f))) ∧
  (∀ p f, parent (h c) = Some p → f ∈ pflags (h p) →
          is_Some (Lookup (flags (h c)) (FlagName f))).

(** A chain [top] (0), [mid] (1), [leaf] (2); only [top] declares a flag,
    the persistent flag [verbose]. *)
Definition tree_deep : Heap :=
  <[0 := mkCommand "top" [] None None None None None None None None None
          None false false false None [1] None [] [flag_root] [] None None]>
  (<[1 := mkCommand "mid" [] None None None None None None None None None
          None false false false None [2] (Some 0) [] [] [] None None]>
  (<[2 := mkCommand "leaf" [] None None None None None None None None None
          None false false false None [] (Some 1) [] [] [] None None]>
   emptyHeap)).

(** ** Flag sets on which the merge returns *)

(** The scopes that [mergePersistentFlags] on [x] visits: the persistent
    and local scopes of [x] and the persistent scope of its parent. *)
Definition declared (h : Heap) (x : ptr) : list Flag :=
  pflags (h x) ++ lflags (h x) ++
  match parent (h x) with
  | Some p => pflags (h p)
  | None => []
  end.

(** The shorthands of a list of flags are at most one character long, and
    two flags with the same shorthand have the same name: registering the
    flags by name, each name once, never runs into a shorthand that is
    taken. *)
Definition shorthands_agree (fs : list Flag) : Prop :=
  Forall (λ f, String.length (Shorthand f) ≤ 1 ∧
               Forall (λ g, Shorthand f = Shorthand g →
                            Shorthand f = "" ∨ FlagName f = FlagName g) fs) fs.

(** The flags that the effective set of [x] holds or can receive agree on
    their shorthands. *)
Definition compatible (h : Heap) (x : ptr) : Prop :=
  shorthands_agree (flags (h x) ++ declared h x).

(** [h'] is [h] with flags of the visited scopes appended to effective
    flag sets, and nothing else changed. *)
Definition scopes_extend (h h' : Heap) : Prop :=
  ∀ x, ∃ added, h' x = set_flags (flags (h x) ++ added) (h x) ∧
                ∀ f, f ∈ added → f ∈ declared h x.

(** [root] (0) declares the persistent flag [verbose] with the shorthand
    [v]; its child [child] (1) declares the local flag [version] with the
    same shorthand. *)
Definition tree_clash : Heap :=
  <[0 := mkCommand "root" [] None None None None None None None None None
          None false false false None [1] None []
          [mkFlag 30 "verbose" "v" BoolFlag] [] None None]>
  (<[1 := mkCommand "child" [] None None None None None None None None None
          None false false false None [] (Some 0) [] []
          [mkFlag 31 "version" "v" BoolFlag] None None]>
   emptyHeap).

(* ================================================================== *)
(** * Properties *)

(** ** Resolution *)

Lemma HasAlias_loop_elem_of (aliases : list string) (s : string) :
  HasAlias_loop aliases s = true ↔ s ∈ aliases.
Proof.
  induction aliases as [|a rest IH]; simpl.
  - split; [discriminate | intros H; inversion H].
  - case_bool_decide as Ha.
    + subst a. split; [intros _; left | reflexivity].
    + rewrite IH. split.
      * intros H; right; exact H.
      * intros H. apply elem_of_cons in H as [->|H]; [contradiction | exact H].
Qed.

Lemma matches_bool (h : Heap) (cmd : ptr) (tok : string) :
  bool_decide (Name (h cmd) = tok) || HasAlias (h cmd) tok = true
  ↔ matches h cmd tok.
Proof.
  unfold matches, HasAlias.
  rewrite orb_true_iff, bool_decide_eq_true, HasAlias_loop_elem_of.
  reflexivity.
Qed.

(** The loop of [Find] returns the first matching child, if there is one. *)
Lemma Find_child_Some (h : Heap) (children : list ptr) (tok : string)
    (cmd : ptr) :
  Find_child h children tok = Some cmd ↔
  ∃ i, children !! i = Some cmd ∧ matches h cmd tok ∧
       ∀ j other, j < i → children !! j = Some other → ¬ matches h other tok.
Proof.
  revert cmd. induction children as [|x rest IH]; intros cmd; simpl.
  - split; [discriminate | intros (i & Hi & _); destruct i; discriminate].
  - destruct (bool_decide (Name (h x) = tok) || HasAlias (h x) tok) eqn:Hx.
    + apply matches_bool in Hx. split.
      * intros [= <-]. exists 0. split; [reflexivity|]. split; [exact Hx|].
        intros j other Hj; lia.
      * intros (i & Hi & Hm & Hfirst). destruct i as [|i].
        { simpl in Hi. congruence. }
        exfalso. apply (Hfirst 0 x); [lia | reflexivity | exact Hx].
    + assert (Hnx : ¬ matches h x tok).
      { intros Hm. apply matches_bool in Hm. congruence. }
      rewrite IH. split.
      * intros (i & Hi & Hm & Hfirst). exists (S i).
        split; [exact Hi|]. split; [exact Hm|].
        intros [|j] other Hj Hl; simpl in Hl.
        { injection Hl as <-. exact Hnx. }
        apply (Hfirst j); [lia | exact Hl].
      * intros (i & Hi & Hm & Hfirst). destruct i as [|i].
        { simpl in Hi. injection Hi as ->. contradiction. }
        exists i. split; [exact Hi|]. split; [exact Hm|].
        intros j other Hj Hl. apply (Hfirst (S j)); [lia | exact Hl].
Qed.

Lemma Find_child_None (h : Heap) (children : list ptr) (tok : string) :
  Find_child h children tok = None ↔
  ∀ cmd, cmd ∈ children → ¬ matches h cmd tok.
Proof.
  induction children as [|x rest IH]; simpl.
  - split; [intros _ cmd H; inversion H | reflexivity].
  - destruct (bool_decide (Name (h x) = tok) || HasAlias (h x) tok) eqn:Hx.
    + apply matches_bool in Hx. split; [discriminate|].
      intros H. exfalso. apply (H x); [left | exact Hx].
    + rewrite IH. split.
      * intros H cmd Hin. apply elem_of_cons in Hin as [->|Hin].
        -- intros Hm. apply matches_bool in Hm. congruence.
        -- apply H, Hin.
      * intros H cmd Hin. apply H. right. exact Hin.
Qed.

(** Resolution never gives a consumed token back: the remainder is a suffix
    of the tokens. *)
Lemma Find_suffix (h : Heap) (args : list string) :
  ∀ c, ∃ consumed, args = consumed ++ (Find h c args).2.
Proof.
  induction args as [|tok rest IH]; intros c; simpl.
  - exists []. reflexivity.
  - destruct (Find_child h (commands (h c)) tok) as [cmd|].
    + destruct (IH cmd) as [l Hl]. exists (tok :: l). simpl. congruence.
    + exists []. reflexivity.
Qed.

(** C5. Resolver contract: [Find] on no tokens returns the node itself with
    an empty remainder; when the first token is the name or an alias of a
    child, [Find] continues in the first such child in registration order
    with the rest of the tokens, and the remainder it finally returns is a
    suffix of that rest (the token is never given back); when no child
    matches, [Find] returns the node itself with all the tokens. *)
Theorem Find_contract (h : Heap) (c : ptr) :
  Find h c [] = (c, []) ∧
  (∀ tok rest i cmd,
     commands (h c) !! i = Some cmd →
     matches h cmd tok →
     (∀ j other, j < i → commands (h c) !! j = Some other →
                 ¬ matches h other tok) →
     Find h c (tok :: rest) = Find h cmd rest ∧
     ∃ consumed, rest = consumed ++ (Find h c (tok :: rest)).2) ∧
  (∀ tok rest,
     (∀ cmd, cmd ∈ commands (h c) → ¬ matches h cmd tok) →
     Find h c (tok :: rest) = (c, tok :: rest)).
Proof.
  split; [reflexivity|]. split.
  - intros tok rest i cmd Hi Hm Hfirst.
    assert (Hc : Find_child h (commands (h c)) tok = Some cmd).
    { apply Find_child_Some. exists i. auto. }
    assert (Heq : Find h c (tok :: rest) = Find h cmd rest).
    { simpl. rewrite Hc. reflexivity. }
    split; [exact Heq|]. rewrite Heq. apply Find_suffix.
  - intros tok rest Hnone. simpl.
    apply Find_child_None in Hnone. rewrite Hnone. reflexivity.
Qed.

(** On the example tree: [greet] is also an alias of [list], but the child
    [greet], registered first, is the one entered; [all] is then matched
    below it; [--x] and [nope] match nothing and stay in the remainder. *)
Lemma Find_contract_witness :
  Find tree_find 0 ["greet"; "nope"; "all"] = (1, ["nope"; "all"]) ∧
  Find tree_find 0 ["hi"; "all"; "--x"] = (3, ["--x"]) ∧
  Find tree_find 0 ["--x"; "greet"] = (0, ["--x"; "greet"]).
Proof.
  destruct (Find_contract tree_find 0) as (_ & Hchild & Hnone).
  split; [|split].
  - destruct (Hchild "greet" ["nope"; "all"] 0 1) as [-> _].
    + reflexivity.
    + left. reflexivity.
    + intros j other Hj. lia.
    + reflexivity.
  - destruct (Hchild "hi" ["all"; "--x"] 0 1) as [-> _].
    + reflexivity.
    + right. vm_compute. left.
    + intros j other Hj. lia.
    + reflexivity.
  - apply Hnone. intros cmd Hin [Hn|Ha].
    + vm_compute in Hin.
      apply elem_of_cons in Hin as [->|Hin]; [vm_compute in Hn; discriminate|].
      apply elem_of_cons in Hin as [->|Hin]; [vm_compute in Hn; discriminate|].
      inversion Hin.
    + vm_compute in Hin.
      apply elem_of_cons in Hin as [->|Hin].
      { vm_compute in Ha. apply list_elem_of_singleton in Ha. discriminate. }
      apply elem_of_cons in Hin as [->|Hin]; [|inversion Hin].
      vm_compute in Ha.
      apply elem_of_cons in Ha as [Ha|Ha]; [discriminate|].
      apply list_elem_of_singleton in Ha. discriminate.
Defined.

(** ** Positional-argument validators *)

Section Validators.
Context {W : Type}.
Context (callE : Fn → ptr → list string → Heap → W → W * option error).

Lemma mkState_eta (st : @State W) : mkState (heap st) (app st) = st.
Proof. destruct st; reflexivity. Qed.

(** C6. Built-in validator semantics: [ExactArgs(n)] fails exactly when
    the number of arguments differs from [n], [MinimumNArgs(n)] when it
    is below [n], [MaximumNArgs(n)] when it is above [n],
    [RangeArgs(min, max)] when it is below [min] or above [max], [NoArgs]
    when there is an argument (the error cites the first one), and
    [ArbitraryArgs] never fails; the call of any of them from [execute]
    leaves the heap and the application state as they were. *)
Theorem standard_validators (cmd : Command) (args : list string)
    (n min max : Z) :
  (is_Some (ExactArgs n cmd args) ↔ Z.of_nat (length args) ≠ n) ∧
  (is_Some (MinimumNArgs n cmd args) ↔ (Z.of_nat (length args) < n)%Z) ∧
  (is_Some (MaximumNArgs n cmd args) ↔ (Z.of_nat (length args) > n)%Z) ∧
  (is_Some (RangeArgs min max cmd args) ↔
     (Z.of_nat (length args) < min)%Z ∨ (Z.of_nat (length args) > max)%Z) ∧
  (is_Some (NoArgs cmd args) ↔ 0 < length args) ∧
  (∀ a rest, NoArgs cmd (a :: rest) = Some (ErrUnknownCommand a (Use cmd))) ∧
  ArbitraryArgs cmd args = None ∧
  (∀ (v : PositionalArgs) (p : ptr) (st : State),
     match v with
     | ArgsCustom _ => True
     | _ => ∃ r, call_Args callE v p args st
                 = (st, [EvValidate p args r], Val r)
     end).
Proof.
  repeat split.
  - unfold ExactArgs. case_bool_decide; [trivial|]. intros [? [=]].
  - unfold ExactArgs. case_bool_decide; [eauto | contradiction].
  - unfold MinimumNArgs. case_bool_decide; [trivial|]. intros [? [=]].
  - unfold MinimumNArgs. case_bool_decide; [eauto | contradiction].
  - unfold MaximumNArgs. case_bool_decide; [trivial|]. intros [? [=]].
  - unfold MaximumNArgs. case_bool_decide; [eauto | contradiction].
  - unfold RangeArgs. do 2 case_bool_decide; simpl; auto. intros [? [=]].
  - unfold RangeArgs. do 2 case_bool_decide; simpl; eauto. intros [?|?]; lia.
  - unfold NoArgs. case_bool_decide; [trivial|]. intros [? [=]].
  - unfold NoArgs. case_bool_decide; [eauto | contradiction].
  - intros v p st. unfold call_Args.
    destruct v; try exact I; rewrite mkState_eta; eauto.
Qed.

End Validators.

(** ** Building the tree *)

(** One iteration of the loop of [AddCommand] for a node other than the
    receiver. *)
Lemma AddCommand_cons (h : Heap) (c cmd : ptr) (rest : list ptr) :
  cmd ≠ c →
  AddCommand h c (cmd :: rest) =
  AddCommand
    (<[c := set_commands (commands (h c) ++ [cmd]) (h c)]>
       (<[cmd := set_parent (Some c) (h cmd)]> h)) c rest.
Proof.
  intros Hne. cbn [AddCommand]. rewrite bool_decide_eq_false_2 by exact Hne.
  cbv zeta. rewrite fn_lookup_insert_ne by exact Hne. reflexivity.
Qed.

Lemma add_one_commands (h : Heap) (c cmd x : ptr) :
  commands ((<[c := set_commands (commands (h c) ++ [cmd]) (h c)]>
               (<[cmd := set_parent (Some c) (h cmd)]> h)) x)
  = if bool_decide (x = c) then commands (h c) ++ [cmd] else commands (h x).
Proof.
  case_bool_decide as Hx.
  - subst x. rewrite fn_lookup_insert. reflexivity.
  - rewrite fn_lookup_insert_ne by congruence.
    destruct (decide (cmd = x)) as [->|Hx'].
    + rewrite fn_lookup_insert. reflexivity.
    + rewrite fn_lookup_insert_ne by exact Hx'. reflexivity.
Qed.

Lemma add_one_parent (h : Heap) (c cmd x : ptr) :
  cmd ≠ c →
  parent ((<[c := set_commands (commands (h c) ++ [cmd]) (h c)]>
             (<[cmd := set_parent (Some c) (h cmd)]> h)) x)
  = if bool_decide (x = cmd) then Some c else parent (h x).
Proof.
  intros Hne. case_bool_decide as Hx.
  - subst x. rewrite fn_lookup_insert_ne by congruence.
    rewrite fn_lookup_insert. reflexivity.
  - destruct (decide (c = x)) as [->|Hx'].
    + rewrite fn_lookup_insert. reflexivity.
    + rewrite !fn_lookup_insert_ne by congruence. reflexivity.
Qed.

(** [AddCommand] of nodes other than the receiver returns; it appends them
    to the receiver's children and makes the receiver their parent, and
    touches no other edge. *)
Lemma AddCommand_returns (cmds : list ptr) :
  ∀ (h : Heap) (c : ptr), c ∉ cmds →
  ∃ h', AddCommand h c cmds = (h', Val ()) ∧
        (∀ x, commands (h' x) =
              if bool_decide (x = c) then commands (h c) ++ cmds
              else commands (h x)) ∧
        (∀ x, parent (h' x) =
              if bool_decide (x ∈ cmds) then Some c else parent (h x)).
Proof.
  induction cmds as [|cmd rest IH]; intros h c Hc.
  - exists h. split; [reflexivity|]. split; intros x.
    + case_bool_decide; [subst; rewrite app_nil_r|]; reflexivity.
    + rewrite bool_decide_eq_false_2 by apply not_elem_of_nil. reflexivity.
  - apply not_elem_of_cons in Hc as [Hne Hc].
    rewrite AddCommand_cons by congruence.
    destruct (IH (<[c := set_commands (commands (h c) ++ [cmd]) (h c)]>
                    (<[cmd := set_parent (Some c) (h cmd)]> h)) c Hc)
      as (h' & Hrun & Hcmds & Hpar).
    exists h'. split; [exact Hrun|]. split; intros x.
    + rewrite Hcmds, !add_one_commands.
      rewrite (bool_decide_eq_true_2 (c = c)) by reflexivity.
      case_bool_decide; [rewrite <- app_assoc|]; reflexivity.
    + rewrite Hpar, add_one_parent by congruence.
      destruct (decide (x ∈ rest)) as [Hin|Hin].
      * rewrite !bool_decide_eq_true_2; [reflexivity | right; exact Hin | exact Hin].
      * rewrite (bool_decide_eq_false_2 (x ∈ rest)) by exact Hin.
        case_bool_decide as Hx.
        -- subst x. rewrite bool_decide_eq_true_2 by left. reflexivity.
        -- rewrite bool_decide_eq_false_2; [reflexivity|].
           intros Hin'. apply elem_of_cons in Hin' as [?|?]; contradiction.
Qed.

Lemma AddCommand_app (pre : list ptr) :
  ∀ (h : Heap) (c : ptr) (post : list ptr), c ∉ pre →
  AddCommand h c (pre ++ post) = AddCommand (AddCommand h c pre).1 c post.
Proof.
  induction pre as [|cmd rest IH]; intros h c post Hc; [reflexivity|].
  apply not_elem_of_cons in Hc as [Hne Hc].
  rewrite <- app_comm_cons, !AddCommand_cons by congruence.
  apply IH, Hc.
Qed.

(** C8. Self-parenting faults: [AddCommand] called on [c] with [c] among its
    arguments panics; at the panic, the children of [c] are its former
    children followed by the arguments that came before [c], none of which
    is [c], and the parent of [c] is unchanged: [c] has not been made its
    own child. *)
Theorem AddCommand_self_panics (h : Heap) (c : ptr) (cmds : list ptr) :
  c ∈ cmds →
  ∃ h' pre post,
    cmds = pre ++ c :: post ∧ (c ∉ pre) ∧
    AddCommand h c cmds = (h', Panic "command can't be a child of itself") ∧
    commands (h' c) = commands (h c) ++ pre ∧
    parent (h' c) = parent (h c).
Proof.
  intros Hin.
  apply list_elem_of_split_l in Hin as (pre & post & -> & Hpre).
  destruct (AddCommand_returns pre h c Hpre) as (h' & Hrun & Hcmds & Hpar).
  exists h', pre, post. split; [reflexivity|]. split; [exact Hpre|].
  split; [|split].
  - rewrite AddCommand_app, Hrun by exact Hpre. simpl.
    rewrite bool_decide_eq_true_2 by reflexivity. reflexivity.
  - rewrite Hcmds, bool_decide_eq_true_2 by reflexivity. reflexivity.
  - rewrite Hpar, bool_decide_eq_false_2 by exact Hpre. reflexivity.
Qed.

(** [root.AddCommand(sub, root)] on fresh nodes: [sub] (address 1) is
    added, then the call panics on [root] (address 0). *)
Lemma AddCommand_self_panics_witness :
  ∃ h' pre post,
    [1; 0] = pre ++ 0 :: post ∧ (0 ∉ pre) ∧
    AddCommand emptyHeap 0 [1; 0]
      = (h', Panic "command can't be a child of itself") ∧
    commands (h' 0) = commands (emptyHeap 0) ++ pre ∧
    parent (h' 0) = parent (emptyHeap 0).
Proof.
  apply (AddCommand_self_panics emptyHeap 0 [1; 0]).
  right. left.
Defined.

Lemma RemoveCommand_match_elem_of (command : ptr) (cmds : list ptr) :
  RemoveCommand_match command cmds = true ↔ command ∈ cmds.
Proof.
  induction cmds as [|cmd rest IH]; simpl.
  - split; [discriminate | intros H; inversion H].
  - case_bool_decide as Hc.
    + subst. split; [intros _; left | reflexivity].
    + rewrite IH, elem_of_cons. tauto.
Qed.

(** The loop of [RemoveCommand] keeps the children that are not among the
    arguments and clears the parent of the others. *)
Lemma RemoveCommand_loop_spec (cmds children : list ptr) :
  ∀ (h : Heap) (kept : list ptr),
  ∃ h1, RemoveCommand_loop h children cmds kept
        = (h1, kept ++ filter (λ x, x ∉ cmds) children) ∧
        (∀ x, commands (h1 x) = commands (h x)) ∧
        (∀ x, parent (h1 x) =
              if bool_decide (x ∈ children ∧ x ∈ cmds) then None
              else parent (h x)).
Proof.
  induction children as [|command rest IH]; intros h kept.
  - exists h. simpl. rewrite app_nil_r. split; [reflexivity|].
    split; intros x; reflexivity.
  - simpl. destruct (RemoveCommand_match command cmds) eqn:Hm.
    + apply RemoveCommand_match_elem_of in Hm.
      destruct (IH (<[command := set_parent None (h command)]> h) kept)
        as (h1 & Hrun & Hcmds & Hpar).
      exists h1. rewrite Hrun.
      rewrite filter_cons_False by (intros Hn; contradiction).
      split; [reflexivity|]. split; intros x.
      * rewrite Hcmds. destruct (decide (command = x)) as [->|Hx].
        -- rewrite fn_lookup_insert. reflexivity.
        -- rewrite fn_lookup_insert_ne by exact Hx. reflexivity.
      * rewrite Hpar. destruct (decide (x ∈ rest ∧ x ∈ cmds)) as [Hin|Hin].
        -- rewrite !bool_decide_eq_true_2; [reflexivity | | exact Hin].
           destruct Hin. split; [right|]; assumption.
        -- rewrite (bool_decide_eq_false_2 _ Hin).
           destruct (decide (command = x)) as [->|Hx].
           ++ rewrite fn_lookup_insert, bool_decide_eq_true_2; [reflexivity|].
              split; [left | exact Hm].
           ++ rewrite fn_lookup_insert_ne by exact Hx.
              rewrite bool_decide_eq_false_2; [reflexivity|].
              intros [Hc Hx']. apply elem_of_cons in Hc as [->|Hc]; tauto.
    + assert (Hn : command ∉ cmds).
      { intros Hin. apply RemoveCommand_match_elem_of in Hin. congruence. }
      destruct (IH h (kept ++ [command])) as (h1 & Hrun & Hcmds & Hpar).
      exists h1. rewrite Hrun, filter_cons_True by exact Hn.
      rewrite <- app_assoc. split; [reflexivity|].
      split; intros x; [apply Hcmds|].
      rewrite Hpar. destruct (decide (x ∈ rest ∧ x ∈ cmds)) as [Hin|Hin].
      * rewrite !bool_decide_eq_true_2; [reflexivity | | exact Hin].
        destruct Hin. split; [right|]; assumption.
      * rewrite !bool_decide_eq_false_2; [reflexivity | | exact Hin].
        intros [Hc Hx']. apply elem_of_cons in Hc as [->|Hc]; tauto.
Qed.

Lemma RemoveCommand_spec (h : Heap) (c : ptr) (cmds : list ptr) :
  (∀ x, commands (RemoveCommand h c cmds x) =
        if bool_decide (x = c) then filter (λ y, y ∉ cmds) (commands (h c))
        else commands (h x)) ∧
  (∀ x, parent (RemoveCommand h c cmds x) =
        if bool_decide (x ∈ commands (h c) ∧ x ∈ cmds) then None
        else parent (h x)).
Proof.
  unfold RemoveCommand.
  destruct (RemoveCommand_loop_spec cmds (commands (h c)) h [])
    as (h1 & -> & Hcmds & Hpar).
  simpl. split; intros x.
  - case_bool_decide as Hx.
    + subst x. rewrite fn_lookup_insert. reflexivity.
    + rewrite fn_lookup_insert_ne by congruence. apply Hcmds.
  - rewrite <- Hpar. destruct (decide (c = x)) as [->|Hx].
    + rewrite fn_lookup_insert. reflexivity.
    + rewrite fn_lookup_insert_ne by exact Hx. reflexivity.
Qed.

(** [AddCommand] of detached nodes keeps single-parent ownership. *)
Lemma AddCommand_single_parent (h : Heap) (c : ptr) (cmds : list ptr) :
  single_parent h → detached_op h (OpAdd c cmds) →
  (AddCommand h c cmds).2 = Val () ∧ single_parent (AddCommand h c cmds).1.
Proof.
  intros (HA & HB & HC) (Hc & Hnd & Hdet).
  destruct (AddCommand_returns cmds h c Hc) as (h' & -> & Hcmds & Hpar).
  simpl. split; [reflexivity|].
  assert (Hfresh : ∀ p x, x ∈ commands (h p) → x ∉ cmds).
  { intros p x Hin Hx. apply HA in Hin. rewrite Hdet in Hin by exact Hx.
    discriminate. }
  split; [|split].
  - intros p x. rewrite Hcmds, Hpar. case_bool_decide as Hp.
    + subst p. intros Hin. apply elem_of_app in Hin as [Hin|Hin].
      * rewrite bool_decide_eq_false_2 by eauto. apply HA, Hin.
      * rewrite bool_decide_eq_true_2 by exact Hin. reflexivity.
    + intros Hin. rewrite bool_decide_eq_false_2 by eauto. apply HA, Hin.
  - intros p. rewrite Hcmds. case_bool_decide; [|apply HB].
    apply NoDup_app. split; [apply HB|]. split; [|exact Hnd].
    intros x Hin. eapply Hfresh, Hin.
  - intros p x. rewrite Hcmds, Hpar. case_bool_decide as Hx.
    + intros [= <-]. rewrite bool_decide_eq_true_2 by reflexivity.
      apply elem_of_app. right. exact Hx.
    + intros Hp. apply HC in Hp.
      case_bool_decide; [subst; apply elem_of_app; left|]; exact Hp.
Qed.

(** [RemoveCommand] keeps single-parent ownership. *)
Lemma RemoveCommand_single_parent (h : Heap) (c : ptr) (cmds : list ptr) :
  single_parent h → single_parent (RemoveCommand h c cmds).
Proof.
  intros (HA & HB & HC).
  destruct (RemoveCommand_spec h c cmds) as [Hcmds Hpar].
  split; [|split].
  - intros p x. rewrite Hcmds, Hpar. case_bool_decide as Hp.
    + subst p. intros Hin. apply list_elem_of_filter in Hin as [Hn Hin].
      rewrite bool_decide_eq_false_2 by tauto. apply HA, Hin.
    + intros Hin. rewrite bool_decide_eq_false_2; [apply HA, Hin|].
      intros [Hin' _]. apply HA in Hin, Hin'. congruence.
  - intros p. rewrite Hcmds. case_bool_decide; [|apply HB].
    apply NoDup_filter, HB.
  - intros p x. rewrite Hcmds, Hpar.
    case_bool_decide as Hx; [discriminate|].
    intros Hp. pose proof (HC _ _ Hp) as Hin.
    case_bool_decide as Hpc; [|exact Hin]. subst p.
    apply list_elem_of_filter. split; [|exact Hin]. tauto.
Qed.

Lemma run_ops_single_parent (ops : list TreeOp) :
  ∀ h, single_parent h → detached_ops h ops →
  (run_ops h ops).2 = Val () ∧ single_parent (run_ops h ops).1.
Proof.
  induction ops as [|op rest IH]; intros h Hsp Hdet; [split; [reflexivity | exact Hsp]|].
  destruct Hdet as [Hop Hrest]. simpl.
  destruct op as [c cmds|c cmds]; simpl in *.
  - destruct (AddCommand_single_parent h c cmds Hsp Hop) as [Hval Hsp'].
    destruct (AddCommand h c cmds) as [h1 r]. simpl in *. subst r.
    apply IH; assumption.
  - apply IH; [apply RemoveCommand_single_parent, Hsp | exact Hrest].
Qed.

Lemma single_parent_emptyHeap : single_parent emptyHeap.
Proof.
  split; [|split].
  - intros p x H. inversion H.
  - intros p. apply NoDup_nil_2.
  - intros p x H. discriminate.
Qed.

(** C9, as stated, fails: [AddCommand] does not detach a node from the
    parent it already has.  After [a.AddCommand(x)] and [b.AddCommand(x)]
    on fresh nodes [a] (1), [b] (2) and [x] (3), [x] is listed as a child
    of both. *)
Lemma single_parent_counterexample :
  single_parent emptyHeap ∧
  (run_ops emptyHeap [OpAdd 1 [3]; OpAdd 2 [3]]).2 = Val () ∧
  3 ∈ commands ((run_ops emptyHeap [OpAdd 1 [3]; OpAdd 2 [3]]).1 1) ∧
  3 ∈ commands ((run_ops emptyHeap [OpAdd 1 [3]; OpAdd 2 [3]]).1 2) ∧
  parent ((run_ops emptyHeap [OpAdd 1 [3]; OpAdd 2 [3]]).1 3) = Some 2 ∧
  ¬ single_parent (run_ops emptyHeap [OpAdd 1 [3]; OpAdd 2 [3]]).1.
Proof.
  split; [exact single_parent_emptyHeap|]. split; [reflexivity|].
  split; [vm_compute; left|]. split; [vm_compute; left|].
  split; [reflexivity|].
  intros (HA & _ & _). specialize (HA 1 3).
  vm_compute in HA. assert (H : Some 2 = Some 1) by (apply HA; left).
  discriminate.
Qed.

(** C9, amended. [AddCommand] (of nodes other than the receiver) appends
    the nodes to the receiver's child list and sets their parent
    back-reference to the receiver; [RemoveCommand] removes from the
    receiver's child list the children that are among its arguments,
    compared by identity, and clears their parent back-reference.  Every
    sequence of such operations in which [AddCommand] is only given
    distinct nodes that have no parent at that time keeps single-parent
    ownership: a node is in at most one child list, at most once, and its
    parent back-reference points to the node that lists it. *)
Theorem tree_ops_ownership :
  (∀ (h : Heap) c cmds, c ∉ cmds →
     ∃ h', AddCommand h c cmds = (h', Val ()) ∧
           commands (h' c) = commands (h c) ++ cmds ∧
           ∀ x, x ∈ cmds → parent (h' x) = Some c) ∧
  (∀ (h : Heap) c cmds,
     commands (RemoveCommand h c cmds c)
       = filter (λ x, x ∉ cmds) (commands (h c)) ∧
     ∀ x, x ∈ commands (h c) → x ∈ cmds →
          parent (RemoveCommand h c cmds x) = None) ∧
  (∀ (h : Heap) ops, single_parent h → detached_ops h ops →
     (run_ops h ops).2 = Val () ∧ single_parent (run_ops h ops).1).
Proof.
  split; [|split].
  - intros h c cmds Hc.
    destruct (AddCommand_returns cmds h c Hc) as (h' & Hrun & Hcmds & Hpar).
    exists h'. split; [exact Hrun|]. split.
    + rewrite Hcmds, bool_decide_eq_true_2 by reflexivity. reflexivity.
    + intros x Hx. rewrite Hpar, bool_decide_eq_true_2 by exact Hx.
      reflexivity.
  - intros h c cmds. destruct (RemoveCommand_spec h c cmds) as [Hcmds Hpar].
    split.
    + rewrite Hcmds, bool_decide_eq_true_2 by reflexivity. reflexivity.
    + intros x Hx Hin. rewrite Hpar, bool_decide_eq_true_2 by tauto.
      reflexivity.
  - intros h ops. apply run_ops_single_parent.
Qed.

(** [root.AddCommand(a, b)], [root.RemoveCommand(a)], [b.AddCommand(a)] on
    fresh nodes [root] (0), [a] (1), [b] (2). *)
Lemma tree_ops_ownership_witness :
  (run_ops emptyHeap [OpAdd 0 [1; 2]; OpRemove 0 [1]; OpAdd 2 [1]]).2 = Val () ∧
  single_parent
    (run_ops emptyHeap [OpAdd 0 [1; 2]; OpRemove 0 [1]; OpAdd 2 [1]]).1.
Proof.
  destruct tree_ops_ownership as (_ & _ & Hinv).
  apply Hinv; [exact single_parent_emptyHeap|].
  simpl. split; [|split; [exact I|split; [|exact I]]].
  - split; [compute_done|]. split; [compute_done|].
    intros x H. reflexivity.
  - split; [compute_done|]. split; [compute_done|].
    intros x H. apply list_elem_of_singleton in H. subst x. reflexivity.
Defined.

(** ** Flag composition *)

Lemma Lookup_cons (f : Flag) (fs : FlagSet) (n : string) :
  Lookup (f :: fs) n = if decide (FlagName f = n) then Some f else Lookup fs n.
Proof.
  unfold Lookup. simpl. destruct (decide (FlagName f = n)); [reflexivity|].
  destruct (list_find _ fs) as [[i g]|]; reflexivity.
Qed.

Lemma Lookup_app (fs l : FlagSet) (n : string) :
  Lookup (fs ++ l) n =
  match Lookup fs n with Some f => Some f | None => Lookup l n end.
Proof.
  induction fs as [|f fs IH]; [reflexivity|].
  rewrite <- app_comm_cons, !Lookup_cons.
  destruct (decide (FlagName f = n)); [reflexivity | exact IH].
Qed.

Lemma Lookup_Some (fs : FlagSet) (n : string) (f : Flag) :
  Lookup fs n = Some f → f ∈ fs ∧ FlagName f = n.
Proof.
  induction fs as [|g fs IH]; [discriminate|].
  rewrite Lookup_cons. destruct (decide (FlagName g = n)) as [Hg|Hg].
  - intros [= <-]. split; [left | exact Hg].
  - intros H. destruct (IH H). split; [right|]; assumption.
Qed.

Lemma Lookup_is_Some (fs : FlagSet) (n : string) (f : Flag) :
  f ∈ fs → FlagName f = n → is_Some (Lookup fs n).
Proof.
  induction fs as [|g fs IH]; intros Hin Hn; [inversion Hin|].
  rewrite Lookup_cons. destruct (decide (FlagName g = n)); [eauto|].
  apply elem_of_cons in Hin as [->|Hin]; [contradiction|]. apply IH; assumption.
Qed.

Lemma VisitAll_elem_of (fs : FlagSet) (f : Flag) : f ∈ VisitAll fs ↔ f ∈ fs.
Proof. unfold VisitAll. rewrite merge_sort_Permutation. reflexivity. Qed.

Lemma AddFlag_Some (fs fs' : FlagSet) (f : Flag) :
  AddFlag fs f = Some fs' → fs' = fs ++ [f].
Proof.
  unfold AddFlag. intros H.
  repeat (case_match; try discriminate); congruence.
Qed.

Lemma set_flags_flags (c : Command) : set_flags (flags c) c = c.
Proof. destruct c; reflexivity. Qed.

Lemma flags_extend_refl (h : Heap) : flags_extend h h.
Proof.
  intros x. exists []. rewrite app_nil_r, set_flags_flags. reflexivity.
Qed.

Lemma flags_extend_trans (h1 h2 h3 : Heap) :
  flags_extend h1 h2 → flags_extend h2 h3 → flags_extend h1 h3.
Proof.
  intros H12 H23 x. destruct (H12 x) as [l1 E1], (H23 x) as [l2 E2].
  exists (l1 ++ l2). rewrite E2, E1. simpl. rewrite app_assoc. reflexivity.
Qed.

Lemma flags_extend_Lookup (h h' : Heap) (x : ptr) (n : string) (f : Flag) :
  flags_extend h h' →
  Lookup (flags (h x)) n = Some f → Lookup (flags (h' x)) n = Some f.
Proof.
  intros He Hl. destruct (He x) as [l ->]. simpl.
  rewrite Lookup_app, Hl. reflexivity.
Qed.

Lemma depth_is_unique (h : Heap) (k : nat) :
  ∀ k' c, depth_is k h c → depth_is k' h c → k = k'.
Proof.
  induction k as [|k IH]; intros [|k'] c; simpl.
  - reflexivity.
  - intros H (p & Hp & _). congruence.
  - intros (p & Hp & _) H. congruence.
  - intros (p & Hp & Hd) (p' & Hp' & Hd'). f_equal.
    apply (IH k' p); [exact Hd|]. congruence.
Qed.

Lemma depth_is_extend (h h' : Heap) (k : nat) :
  flags_extend h h' → ∀ c, depth_is k h c ↔ depth_is k h' c.
Proof.
  intros He. induction k as [|k IH]; intros c; simpl.
  - destruct (He c) as [l ->]. reflexivity.
  - destruct (He c) as [l ->]. simpl. split.
    + intros (p & Hp & Hd). exists p. split; [exact Hp|]. apply IH, Hd.
    + intros (p & Hp & Hd). exists p. split; [exact Hp|]. apply IH, Hd.
Qed.

Section FlagComposition.
Context {W : Type}.

Implicit Types (st : @State W).

Lemma bind_Val {A B} (m : @M W A) (k : A → @M W B) st st' t (b : B) :
  bind m k st = (st', t, Val b) →
  ∃ s1 t1 a t2, m st = (s1, t1, Val a) ∧ k a s1 = (st', t2, Val b) ∧
                t = t1 ++ t2.
Proof.
  unfold bind. destruct (m st) as [[s1 t1] [a|msg|]]; try discriminate.
  destruct (k a s1) as [[s2 t2] r] eqn:Hk. intros [= <- <- ->].
  exists s1, t1, a, t2. auto.
Qed.

Lemma silent_bind {A B} (m : @M W A) (k : A → @M W B) :
  silent W m → (∀ a, silent W (k a)) → silent W (bind m k).
Proof.
  intros Hm Hk st. unfold bind. specialize (Hm st).
  destruct (m st) as [[s1 t1] [a|msg|]]; simpl in *; try exact Hm.
  specialize (Hk a s1). destruct (k a s1) as [[s2 t2] r]. simpl in *.
  destruct Hm as [-> <-], Hk as [-> <-]. auto.
Qed.

Lemma silent_merge_flag (c : ptr) (f : Flag) : silent W (merge_flag c f).
Proof.
  apply silent_bind; [intros st; auto|]. intros h.
  destruct (Lookup _ _); [intros st; auto|].
  destruct (AddFlag _ _); intros st; auto.
Qed.

Lemma silent_visit (c : ptr) (l : list Flag) : silent W (visit l (merge_flag c)).
Proof.
  induction l as [|f l IH]; [intros st; auto|].
  apply silent_bind; [apply silent_merge_flag | intros _; exact IH].
Qed.

Lemma silent_mergePersistentFlags (fuel : nat) :
  ∀ c, silent W (mergePersistentFlags fuel c).
Proof.
  induction fuel as [|fuel IH]; intros c; [intros st; auto|].
  simpl. apply silent_bind; [intros st; auto|]. intros h.
  apply silent_bind.
  - destruct (parent (h c)) as [p|]; [|intros st; auto].
    apply silent_bind; [apply IH|]. intros _.
    apply silent_bind; [intros st; auto|]. intros h1. apply silent_visit.
  - intros _. apply silent_bind; [intros st; auto|]. intros h2.
    apply silent_bind; [apply silent_visit|]. intros _.
    apply silent_bind; [intros st; auto|]. intros h3. apply silent_visit.
Qed.

(** One visited flag: the flag is appended to the effective set of [c]
    unless its name is already there. *)
Lemma merge_flag_Val (c : ptr) (f : Flag) st st' t :
  merge_flag c f st = (st', t, Val ()) →
  (∀ x, x ≠ c → heap st' x = heap st x) ∧
  (∃ added, heap st' c = set_flags (flags (heap st c) ++ added) (heap st c)) ∧
  (∀ n, Lookup (flags (heap st' c)) n =
        match Lookup (flags (heap st c)) n with
        | Some g => Some g
        | None => if decide (FlagName f = n) then Some f else None
        end).
Proof.
  unfold merge_flag, bind, get_heap.
  destruct (Lookup (flags (heap st c)) (FlagName f)) as [g|] eqn:Hl.
  - intros [= <- <-]. split; [reflexivity|]. split.
    + exists []. rewrite app_nil_r, set_flags_flags. reflexivity.
    + intros n. destruct (Lookup (flags (heap st c)) n) eqn:Hn; [reflexivity|].
      destruct (decide (FlagName f = n)); [congruence | reflexivity].
  - destruct (AddFlag (flags (heap st c)) f) as [fs|] eqn:Ha; [|discriminate].
    apply AddFlag_Some in Ha. subst fs. intros [= <- <-]. simpl.
    split; [intros x Hx; rewrite fn_lookup_insert_ne by congruence; reflexivity|].
    rewrite fn_lookup_insert. split; [eauto|].
    intros n. simpl. rewrite Lookup_app, Lookup_cons. reflexivity.
Qed.

(** A whole visit: the names already in the effective set of [c] keep
    their flag, the others get the first visited flag of that name. *)
Lemma visit_Val (c : ptr) (l : list Flag) :
  ∀ st st' t, visit l (merge_flag c) st = (st', t, Val ()) →
  (∀ x, x ≠ c → heap st' x = heap st x) ∧
  (∃ added, heap st' c = set_flags (flags (heap st c) ++ added) (heap st c)) ∧
  (∀ n, Lookup (flags (heap st' c)) n =
        match Lookup (flags (heap st c)) n with
        | Some g => Some g
        | None => Lookup l n
        end).
Proof.
  induction l as [|f l IH]; intros st st' t; simpl.
  - intros [= <- <-]. split; [reflexivity|]. split.
    + exists []. rewrite app_nil_r, set_flags_flags. reflexivity.
    + intros n. destruct (Lookup _ n); reflexivity.
  - intros H. apply bind_Val in H as (s1 & t1 & [] & t2 & H1 & H2 & ->).
    apply merge_flag_Val in H1 as (Ho1 & [a1 Ha1] & Hl1).
    apply IH in H2 as (Ho2 & [a2 Ha2] & Hl2).
    split; [intros x Hx; rewrite Ho2, Ho1 by exact Hx; reflexivity|]. split.
    + exists (a1 ++ a2). rewrite Ha2, Ha1. simpl. rewrite app_assoc.
      reflexivity.
    + intros n. rewrite Hl2, Hl1, Lookup_cons.
      destruct (Lookup (flags (heap st c)) n); [reflexivity|].
      destruct (decide (FlagName f = n)); reflexivity.
Qed.

Lemma visit_extend (c : ptr) (l : list Flag) st st' t :
  visit l (merge_flag c) st = (st', t, Val ()) →
  flags_extend (heap st) (heap st').
Proof.
  intros H. apply visit_Val in H as (Ho & Hc & _). intros x.
  destruct (decide (x = c)) as [->|Hx]; [exact Hc|].
  rewrite Ho by exact Hx. apply flags_extend_refl.
Qed.

(** A merge that returns has gone up to a root; it has only appended
    flags, and only on nodes no deeper than [c]. *)
Lemma mergePersistentFlags_Val (fuel : nat) :
  ∀ c st st' t, mergePersistentFlags fuel c st = (st', t, Val ()) →
  flags_extend (heap st) (heap st') ∧
  ∃ k, k < fuel ∧ depth_is k (heap st) c ∧
       ∀ x, (∀ j, j ≤ k → ¬ depth_is j (heap st) x) → heap st' x = heap st x.
Proof.
  induction fuel as [|fuel IH]; intros c st st' t; [discriminate|].
  simpl. intros H.
  apply bind_Val in H as (s0 & t0 & h & t0' & Hget & H & ->).
  injection Hget as <- <- <-.
  apply bind_Val in H as (s1 & t1 & [] & t1' & Hup & H & ->).
  apply bind_Val in H as (s2 & t2 & h2 & t2' & Hget & H & ->).
  injection Hget as <- <- <-.
  apply bind_Val in H as (s3 & t3 & [] & t3' & Hown & H & ->).
  apply bind_Val in H as (s4 & t4 & h3 & t4' & Hget & Hloc & ->).
  injection Hget as <- <- <-.
  pose proof (visit_extend _ _ _ _ _ Hown) as Eown.
  pose proof (visit_extend _ _ _ _ _ Hloc) as Eloc.
  apply visit_Val in Hown as (Oown & _ & _).
  apply visit_Val in Hloc as (Oloc & _ & _).
  destruct (parent (heap st c)) as [p|] eqn:Hp.
  - apply bind_Val in Hup as (s5 & t5 & [] & t5' & Hrec & H & ->).
    apply bind_Val in H as (s6 & t6 & h1 & t6' & Hget & Hpar & ->).
    injection Hget as <- <- <-.
    apply IH in Hrec as (Erec & k & Hk & Hd & Hrec).
    pose proof (visit_extend _ _ _ _ _ Hpar) as Epar.
    apply visit_Val in Hpar as (Opar & _ & _).
    split.
    { eauto using flags_extend_trans. }
    exists (S k). split; [lia|]. split; [simpl; eauto|].
    intros x Hx.
    assert (Hne : x ≠ c).
    { intros ->. apply (Hx (S k)); [lia | simpl; eauto]. }
    rewrite Oloc, Oown, Opar by exact Hne. apply Hrec.
    intros j Hj. apply Hx. lia.
  - injection Hup as <- <-.
    split; [eauto using flags_extend_trans|].
    exists 0. split; [lia|]. split; [exact Hp|].
    intros x Hx.
    assert (Hne : x ≠ c).
    { intros ->. apply (Hx 0); [lia | exact Hp]. }
    rewrite Oloc, Oown by exact Hne. reflexivity.
Qed.

(** The steps of a merge on a node that has a parent. *)
Lemma mergePersistentFlags_steps (fuel : nat) (c p : ptr) st st' t :
  parent (heap st c) = Some p →
  mergePersistentFlags (S fuel) c st = (st', t, Val ()) →
  ∃ s1 s2 s3 t1 t2 t3 t4,
    mergePersistentFlags fuel p st = (s1, t1, Val ()) ∧
    visit (VisitAll (pflags (heap s1 p))) (merge_flag c) s1 = (s2, t2, Val ()) ∧
    visit (VisitAll (pflags (heap s2 c))) (merge_flag c) s2 = (s3, t3, Val ()) ∧
    visit (VisitAll (lflags (heap s3 c))) (merge_flag c) s3 = (st', t4, Val ()).
Proof.
  intros Hp H. simpl in H.
  apply bind_Val in H as (s0 & t0 & h & t0' & Hget & H & ->).
  injection Hget as <- <- <-. rewrite Hp in H.
  apply bind_Val in H as (s2 & t2 & [] & t2' & Hup & H & ->).
  apply bind_Val in Hup as (s1 & t1 & [] & t1' & Hrec & Hup & ->).
  apply bind_Val in Hup as (s1' & u1 & h1 & u1' & Hget & Hpar & ->).
  injection Hget as <- <- <-.
  apply bind_Val in H as (s2' & t3 & h2 & t3' & Hget & H & ->).
  injection Hget as <- <- <-.
  apply bind_Val in H as (s3 & t4 & [] & t4' & Hown & H & ->).
  apply bind_Val in H as (s3' & t5 & h3 & t5' & Hget & Hloc & ->).
  injection Hget as <- <- <-.
  eauto 12.
Qed.

(** The steps of a merge on a root. *)
Lemma mergePersistentFlags_root_steps (fuel : nat) (c : ptr) st st' t :
  parent (heap st c) = None →
  mergePersistentFlags (S fuel) c st = (st', t, Val ()) →
  ∃ s3 t3 t4,
    visit (VisitAll (pflags (heap st c))) (merge_flag c) st = (s3, t3, Val ()) ∧
    visit (VisitAll (lflags (heap s3 c))) (merge_flag c) s3 = (st', t4, Val ()).
Proof.
  intros Hp H. simpl in H.
  apply bind_Val in H as (s0 & t0 & h & t0' & Hget & H & ->).
  injection Hget as <- <- <-. rewrite Hp in H.
  apply bind_Val in H as (s2 & t2 & [] & t2' & Hup & H & ->).
  injection Hup as <- <-.
  apply bind_Val in H as (s2' & t3 & h2 & t3' & Hget & H & ->).
  injection Hget as <- <- <-.
  apply bind_Val in H as (s3 & t4 & [] & t4' & Hown & H & ->).
  apply bind_Val in H as (s3' & t5 & h3 & t5' & Hget & Hloc & ->).
  injection Hget as <- <- <-.
  eauto 6.
Qed.

Lemma extend_pflags (h h' : Heap) (x : ptr) :
  flags_extend h h' → pflags (h' x) = pflags (h x) ∧ lflags (h' x) = lflags (h x).
Proof. intros He. destruct (He x) as [l ->]. auto. Qed.

(** The precedence of a merge that returns: the flag a name already has
    in the effective set, else the parent's persistent flag, else the
    node's own persistent flag, else its local flag. *)
Lemma mergePersistentFlags_precedence (fuel : nat) (c : ptr) st st' t
    (n : string) :
  mergePersistentFlags fuel c st = (st', t, Val ()) →
  Lookup (flags (heap st' c)) n =
    match Lookup (flags (heap st c)) n with
    | Some f => Some f
    | None =>
        match
          match parent (heap st c) with
          | Some p => Lookup (VisitAll (pflags (heap st p))) n
          | None => None
          end
        with
        | Some f => Some f
        | None =>
            match Lookup (VisitAll (pflags (heap st c))) n with
            | Some f => Some f
            | None => Lookup (VisitAll (lflags (heap st c))) n
            end
        end
    end.
Proof.
  intros H. destruct fuel as [|fuel]; [discriminate|].
  destruct (parent (heap st c)) as [p|] eqn:Hp.
  - destruct (mergePersistentFlags_steps _ _ _ _ _ _ Hp H)
      as (s1 & s2 & s3 & t1 & t2 & t3 & t4 & Hrec & Hpar & Hown & Hloc).
    apply mergePersistentFlags_Val in Hrec as (Erec & k & _ & Hd & Hrec).
    assert (Hc : heap s1 c = heap st c).
    { apply Hrec. intros j Hj Hdj.
      assert (S k = j); [|lia].
      apply (depth_is_unique (heap st) (S k) j c); [simpl; eauto | exact Hdj]. }
    pose proof (visit_extend _ _ _ _ _ Hpar) as Epar.
    pose proof (visit_extend _ _ _ _ _ Hown) as Eown.
    destruct (extend_pflags _ _ p Erec) as [Hpp _].
    destruct (extend_pflags _ _ c (flags_extend_trans _ _ _ Erec Epar))
      as [Hcp _].
    destruct (extend_pflags _ _ c
                (flags_extend_trans _ _ _
                   (flags_extend_trans _ _ _ Erec Epar) Eown))
      as [_ Hcl].
    apply visit_Val in Hpar as (_ & _ & Hl1).
    apply visit_Val in Hown as (_ & _ & Hl2).
    apply visit_Val in Hloc as (_ & _ & Hl3).
    rewrite Hl3, Hl2, Hl1, Hc, Hpp, Hcp, Hcl.
    destruct (Lookup (flags (heap st c)) n); [reflexivity|].
    destruct (Lookup (VisitAll (pflags (heap st p))) n); [reflexivity|].
    destruct (Lookup (VisitAll (pflags (heap st c))) n); reflexivity.
  - destruct (mergePersistentFlags_root_steps _ _ _ _ _ Hp H)
      as (s3 & t3 & t4 & Hown & Hloc).
    pose proof (visit_extend _ _ _ _ _ Hown) as Eown.
    destruct (extend_pflags _ _ c Eown) as [_ Hcl].
    apply visit_Val in Hown as (_ & _ & Hl2).
    apply visit_Val in Hloc as (_ & _ & Hl3).
    rewrite Hl3, Hl2, Hcl.
    destruct (Lookup (flags (heap st c)) n); [reflexivity|].
    destruct (Lookup (VisitAll (pflags (heap st c))) n); reflexivity.
Qed.

(** *** The merge returns *)

Lemma bind_quiet {A B} (m : @M W A) (k : A → @M W B) st s1 (a : A) :
  m st = (s1, [], Val a) → bind m k st = k a s1.
Proof.
  intros H. unfold bind. rewrite H. destruct (k a s1) as [[s2 t2] r].
  reflexivity.
Qed.

Lemma shorthands_agree_subset (l l' : list Flag) :
  (∀ f, f ∈ l' → f ∈ l) → shorthands_agree l → shorthands_agree l'.
Proof.
  unfold shorthands_agree. intros Hsub H.
  apply Forall_forall. intros f Hf.
  destruct (proj1 (Forall_forall _ _) H f (Hsub f Hf)) as [Hlen Hall].
  split; [exact Hlen|]. apply Forall_forall. intros g Hg.
  exact (proj1 (Forall_forall _ _) Hall g (Hsub g Hg)).
Qed.

Lemma ShorthandLookup_Some (fs : FlagSet) (s : string) (g : Flag) :
  ShorthandLookup fs s = Some g → g ∈ fs ∧ Shorthand g = s.
Proof.
  unfold ShorthandLookup.
  destruct (list_find (λ f, Shorthand f = s) fs) as [[i g']|] eqn:E;
    [|discriminate].
  simpl. intros [= <-]. apply list_find_Some in E as (Hi & Hs & _).
  split; [eapply list_elem_of_lookup_2; exact Hi | exact Hs].
Qed.

(** Registering a flag of a new name in a set that agrees with it on the
    shorthands is accepted by the flag library. *)
Lemma AddFlag_compatible (fs more : FlagSet) (f : Flag) :
  shorthands_agree (fs ++ more) → f ∈ more →
  Lookup fs (FlagName f) = None →
  AddFlag fs f = Some (fs ++ [f]).
Proof.
  intros Hagree Hf Hnew. unfold AddFlag. rewrite Hnew.
  assert (Hin : f ∈ fs ++ more) by (apply elem_of_app; right; exact Hf).
  destruct (proj1 (Forall_forall _ _) Hagree f Hin) as [Hlen Hall].
  case_bool_decide as Hempty; [reflexivity|].
  rewrite bool_decide_eq_false_2 by lia.
  destruct (ShorthandLookup fs (Shorthand f)) as [g|] eqn:Hs; [|reflexivity].
  exfalso. apply ShorthandLookup_Some in Hs as [Hg Hsg].
  assert (Hg' : g ∈ fs ++ more) by (apply elem_of_app; left; exact Hg).
  destruct (proj1 (Forall_forall _ _) Hall g Hg' (eq_sym Hsg)) as [?|Hname];
    [contradiction|].
  destruct (Lookup_is_Some fs (FlagName f) g Hg (eq_sym Hname)) as [g0 Hg0].
  congruence.
Qed.

Lemma scopes_extend_flags_extend (h h' : Heap) :
  scopes_extend h h' → flags_extend h h'.
Proof. intros He x. destruct (He x) as (l & Hl & _). eauto. Qed.

Lemma declared_extend (h h' : Heap) (x : ptr) :
  flags_extend h h' → declared h' x = declared h x.
Proof.
  intros He. unfold declared.
  destruct (extend_pflags h h' x He) as [-> ->].
  destruct (He x) as [l ->]. simpl.
  destruct (parent (h x)) as [p|]; [|reflexivity].
  destruct (extend_pflags h h' p He) as [-> _]. reflexivity.
Qed.

Lemma scopes_extend_refl (h : Heap) : scopes_extend h h.
Proof.
  intros x. exists []. rewrite app_nil_r, set_flags_flags.
  split; [reflexivity|]. intros f Hf. inversion Hf.
Qed.

Lemma scopes_extend_trans (h1 h2 h3 : Heap) :
  scopes_extend h1 h2 → scopes_extend h2 h3 → scopes_extend h1 h3.
Proof.
  intros H12 H23 x.
  pose proof (declared_extend h1 h2 x (scopes_extend_flags_extend _ _ H12))
    as Hd.
  destruct (H12 x) as (l1 & E1 & D1), (H23 x) as (l2 & E2 & D2).
  exists (l1 ++ l2). split.
  - rewrite E2, E1. simpl. rewrite app_assoc. reflexivity.
  - intros f Hf. apply elem_of_app in Hf as [Hf|Hf]; [auto|].
    rewrite <- Hd. auto.
Qed.

Lemma compatible_extend (h h' : Heap) (x : ptr) :
  scopes_extend h h' → compatible h x → compatible h' x.
Proof.
  intros He. unfold compatible.
  rewrite (declared_extend h h' x (scopes_extend_flags_extend _ _ He)).
  destruct (He x) as (l & -> & Hl). simpl.
  apply shorthands_agree_subset. intros f Hf.
  apply elem_of_app in Hf as [Hf|Hf]; [|apply elem_of_app; right; exact Hf].
  apply elem_of_app in Hf as [Hf|Hf]; apply elem_of_app; auto.
Qed.

Lemma merge_flag_returns (c : ptr) (f : Flag) st :
  compatible (heap st) c → f ∈ declared (heap st) c →
  ∃ st', merge_flag c f st = (st', [], Val ()) ∧
         scopes_extend (heap st) (heap st').
Proof.
  intros Hc Hf. unfold merge_flag.
  rewrite (bind_quiet get_heap _ st st (heap st)) by reflexivity.
  destruct (Lookup (flags (heap st c)) (FlagName f)) as [g|] eqn:Hl.
  - exists st. split; [reflexivity | apply scopes_extend_refl].
  - rewrite (AddFlag_compatible _ (declared (heap st) c) f Hc Hf Hl).
    eexists. split; [reflexivity|]. simpl. intros x.
    destruct (decide (c = x)) as [<-|Hx].
    + rewrite fn_lookup_insert. exists [f]. split; [reflexivity|].
      intros g Hg. apply list_elem_of_singleton in Hg. subst g. exact Hf.
    + rewrite fn_lookup_insert_ne by exact Hx. exists [].
      rewrite app_nil_r, set_flags_flags. split; [reflexivity|].
      intros g Hg. inversion Hg.
Qed.

Lemma visit_returns (c : ptr) (l : list Flag) :
  ∀ st, compatible (heap st) c →
        (∀ f, f ∈ l → f ∈ declared (heap st) c) →
  ∃ st', visit l (merge_flag c) st = (st', [], Val ()) ∧
         scopes_extend (heap st) (heap st').
Proof.
  induction l as [|f l IH]; intros st Hc Hl.
  - exists st. split; [reflexivity | apply scopes_extend_refl].
  - destruct (merge_flag_returns c f st Hc) as (s1 & H1 & E1);
      [apply Hl; left|].
    destruct (IH s1) as (s2 & H2 & E2).
    + eapply compatible_extend; eassumption.
    + intros g Hg.
      rewrite (declared_extend _ _ c (scopes_extend_flags_extend _ _ E1)).
      apply Hl. right. exact Hg.
    + exists s2. cbn [visit]. rewrite (bind_quiet _ _ _ _ _ H1).
      split; [exact H2 | eapply scopes_extend_trans; eassumption].
Qed.

(** On a chain that ends at a root within the fuel and whose nodes are
    compatible, the merge returns. *)
Lemma mergePersistentFlags_returns (fuel : nat) :
  ∀ k c st, depth_is k (heap st) c → k < fuel →
  (∀ j x, reaches j (heap st) c x → compatible (heap st) x) →
  ∃ st', mergePersistentFlags fuel c st = (st', [], Val ()) ∧
         scopes_extend (heap st) (heap st').
Proof.
  induction fuel as [|fuel IH]; intros k c st Hd Hlt Hall; [lia|].
  pose proof (Hall 0 c eq_refl) as Hc.
  assert (Hup : ∃ s1,
            match parent (heap st c) with
            | Some p =>
                bind (mergePersistentFlags fuel p)
                  (λ _, bind get_heap
                          (λ h1, visit (VisitAll (pflags (h1 p)))
                                   (merge_flag c)))
            | None => ret ()
            end st = (s1, [], Val ()) ∧
            scopes_extend (heap st) (heap s1)).
  { destruct k as [|k]; simpl in Hd.
    - rewrite Hd. exists st. split; [reflexivity | apply scopes_extend_refl].
    - destruct Hd as (p & Hp & Hd). rewrite Hp.
      destruct (IH k p st Hd) as (s0 & H0 & E0); [lia | |].
      { intros j x Hr. apply (Hall (S j)). exists p. auto. }
      pose proof (scopes_extend_flags_extend _ _ E0) as F0.
      destruct (visit_returns c (VisitAll (pflags (heap s0 p))) s0)
        as (s1 & H1 & E1).
      + eapply compatible_extend; eassumption.
      + intros f Hf. apply (proj1 (VisitAll_elem_of _ _)) in Hf.
        rewrite (declared_extend _ _ c F0). unfold declared. rewrite Hp.
        destruct (extend_pflags _ _ p F0) as [Hpp _]. rewrite Hpp in Hf.
        apply elem_of_app. right. apply elem_of_app. right. exact Hf.
      + exists s1. rewrite (bind_quiet _ _ _ _ _ H0).
        rewrite (bind_quiet get_heap _ s0 s0 (heap s0)) by reflexivity.
        split; [exact H1 | eapply scopes_extend_trans; eassumption]. }
  destruct Hup as (s1 & H1 & E1).
  pose proof (scopes_extend_flags_extend _ _ E1) as F1.
  destruct (visit_returns c (VisitAll (pflags (heap s1 c))) s1)
    as (s2 & H2 & E2).
  { eapply compatible_extend; eassumption. }
  { intros f Hf. apply (proj1 (VisitAll_elem_of _ _)) in Hf.
    unfold declared. apply elem_of_app. left. exact Hf. }
  pose proof (scopes_extend_flags_extend _ _ E2) as F2.
  destruct (visit_returns c (VisitAll (lflags (heap s2 c))) s2)
    as (s3 & H3 & E3).
  { eapply compatible_extend; [exact E2|].
    eapply compatible_extend; eassumption. }
  { intros f Hf. apply (proj1 (VisitAll_elem_of _ _)) in Hf.
    unfold declared. apply elem_of_app. right. apply elem_of_app. left.
    exact Hf. }
  exists s3. cbn [mergePersistentFlags].
  rewrite (bind_quiet get_heap _ st st (heap st)) by reflexivity.
  rewrite (bind_quiet _ _ _ _ _ H1).
  rewrite (bind_quiet get_heap _ s1 s1 (heap s1)) by reflexivity.
  rewrite (bind_quiet _ _ _ _ _ H2).
  rewrite (bind_quiet get_heap _ s2 s2 (heap s2)) by reflexivity.
  split; [exact H3|].
  eauto using scopes_extend_trans.
Qed.

(** C3, amended. Parent-first, first-registered-wins merging.  On a
    command tree (the parent chain of the node ends at a root) in which
    the flags that an effective set holds or receives agree on their
    shorthands (a clash of shorthands between flags of different names is
    a panic of the flag library), the merge returns, whichever names the
    scopes share, and logs nothing.  It never replaces the flag a name
    already has in an effective set, so a flag that a node registered
    directly in its effective set keeps shadowing a persistent flag of the
    same name of its parent; for the other names the lookup after the
    merge returns the persistent flag of the parent, else the node's own
    persistent flag, else its own local flag, in this order: the
    persistent flags of the parent are merged before the node's own, so
    for a name that is not yet in the effective set of the node and that
    the parent declares as a persistent flag, the lookup returns a
    descriptor of the parent, whatever the node declares in its own
    persistent and local scopes. *)
Theorem merge_first_registered_wins (fuel : nat) (c : ptr) st :
  rooted fuel (heap st) c →
  (∀ j x, reaches j (heap st) c x → compatible (heap st) x) →
  ∃ st',
    mergePersistentFlags fuel c st = (st', [], Val ()) ∧
    (∀ x n f, Lookup (flags (heap st x)) n = Some f →
              Lookup (flags (heap st' x)) n = Some f) ∧
    (∀ n, Lookup (flags (heap st' c)) n =
          match Lookup (flags (heap st c)) n with
          | Some f => Some f
          | None =>
              match
                match parent (heap st c) with
                | Some p => Lookup (VisitAll (pflags (heap st p))) n
                | None => None
                end
              with
              | Some f => Some f
              | None =>
                  match Lookup (VisitAll (pflags (heap st c))) n with
                  | Some f => Some f
                  | None => Lookup (VisitAll (lflags (heap st c))) n
                  end
              end
          end) ∧
    (∀ p n fp,
       parent (heap st c) = Some p →
       Lookup (flags (heap st c)) n = None →
       fp ∈ pflags (heap st p) → FlagName fp = n →
       ∃ f, Lookup (flags (heap st' c)) n = Some f ∧
            f ∈ pflags (heap st p) ∧ FlagName f = n).
Proof.
  intros (k & Hk & Hd) Hall.
  destruct (mergePersistentFlags_returns fuel k c st Hd Hk Hall)
    as (st' & H & _).
  exists st'. split; [exact H|]. split; [|split].
  - intros x n f. apply flags_extend_Lookup.
    apply mergePersistentFlags_Val in H as [He _]. exact He.
  - intros n. eapply mergePersistentFlags_precedence, H.
  - intros p n fp Hp Hnone Hin Hname.
    rewrite (mergePersistentFlags_precedence _ _ _ _ _ n H), Hnone, Hp.
    destruct (Lookup_is_Some (VisitAll (pflags (heap st p))) n fp) as [f Hf].
    { apply VisitAll_elem_of, Hin. }
    { exact Hname. }
    rewrite Hf. exists f. split; [reflexivity|].
    apply Lookup_Some in Hf as [Hf ?].
    apply (proj1 (VisitAll_elem_of _ _)) in Hf. auto.
Qed.

End FlagComposition.

(** C3, as stated, fails: the children [local] and [persistent] of
    [root] declare their own flag [verbose], one in its local and one in
    its persistent scope, and after the merge the lookup on each child
    returns the descriptor of [root], not the child's own. *)
Lemma closest_scope_counterexample :
  Lookup (lflags (tree_flags 1)) "verbose" = Some flag_local ∧
  Lookup (pflags (tree_flags 2)) "verbose" = Some flag_persistent ∧
  Lookup (pflags (tree_flags 0)) "verbose" = Some flag_root ∧
  (mergePersistentFlags 2 1 (mkState tree_flags ())).2 = Val () ∧
  Lookup (flags (heap (mergePersistentFlags 2 1 (mkState tree_flags ())).1.1 1))
    "verbose" = Some flag_root ∧
  (mergePersistentFlags 2 2 (mkState tree_flags ())).2 = Val () ∧
  Lookup (flags (heap (mergePersistentFlags 2 2 (mkState tree_flags ())).1.1 2))
    "verbose" = Some flag_root ∧
  flag_root ≠ flag_local ∧ flag_root ≠ flag_persistent.
Proof.
  repeat split; try (vm_compute; reflexivity); discriminate.
Qed.

(** On the same tree, where [root] declares [verbose] with the shorthand
    [v] and its children declare [verbose] again: the merge on [direct]
    returns, and the flag that [direct] registered in its effective set is
    kept; the merge on [local] returns, and [local] gets the descriptor of
    [root]. *)
Lemma merge_first_registered_wins_witness :
  (∃ st', mergePersistentFlags 2 3 (mkState tree_flags ()) = (st', [], Val ()) ∧
          Lookup (flags (heap st' 3)) "verbose" = Some flag_direct) ∧
  (∃ st', mergePersistentFlags 2 1 (mkState tree_flags ()) = (st', [], Val ()) ∧
          ∃ f, Lookup (flags (heap st' 1)) "verbose" = Some f ∧
               f ∈ pflags (tree_flags 0) ∧ FlagName f = "verbose").
Proof.
  assert (Hchain : ∀ c, c = 1 ∨ c = 3 →
            rooted 2 tree_flags c ∧
            ∀ j x, reaches j tree_flags c x → compatible tree_flags x).
  { intros c Hc. split.
    - exists 1. split; [lia|]. exists 0.
      destruct Hc as [-> | ->]; split; reflexivity.
    - intros [|[|j]] x Hr; simpl in Hr.
      + subst x. destruct Hc as [-> | ->]; compute_done.
      + destruct Hr as (p & Hp & <-).
        destruct Hc as [-> | ->]; injection Hp as <-; compute_done.
      + destruct Hr as (p & Hp & q & Hq & _).
        destruct Hc as [-> | ->]; injection Hp as <-; discriminate. }
  split.
  - destruct (Hchain 3) as [Hroot Hcompat]; [auto|].
    destruct (merge_first_registered_wins 2 3 (mkState tree_flags ())
                Hroot Hcompat)
      as (st' & Hrun & Hkept & _ & _).
    exists st'. split; [exact Hrun|]. apply Hkept. vm_compute. reflexivity.
  - destruct (Hchain 1) as [Hroot Hcompat]; [auto|].
    destruct (merge_first_registered_wins 2 1 (mkState tree_flags ())
                Hroot Hcompat)
      as (st' & Hrun & _ & _ & Hparent).
    exists st'. split; [exact Hrun|].
    apply (Hparent 0 "verbose" flag_root).
    + reflexivity.
    + vm_compute. reflexivity.
    + vm_compute. left.
    + reflexivity.
Defined.

(** The condition on the shorthands is needed: when a child declares a
    flag of another name under a shorthand of a persistent flag of its
    parent, the merge on the child ends in the panic of the flag library,
    on a tree all the same. *)
Lemma merge_shorthand_clash_panics :
  rooted 2 tree_clash 1 ∧ ¬ compatible tree_clash 1 ∧
  (mergePersistentFlags 2 1 (mkState tree_clash ())).2
    = Panic "flag redefined".
Proof.
  split; [exists 1; split; [lia|]; exists 0; split; reflexivity|].
  split; [compute_done | vm_compute; reflexivity].
Qed.

(** ** Execution *)

Section ExecutionProps.
Context {W : Type}.
Context (Parse : FlagSet → list string → W → W * ParseResult).
Context (call : Fn → ptr → list string → Heap → W → W).
Context (callE : Fn → ptr → list string → Heap → W → W * option error).

Implicit Types (st : @State W).

Lemma bind_get_heap {A} (k : Heap → @M W A) st :
  bind get_heap k st = k (heap st) st.
Proof.
  unfold bind, get_heap. destruct (k (heap st) st) as [[s t] r]. reflexivity.
Qed.

Lemma bind_ext {A B} (m : @M W A) (k k' : A → @M W B) st :
  (∀ a s, k a s = k' a s) → bind m k st = bind m k' st.
Proof.
  intros H. unfold bind. destruct (m st) as [[s1 t1] [a| |]]; try reflexivity.
  rewrite H. reflexivity.
Qed.

Lemma bind_Val_l {A B} (m : @M W A) (k : A → @M W B) st s1 t1 a :
  m st = (s1, t1, Val a) →
  bind m k st = ((k a s1).1.1, t1 ++ (k a s1).1.2, (k a s1).2).
Proof.
  intros H. unfold bind. rewrite H. destruct (k a s1) as [[s2 t2] r].
  reflexivity.
Qed.

(** Two checked steps before a continuation are a checked pair of steps
    before it. *)
Lemma check_check (m1 m2 k : @M W (option error)) st :
  bind m1 (λ r, match r with
                | Some err => ret (Some err)
                | None =>
                    bind m2 (λ r', match r' with
                                   | Some err => ret (Some err)
                                   | None => k
                                   end)
                end) st
  = bind (bind m1 (λ r, match r with
                        | Some err => ret (Some err)
                        | None =>
                            bind m2 (λ r', match r' with
                                           | Some err => ret (Some err)
                                           | None => ret None
                                           end)
                        end))
      (λ r, match r with Some err => ret (Some err) | None => k end) st.
Proof.
  unfold bind, ret.
  destruct (m1 st) as [[s1 t1] [[e1|]| |]]; simpl;
    rewrite ?app_nil_r; try reflexivity.
  destruct (m2 s1) as [[s2 t2] [[e2|]| |]]; simpl;
    rewrite ?app_nil_r; try reflexivity.
  destruct (k s2) as [[s3 t3] r3]. rewrite app_assoc. reflexivity.
Qed.

Lemma execute_unfold (fuel : nat) (c : ptr) (args : list string) st :
  execute Parse call callE fuel c args st =
  bind (if DisableFlagParsing (heap st c) then ret (ParseOk args)
        else ParseFlags Parse fuel c args)
    (λ parsed, match parsed with
               | ParseErr err => ret (Some err)
               | ParseOk a => dispatch call callE fuel c a
               end) st.
Proof.
  unfold execute. rewrite bind_get_heap. apply bind_ext.
  intros [a|err] s; [|reflexivity].
  unfold dispatch. rewrite !bind_get_heap.
  destruct (Find (heap s) c a) as [cmd flags].
  apply bind_ext. intros [err|] s'; [reflexivity|].
  apply check_check.
Qed.

(** *** The stages *)

Lemma executeStage_spec (s : Stage) (fE f : option Fn) (cmd : ptr)
    (a : list string) st :
  ∃ w r,
    executeStage call callE s fE f cmd a st
      = (mkState (heap st) w,
         match r with
         | Some e => [EvCallback s true cmd a (Some e)]
         | None =>
             match fE, f with
             | Some _, _ => [EvCallback s true cmd a None]
             | None, Some _ => [EvCallback s false cmd a None]
             | None, None => []
             end
         end, Val r) ∧
    (is_Some r → is_Some fE).
Proof.
  unfold executeStage. destruct fE as [g|].
  - unfold invokeE. destruct (callE g cmd a (heap st) (app st)) as [w r].
    exists w, r. destruct r; eauto.
  - destruct f as [g|].
    + exists (call g cmd a (heap st) (app st)), None.
      split; [reflexivity | intros [? [=]]].
    + exists (app st), None. rewrite mkState_eta.
      split; [reflexivity | intros [? [=]]].
Qed.

Lemma execute_stage_spec (s : Stage) (cmd : ptr) (a : list string) st :
  ∃ w r,
    execute_stage call callE s cmd a st
      = (mkState (heap st) w,
         match r with
         | Some e => [EvCallback s true cmd a (Some e)]
         | None => passed (heap st) cmd a s
         end, Val r) ∧
    (is_Some r → is_Some (stage_slots s (heap st cmd)).1).
Proof.
  unfold passed.
  destruct s; simpl;
    [unfold executePersistentPreRun | unfold executePreRun
    | unfold executeRun | unfold executePostRun
    | unfold executePersistentPostRun ];
    rewrite bind_get_heap; apply executeStage_spec.
Qed.

Lemma run_stages_spec (l : list Stage) (cmd : ptr) (a : list string) :
  ∀ st, ∃ w,
    run_stages call callE l cmd a st
      = (mkState (heap st) w, flat_map (passed (heap st) cmd a) l, Val None) ∨
    ∃ l1 s l2 e,
      l = l1 ++ s :: l2 ∧ is_Some (stage_slots s (heap st cmd)).1 ∧
      run_stages call callE l cmd a st
        = (mkState (heap st) w,
           flat_map (passed (heap st) cmd a) l1
             ++ [EvCallback s true cmd a (Some e)],
           Val (Some e)).
Proof.
  induction l as [|s l IH]; intros st.
  - exists (app st). left. simpl. unfold ret. rewrite mkState_eta. reflexivity.
  - destruct (execute_stage_spec s cmd a st) as (w1 & r1 & H1 & Hslot).
    simpl. rewrite (bind_Val_l _ _ _ _ _ _ H1).
    destruct r1 as [e|].
    + exists w1. right. exists [], s, l, e.
      split; [reflexivity|]. split; [apply Hslot; eauto|]. reflexivity.
    + destruct (IH (mkState (heap st) w1)) as [w [H|(l1 & s' & l2 & e & -> & Hs & H)]];
        exists w; simpl in H; rewrite H; simpl.
      * left. reflexivity.
      * right. exists (s :: l1), s', l2, e.
        split; [reflexivity|]. split; [exact Hs|].
        simpl. rewrite <- app_assoc. reflexivity.
Qed.

(** *** The report of a failed run *)

Lemma rooted_step (fuel : nat) (h : Heap) (c p : ptr) :
  rooted (S fuel) h c → parent (h c) = Some p → rooted fuel h p.
Proof.
  intros (k & Hk & Hd) Hp. destruct k as [|k]; simpl in Hd; [congruence|].
  destruct Hd as (p' & Hp' & Hd). exists k. split; [lia|]. congruence.
Qed.

Lemma rooted_ErrOrStderr (fuel : nat) (h : Heap) :
  ∀ c, rooted fuel h c → ∃ w, ErrOrStderr fuel h c = Val w.
Proof.
  induction fuel as [|fuel IH]; intros c Hr.
  - destruct Hr as (k & Hk & _). lia.
  - simpl. destruct (errOutput (h c)); [eauto|].
    destruct (parent (h c)) as [p|] eqn:Hp; [|eauto].
    apply IH. eapply rooted_step; eassumption.
Qed.

Lemma rooted_OutOrStdout (fuel : nat) (h : Heap) :
  ∀ c, rooted fuel h c → ∃ w, OutOrStdout fuel h c = Val w.
Proof.
  induction fuel as [|fuel IH]; intros c Hr.
  - destruct Hr as (k & Hk & _). lia.
  - simpl. destruct (output (h c)); [eauto|].
    destruct (parent (h c)) as [p|] eqn:Hp; [|eauto].
    apply IH. eapply rooted_step; eassumption.
Qed.

Lemma rooted_UseLine (fuel : nat) (h : Heap) :
  ∀ c, rooted fuel h c → ∃ s, UseLine fuel h c = Val s.
Proof.
  induction fuel as [|fuel IH]; intros c Hr.
  - destruct Hr as (k & Hk & _). lia.
  - simpl. destruct (parent (h c)) as [p|] eqn:Hp; [|eauto].
    destruct (IH p) as [s ->]; [eapply rooted_step; eassumption | eauto].
Qed.

Lemma ErrOrStderr_res (fuel : nat) (h : Heap) :
  ∀ c, (∃ w, ErrOrStderr fuel h c = Val w) ∨ ErrOrStderr fuel h c = OutOfFuel.
Proof.
  induction fuel as [|fuel IH]; intros c; simpl; [auto|].
  destruct (errOutput (h c)); [eauto|].
  destruct (parent (h c)); [apply IH | eauto].
Qed.

Lemma OutOrStdout_res (fuel : nat) (h : Heap) :
  ∀ c, (∃ w, OutOrStdout fuel h c = Val w) ∨ OutOrStdout fuel h c = OutOfFuel.
Proof.
  induction fuel as [|fuel IH]; intros c; simpl; [auto|].
  destruct (output (h c)); [eauto|].
  destruct (parent (h c)); [apply IH | eauto].
Qed.

Lemma UseLine_res (fuel : nat) (h : Heap) :
  ∀ c, (∃ s, UseLine fuel h c = Val s) ∨ UseLine fuel h c = OutOfFuel.
Proof.
  induction fuel as [|fuel IH]; intros c; simpl; [auto|].
  destruct (parent (h c)) as [p|]; [|eauto].
  destruct (IH p) as [[s ->]| ->]; eauto.
Qed.

Lemma Usage_spec (fuel : nat) (c : ptr) st :
  (∃ w, OutOrStdout fuel (heap st) c = Val w ∧
        Usage fuel c st = (st, [EvUsage c w], Val ())) ∨
  (¬ rooted fuel (heap st) c ∧ Usage fuel c st = (st, [], OutOfFuel)).
Proof.
  unfold Usage. rewrite bind_get_heap. unfold bind, lift_res, emit.
  destruct (OutOrStdout_res fuel (heap st) c) as [[w Hw]|Hw]; rewrite Hw.
  - destruct (UseLine_res fuel (heap st) c) as [[s Hs]|Hs]; rewrite Hs.
    + left. eauto.
    + right. split; [|reflexivity].
      intros Hr. apply rooted_UseLine in Hr as [s' Hs']. congruence.
  - right. split; [|reflexivity].
    intros Hr. apply rooted_OutOrStdout in Hr as [w' Hw']. congruence.
Qed.

Lemma report_failure_spec (fuel : nat) (c : ptr) (e : error) st :
  ∃ rep r, report_failure fuel c e st = (st, rep, r) ∧
           reported (heap st) fuel c e rep r.
Proof.
  unfold report_failure, reported. rewrite bind_get_heap.
  destruct (SilenceErrors (heap st c)) eqn:Hse; simpl.
  - (* errors silenced *)
    unfold bind at 1. unfold ret at 1.
    destruct (SilenceUsage (heap st c)) eqn:Hsu; simpl.
    + exists [], (Val (Some e)). split; [reflexivity|].
      split; [intros ev H; inversion H|]. split; [auto|].
      intros Hr. split; [reflexivity|].
      destruct (rooted_ErrOrStderr _ _ _ Hr) as [w Hw].
      destruct (rooted_OutOrStdout _ _ _ Hr) as [w' Hw']. eauto.
    + unfold bind.
      destruct (Usage_spec fuel c st) as [(w' & Hw' & ->)|(Hnr & ->)]; simpl.
      * exists [EvUsage c w'], (Val (Some e)). split; [reflexivity|].
        split.
        { intros ev H. apply list_elem_of_singleton in H. subst. reflexivity. }
        split; [auto|]. intros Hr. split; [reflexivity|].
        destruct (rooted_ErrOrStderr _ _ _ Hr) as [w Hw]. eauto.
      * exists [], OutOfFuel. split; [reflexivity|].
        split; [intros ev H; inversion H|]. split; [auto|].
        intros Hr. contradiction.
  - (* errors printed *)
    unfold bind at 1. unfold bind at 1. unfold lift_res, emit.
    destruct (ErrOrStderr_res fuel (heap st) c) as [[w Hw]|Hw]; rewrite Hw.
    + destruct (SilenceUsage (heap st c)) eqn:Hsu; simpl.
      * exists [EvPrintErr w e], (Val (Some e)). split; [reflexivity|].
        split.
        { intros ev H. apply list_elem_of_singleton in H. subst. reflexivity. }
        split; [auto|]. intros Hr. split; [reflexivity|].
        destruct (rooted_OutOrStdout _ _ _ Hr) as [w' Hw']. eauto.
      * unfold bind.
        destruct (Usage_spec fuel c st) as [(w' & Hw' & ->)|(Hnr & ->)]; simpl.
        -- exists [EvPrintErr w e; EvUsage c w'], (Val (Some e)).
           split; [reflexivity|]. split.
           { intros ev H. apply elem_of_cons in H as [->|H]; [reflexivity|].
             apply list_elem_of_singleton in H. subst. reflexivity. }
           split; [auto|]. intros Hr. split; [reflexivity|]. eauto.
        -- exists [EvPrintErr w e], OutOfFuel. split; [reflexivity|].
           split.
           { intros ev H. apply list_elem_of_singleton in H. subst. reflexivity. }
           split; [auto|]. intros Hr. contradiction.
    + exists [], OutOfFuel. split; [reflexivity|].
      split; [intros ev H; inversion H|]. split; [auto|].
      intros Hr. apply rooted_ErrOrStderr in Hr as [w' Hw']. congruence.
Qed.

(** *** The shape of a run *)

Lemma call_Args_spec (v : PositionalArgs) (cmd : ptr) (a : list string) st :
  ∃ w r, call_Args callE v cmd a st
         = (mkState (heap st) w, [EvValidate cmd a r], Val r).
Proof.
  unfold call_Args.
  destruct v; try (eexists _, _; reflexivity).
  destruct (callE f cmd a (heap st) (app st)) as [w r]. eauto.
Qed.

Lemma stage_not_run (l l1 l2 : list Stage) (s : Stage) :
  l = l1 ++ s :: l2 → StageRun ∉ l → s ≠ StageRun.
Proof. intros -> Hn ->. apply Hn, elem_of_app. right. left. Qed.

Lemma pipeline_shape (fuel : nat) (c cmd : ptr) (a : list string)
    (vt : list Event) s1 st' tr r :
  validated (heap s1) cmd a vt →
  bind (run_stages call callE [StagePersistentPreRun; StagePreRun] cmd a)
    (λ r, match r with
          | Some err => ret (Some err)
          | None =>
              bind (executeRun call callE cmd a)
                (λ r, match r with
                      | Some err => report_failure fuel c err
                      | None =>
                          run_stages call callE
                            [StagePostRun; StagePersistentPostRun] cmd a
                      end)
          end) s1 = (st', tr, r) →
  heap st' = heap s1 ∧ Shape (heap s1) fuel c cmd a (vt ++ tr) r.
Proof.
  intros Hv.
  destruct (run_stages_spec [StagePersistentPreRun; StagePreRun] cmd a s1)
    as [w [H|(l1 & s & l2 & e & Hl & Hs & H)]];
    rewrite (bind_Val_l _ _ _ _ _ _ H).
  - (* both pre stages passed *)
    destruct (execute_stage_spec StageRun cmd a (mkState (heap s1) w))
      as (w2 & r2 & H2 & Hslot). simpl in H2.
    rewrite (bind_Val_l _ _ _ _ _ _ H2). destruct r2 as [e|].
    + (* the run failed *)
      destruct (report_failure_spec fuel c e (mkState (heap s1) w2))
        as (rep & r' & Hrep & Hreported).
      rewrite Hrep. simpl. intros [= <- <- <-].
      split; [reflexivity|]. simpl in Hreported.
      apply (ShapeRunFailed _ _ _ _ _ vt rep e r'); [exact Hv | | exact Hreported].
      apply Hslot. eauto.
    + (* the run passed *)
      destruct (run_stages_spec [StagePostRun; StagePersistentPostRun] cmd a
                  (mkState (heap s1) w2))
        as [w3 [H3|(l1 & s & l2 & e & Hl & Hs & H3)]];
        simpl in H3 |- *; rewrite H3; simpl; intros [= <- <- <-];
        (split; [reflexivity|]).
      * rewrite <- !app_assoc. apply (ShapeDone _ _ _ _ _ vt Hv).
      * match goal with
        | |- Shape _ _ _ _ _ ?t _ =>
            replace t
              with (vt ++ flat_map (passed (heap s1) cmd a)
                            ([StagePersistentPreRun; StagePreRun; StageRun] ++ l1)
                       ++ [EvCallback s true cmd a (Some e)])
        end.
        2:{ rewrite flat_map_app. simpl.
            rewrite ?app_nil_r, <- ?app_assoc. reflexivity. }
        apply (ShapeFailed _ _ _ _ _ vt _ l2 s e); [exact Hv | | | exact Hs].
        -- unfold all_stages. rewrite <- app_assoc, <- Hl. reflexivity.
        -- apply (stage_not_run _ _ _ _ Hl). compute_done.
  - (* a pre stage failed *)
    simpl. rewrite app_nil_r. intros [= <- <- <-]. split; [reflexivity|].
    apply (ShapeFailed _ _ _ _ _ vt l1
             (l2 ++ [StageRun; StagePostRun; StagePersistentPostRun]) s e);
      [exact Hv | | | exact Hs].
    + unfold all_stages.
      change (l1 ++ s :: l2 ++ [StageRun; StagePostRun; StagePersistentPostRun])
        with (l1 ++ (s :: l2) ++ [StageRun; StagePostRun; StagePersistentPostRun]).
      rewrite app_assoc, <- Hl. reflexivity.
    + apply (stage_not_run _ _ _ _ Hl). compute_done.
Qed.

Lemma dispatch_shape (fuel : nat) (c : ptr) (args : list string) st st' tr r :
  dispatch call callE fuel c args st = (st', tr, r) →
  heap st' = heap st ∧
  Shape (heap st) fuel c (Find (heap st) c args).1 (Find (heap st) c args).2
    tr r.
Proof.
  unfold dispatch. rewrite bind_get_heap.
  destruct (Find (heap st) c args) as [cmd a]. simpl.
  destruct (Args (heap st cmd)) as [v|] eqn:HA.
  - destruct (call_Args_spec v cmd a st) as (w & rv & Hcall).
    rewrite (bind_Val_l _ _ _ _ _ _ Hcall). destruct rv as [e|].
    + simpl. intros [= <- <- <-]. split; [reflexivity|].
      apply ShapeInvalid. rewrite HA. eauto.
    + destruct (bind _ _ (mkState (heap st) w)) as [[s2 t2] r2] eqn:Hrest.
      simpl. intros [= <- <- <-].
      apply (pipeline_shape fuel c cmd a [EvValidate cmd a None]) in Hrest.
      * exact Hrest.
      * right. simpl. rewrite HA. eauto.
  - unfold ret at 1.
    assert (Hb : ∀ (k : option error → @M W (option error)),
               bind (λ s : State, (s, [], Val None)) k st = k None st).
    { intros k. unfold bind. destruct (k None st) as [[? ?] ?]. reflexivity. }
    rewrite Hb. intros Hrest.
    apply (pipeline_shape fuel c cmd a []) in Hrest; [exact Hrest|].
    left. auto.
Qed.

(** *** Merging flags changes nothing the lifecycle looks at *)

Lemma extend_set_flags (h h1 : Heap) (x : ptr) :
  flags_extend h h1 → ∃ fs, h1 x = set_flags fs (h x).
Proof. intros He. destruct (He x) as [l ->]. eauto. Qed.

Lemma Find_child_extend (h h1 : Heap) (children : list ptr) (tok : string) :
  flags_extend h h1 → Find_child h1 children tok = Find_child h children tok.
Proof.
  intros He. induction children as [|x rest IH]; [reflexivity|]. simpl.
  rewrite IH. destruct (extend_set_flags h h1 x He) as [fs ->]. reflexivity.
Qed.

Lemma Find_extend (h h1 : Heap) (args : list string) :
  flags_extend h h1 → ∀ c, Find h1 c args = Find h c args.
Proof.
  intros He. induction args as [|tok rest IH]; intros c; [reflexivity|].
  simpl. rewrite (Find_child_extend h h1) by exact He.
  destruct (extend_set_flags h h1 c He) as [fs ->]. simpl.
  destruct (Find_child h (commands (h c)) tok); [apply IH | reflexivity].
Qed.

Lemma passed_extend (h h1 : Heap) (cmd : ptr) (a : list string) (s : Stage) :
  flags_extend h h1 → passed h1 cmd a s = passed h cmd a s.
Proof.
  intros He. unfold passed.
  destruct (extend_set_flags h h1 cmd He) as [fs ->]. destruct s; reflexivity.
Qed.

Lemma flat_map_passed_extend (h h1 : Heap) (cmd : ptr) (a : list string)
    (l : list Stage) :
  flags_extend h h1 →
  flat_map (passed h1 cmd a) l = flat_map (passed h cmd a) l.
Proof.
  intros He. induction l as [|s l IH]; [reflexivity|]. simpl.
  rewrite IH, (passed_extend h h1) by exact He. reflexivity.
Qed.

Lemma ErrOrStderr_extend (h h1 : Heap) (fuel : nat) :
  flags_extend h h1 → ∀ c, ErrOrStderr fuel h1 c = ErrOrStderr fuel h c.
Proof.
  intros He. induction fuel as [|fuel IH]; intros c; [reflexivity|]. simpl.
  destruct (extend_set_flags h h1 c He) as [fs ->]. simpl.
  destruct (errOutput (h c)); [reflexivity|].
  destruct (parent (h c)); [apply IH | reflexivity].
Qed.

Lemma OutOrStdout_extend (h h1 : Heap) (fuel : nat) :
  flags_extend h h1 → ∀ c, OutOrStdout fuel h1 c = OutOrStdout fuel h c.
Proof.
  intros He. induction fuel as [|fuel IH]; intros c; [reflexivity|]. simpl.
  destruct (extend_set_flags h h1 c He) as [fs ->]. simpl.
  destruct (output (h c)); [reflexivity|].
  destruct (parent (h c)); [apply IH | reflexivity].
Qed.

Lemma rooted_extend (h h1 : Heap) (fuel : nat) (c : ptr) :
  flags_extend h h1 → rooted fuel h c ↔ rooted fuel h1 c.
Proof.
  intros He. unfold rooted. split; intros (k & Hk & Hd); exists k;
    (split; [exact Hk|]); apply (depth_is_extend h h1 k He); exact Hd.
Qed.

Lemma validated_extend (h h1 : Heap) (cmd : ptr) (a : list string)
    (vt : list Event) :
  flags_extend h h1 → validated h1 cmd a vt → validated h cmd a vt.
Proof.
  intros He. unfold validated.
  destruct (extend_set_flags h h1 cmd He) as [fs ->]. auto.
Qed.

Lemma reported_extend (h h1 : Heap) (fuel : nat) (c : ptr) (e : error)
    (rep : list Event) (r : Res (option error)) :
  flags_extend h h1 → reported h1 fuel c e rep r → reported h fuel c e rep r.
Proof.
  intros He (Hrep & Hr & Hroot). split; [exact Hrep|]. split; [exact Hr|].
  intros Hc. apply (rooted_extend h h1) in Hc; [|exact He].
  destruct (Hroot Hc) as (-> & w & w' & Hw & Hw' & ->).
  split; [reflexivity|]. exists w, w'.
  rewrite <- (ErrOrStderr_extend h h1), <- (OutOrStdout_extend h h1) by exact He.
  split; [exact Hw|]. split; [exact Hw'|].
  destruct (extend_set_flags h h1 c He) as [fs ->]. reflexivity.
Qed.

Lemma Shape_extend (h h1 : Heap) (fuel : nat) (c cmd : ptr) (a : list string)
    (tr : list Event) (r : Res (option error)) :
  flags_extend h h1 → Shape h1 fuel c cmd a tr r → Shape h fuel c cmd a tr r.
Proof.
  intros He HS.
  destruct HS as [e HA|vt Hv|vt l1 l2 s e Hv Hl Hs Hslot|vt rep e r Hv HR Hrep];
    rewrite ?(flat_map_passed_extend h h1) by exact He.
  - apply ShapeInvalid.
    destruct (extend_set_flags h h1 cmd He) as [fs Hfs].
    rewrite Hfs in HA. exact HA.
  - apply ShapeDone. eapply validated_extend; eassumption.
  - apply (ShapeFailed _ _ _ _ _ vt l1 l2 s e); try assumption.
    + eapply validated_extend; eassumption.
    + destruct (extend_set_flags h h1 cmd He) as [fs Hfs].
      rewrite Hfs in Hslot. destruct s; exact Hslot.
  - apply ShapeRunFailed.
    + eapply validated_extend; eassumption.
    + destruct (extend_set_flags h h1 cmd He) as [fs Hfs].
      rewrite Hfs in HR. exact HR.
    + eapply reported_extend; eassumption.
Qed.

(** *** The shape of [execute] *)

Lemma parse_step_spec (fuel : nat) (c : ptr) (args : list string) st s1 t1 r1 :
  parse_step Parse fuel c args st = (s1, t1, r1) →
  t1 = [] ∧ (∀ pr, r1 = Val pr → flags_extend (heap st) (heap s1)).
Proof.
  unfold parse_step.
  destruct (DisableFlagParsing (heap st c)).
  - intros [= <- <- <-]. split; [reflexivity|].
    intros _ _. apply flags_extend_refl.
  - unfold ParseFlags, bind.
    pose proof (silent_mergePersistentFlags fuel c st) as [Ht _].
    destruct (mergePersistentFlags fuel c st) as [[s2 t2] [[]|msg|]] eqn:Hm;
      simpl in Ht; subst t2.
    + unfold Flags_Parse.
      destruct (Parse (flags (heap s2 c)) args (app s2)) as [w pr].
      intros [= <- <- <-]. split; [reflexivity|]. intros _ _.
      apply mergePersistentFlags_Val in Hm as [He _]. exact He.
    + intros [= <- <- <-]. split; [reflexivity | discriminate].
    + intros [= <- <- <-]. split; [reflexivity | discriminate].
Qed.

Lemma execute_shape (fuel : nat) (c : ptr) (args : list string) st st' tr r :
  execute Parse call callE fuel c args st = (st', tr, r) →
  ∃ s1 r1,
    parse_step Parse fuel c args st = (s1, [], r1) ∧
    match r1 with
    | Val (ParseOk a) =>
        heap st' = heap s1 ∧
        Shape (heap st) fuel c (Find (heap st) c a).1 (Find (heap st) c a).2
          tr r
    | Val (ParseErr e) => st' = s1 ∧ tr = [] ∧ r = Val (Some e)
    | Panic msg => st' = s1 ∧ tr = [] ∧ r = Panic msg
    | OutOfFuel => st' = s1 ∧ tr = [] ∧ r = OutOfFuel
    end.
Proof.
  rewrite execute_unfold. unfold bind.
  change ((if DisableFlagParsing (heap st c) then ret (ParseOk args)
           else ParseFlags Parse fuel c args) st)
    with (parse_step Parse fuel c args st).
  destruct (parse_step Parse fuel c args st) as [[s1 t1] r1] eqn:Hp.
  pose proof (parse_step_spec _ _ _ _ _ _ _ Hp) as [-> He].
  destruct r1 as [[a|e]|msg|].
  - destruct (dispatch call callE fuel c a s1) as [[s2 t2] r2] eqn:Hd.
    intros [= <- <- <-]. exists s1, (Val (ParseOk a)).
    split; [reflexivity|].
    apply dispatch_shape in Hd as [Hh HS]. split; [exact Hh|].
    specialize (He _ eq_refl).
    rewrite (Find_extend (heap st) (heap s1)) in HS by exact He.
    eapply Shape_extend; eassumption.
  - intros [= <- <- <-]. exists s1, (Val (ParseErr e)). auto.
  - intros [= <- <- <-]. exists s1, (Panic msg). auto.
  - intros [= <- <- <-]. exists s1, OutOfFuel. auto.
Qed.

(** *** Events of a run *)

Lemma passed_inv (h : Heap) (cmd : ptr) (a : list string) (l : list Stage)
    (ev : Event) :
  ev ∈ flat_map (passed h cmd a) l →
  ∃ s fl, s ∈ l ∧ ev ∈ passed h cmd a s ∧ ev = EvCallback s fl cmd a None.
Proof.
  intros Hin. apply list_elem_of_In, in_flat_map in Hin as (s & Hs & Hev).
  apply list_elem_of_In in Hs, Hev.
  assert (Hshape : ∃ fl, ev = EvCallback s fl cmd a None).
  { unfold passed in Hev.
    destruct (stage_slots s (h cmd)) as [[g|] [g'|]];
      try (apply list_elem_of_singleton in Hev; eauto); inversion Hev. }
  destruct Hshape as [fl Hfl]. eauto.
Qed.

Lemma passed_intro (h : Heap) (cmd : ptr) (a : list string) (l : list Stage)
    (s : Stage) (ev : Event) :
  s ∈ l → ev ∈ passed h cmd a s → ev ∈ flat_map (passed h cmd a) l.
Proof.
  intros Hs Hev. apply list_elem_of_In, in_flat_map. exists s.
  split; apply list_elem_of_In; assumption.
Qed.

Lemma validated_inv (h : Heap) (cmd : ptr) (a : list string)
    (vt : list Event) (ev : Event) :
  validated h cmd a vt → ev ∈ vt → ev = EvValidate cmd a None.
Proof.
  intros [[_ ->]|[_ ->]] Hin; [inversion Hin|].
  apply list_elem_of_singleton in Hin. exact Hin.
Qed.

(** The stages before a stage of the pipeline are those of smaller index. *)
Lemma stages_before (l1 l2 : list Stage) (s s' : Stage) :
  all_stages = l1 ++ s :: l2 → s' ∈ l1 ↔ stage_index s' < stage_index s.
Proof.
  unfold all_stages. intros H.
  destruct l1 as [|x1 [|x2 [|x3 [|x4 [|x5 l1]]]]]; simpl in H;
    try (injection H as <-; subst; repeat match goal with
                                          | E : _ = _ |- _ => injection E as <-
                                          end).
  1-5: destruct s'; unfold iff; compute_done.
  destruct l1; discriminate.
Qed.

(** Validation and completed stages write nothing. *)
Lemma quiet_before (h : Heap) (cmd : ptr) (a : list string) (vt : list Event)
    (l : list Stage) (ev : Event) :
  validated h cmd a vt →
  ev ∈ vt ++ flat_map (passed h cmd a) l → is_report ev = false.
Proof.
  intros Hv Hev. apply elem_of_app in Hev as [Hev|Hev].
  - apply (validated_inv _ _ _ _ _ Hv) in Hev. subst ev. reflexivity.
  - apply passed_inv in Hev as (s1 & fl1 & _ & _ & ->). reflexivity.
Qed.

Lemma filter_none {A} (f : A → bool) (l : list A) :
  (∀ x, x ∈ l → f x = false) → List.filter f l = [].
Proof.
  induction l as [|x l IH]; intros H; [reflexivity|]. simpl.
  rewrite (H x) by left. apply IH. intros y Hy. apply H. right. exact Hy.
Qed.

Lemma filter_all {A} (f : A → bool) (l : list A) :
  (∀ x, x ∈ l → f x = true) → List.filter f l = l.
Proof.
  induction l as [|x l IH]; intros H; [reflexivity|]. simpl.
  rewrite (H x) by left. f_equal. apply IH. intros y Hy. apply H. right.
  exact Hy.
Qed.

Lemma report_stage_of (ev : Event) : is_report ev = true → stage_of ev = None.
Proof. destruct ev; simpl; congruence. Qed.

(** A failed callback in a run: it is a callback of the target, the run
    stops there (but for the report), the stages before it went through
    and no stage after it was started. *)
Lemma Shape_failure (h : Heap) (fuel : nat) (c cmd0 : ptr) (a0 : list string)
    (tr : list Event) (r : Res (option error)) (s : Stage) (fl : bool)
    (cmd : ptr) (a : list string) (e : error) :
  Shape h fuel c cmd0 a0 tr r →
  EvCallback s fl cmd a (Some e) ∈ tr →
  cmd = cmd0 ∧ a = a0 ∧ fl = true ∧
  is_Some (stage_slots s (h cmd)).1 ∧
  (r = Val (Some e) ∨ (s = StageRun ∧ r = OutOfFuel ∧ ¬ rooted fuel h c)) ∧
  ∃ before after,
    tr = before ++ EvCallback s fl cmd a (Some e) :: after ∧
    (∀ ev s', ev ∈ before ++ after → stage_of ev = Some s' →
              stage_index s' < stage_index s) ∧
    (∀ s' ev, stage_index s' < stage_index s → ev ∈ passed h cmd a s' →
              ev ∈ before) ∧
    (∀ ev, ev ∈ after → is_report ev = true) ∧
    (s = StageRun → reported h fuel c e after r) ∧
    (s ≠ StageRun → after = []) ∧
    (∀ ev, ev ∈ before → is_report ev = false).
Proof.
  intros HS Hin.
  destruct HS as [e0 HA|vt Hv|vt l1 l2 s0 e0 Hv Hl Hs Hslot|vt rep e0 r Hv HR Hrep].
  - apply list_elem_of_singleton in Hin. discriminate.
  - apply elem_of_app in Hin as [Hin|Hin].
    + apply (validated_inv _ _ _ _ _ Hv) in Hin. discriminate.
    + apply passed_inv in Hin as (s1 & fl1 & _ & _ & [=]).
  - assert (Hev : EvCallback s fl cmd a (Some e)
                  = EvCallback s0 true cmd0 a0 (Some e0)).
    { apply elem_of_app in Hin as [Hin|Hin].
      { apply (validated_inv _ _ _ _ _ Hv) in Hin. discriminate. }
      apply elem_of_app in Hin as [Hin|Hin].
      { apply passed_inv in Hin as (s1 & fl1 & _ & _ & [=]). }
      apply list_elem_of_singleton in Hin. exact Hin. }
    injection Hev as -> -> -> -> ->.
    split; [reflexivity|]. split; [reflexivity|]. split; [reflexivity|].
    split; [exact Hslot|]. split; [left; reflexivity|].
    exists (vt ++ flat_map (passed h cmd0 a0) l1), [].
    split; [rewrite <- app_assoc; reflexivity|].
    split; [|split; [|split; [|split; [|split]]]].
    + intros ev s' Hev. rewrite app_nil_r in Hev.
      apply elem_of_app in Hev as [Hev|Hev].
      * apply (validated_inv _ _ _ _ _ Hv) in Hev. subst ev. discriminate.
      * apply passed_inv in Hev as (s1 & fl1 & Hs1 & _ & ->).
        intros [= <-]. apply (stages_before l1 l2 s0 s1 Hl), Hs1.
    + intros s' ev Hlt Hev. apply elem_of_app. right.
      apply (passed_intro _ _ _ _ s'); [|exact Hev].
      apply (stages_before l1 l2 s0 s' Hl), Hlt.
    + intros ev Hev. inversion Hev.
    + intros ->. contradiction.
    + reflexivity.
    + intros ev Hev. eapply quiet_before; eassumption.
  - assert (Hev : EvCallback s fl cmd a (Some e)
                  = EvCallback StageRun true cmd0 a0 (Some e0)).
    { apply elem_of_app in Hin as [Hin|Hin].
      { apply (validated_inv _ _ _ _ _ Hv) in Hin. discriminate. }
      apply elem_of_app in Hin as [Hin|Hin].
      { apply passed_inv in Hin as (s1 & fl1 & _ & _ & [=]). }
      apply elem_of_app in Hin as [Hin|Hin].
      { apply list_elem_of_singleton in Hin. exact Hin. }
      destruct Hrep as (Hrep & _). apply Hrep in Hin. discriminate. }
    injection Hev as -> -> -> -> ->.
    split; [reflexivity|]. split; [reflexivity|]. split; [reflexivity|].
    split; [exact HR|]. split.
    { destruct Hrep as (_ & [->| ->] & Hroot); [left; reflexivity|].
      right. split; [reflexivity|]. split; [reflexivity|].
      intros Hc. destruct (Hroot Hc) as [[=] _]. }
    exists (vt ++ flat_map (passed h cmd0 a0)
                    [StagePersistentPreRun; StagePreRun]), rep.
    split; [rewrite <- !app_assoc; reflexivity|].
    split; [|split; [|split; [|split; [|split]]]].
    + intros ev s' Hev.
      apply elem_of_app in Hev as [Hev|Hev];
        [apply elem_of_app in Hev as [Hev|Hev]|].
      * apply (validated_inv _ _ _ _ _ Hv) in Hev. subst ev. discriminate.
      * apply passed_inv in Hev as (s1 & fl1 & Hs1 & _ & ->).
        intros [= <-].
        apply (stages_before [StagePersistentPreRun; StagePreRun]
                 [StagePostRun; StagePersistentPostRun] StageRun s1 eq_refl), Hs1.
      * destruct Hrep as (Hrep & _). apply Hrep, report_stage_of in Hev.
        congruence.
    + intros s' ev Hlt Hev. apply elem_of_app. right.
      apply (passed_intro _ _ _ _ s'); [|exact Hev].
      apply (stages_before [StagePersistentPreRun; StagePreRun]
               [StagePostRun; StagePersistentPostRun] StageRun s' eq_refl), Hlt.
    + destruct Hrep as (Hrep & _). exact Hrep.
    + intros _. exact Hrep.
    + intros Hne. contradiction.
    + intros ev Hev. eapply quiet_before; eassumption.
Qed.

(** C1. Lifecycle short-circuiting: when a callback of some stage of the
    resolved target returns an error during [execute], no callback of a
    later stage is called (after a failed [PersistentPreRun] or [PreRun]:
    no [Run], [PostRun], [PersistentPostRun]; after a failed [Run]: no
    [PostRun], [PersistentPostRun]), the callbacks of the earlier stages
    that are set on the target have been called before it, and [execute]
    returns that error; only on a failed [Run] do events follow, those of
    the report, and only there can the call fail to return, when the
    parent chain of the receiver is cyclic. *)
Theorem lifecycle_short_circuit (fuel : nat) (c : ptr) (args : list string)
    st st' (tr : list Event) (r : Res (option error)) (s : Stage) (fl : bool)
    (cmd : ptr) (a : list string) (e : error) :
  execute Parse call callE fuel c args st = (st', tr, r) →
  EvCallback s fl cmd a (Some e) ∈ tr →
  (∃ s1 w, parse_step Parse fuel c args st = (s1, [], Val (ParseOk w)) ∧
           Find (heap st) c w = (cmd, a)) ∧
  (r = Val (Some e) ∨
   (s = StageRun ∧ r = OutOfFuel ∧ ¬ rooted fuel (heap st) c)) ∧
  ∃ before after,
    tr = before ++ EvCallback s fl cmd a (Some e) :: after ∧
    (∀ ev s', ev ∈ before ++ after → stage_of ev = Some s' →
              stage_index s' < stage_index s) ∧
    (∀ s' ev, stage_index s' < stage_index s →
              ev ∈ passed (heap st) cmd a s' → ev ∈ before) ∧
    (∀ ev, ev ∈ after → is_report ev = true).
Proof.
  intros Hex Hin.
  apply execute_shape in Hex as (s1 & r1 & Hp & Hcase).
  destruct r1 as [[w|e1]|msg|];
    try (destruct Hcase as (_ & -> & _); inversion Hin).
  destruct Hcase as [_ HS].
  destruct (Shape_failure _ _ _ _ _ _ _ _ _ _ _ _ HS Hin)
    as (Hcmd & Ha & _ & _ & Hr & before & after & Htr & Hlater & Hearlier
        & Hafter & _).
  split.
  { exists s1, w. split; [exact Hp|].
    destruct (Find (heap st) c w). simpl in *. congruence. }
  split; [exact Hr|]. exists before, after. auto.
Qed.

Lemma Shape_invalid (h : Heap) (fuel : nat) (c cmd0 : ptr) (a0 : list string)
    (tr : list Event) (r : Res (option error)) (cmd : ptr) (a : list string)
    (e : error) :
  Shape h fuel c cmd0 a0 tr r →
  EvValidate cmd a (Some e) ∈ tr →
  cmd = cmd0 ∧ a = a0 ∧ tr = [EvValidate cmd a (Some e)] ∧ r = Val (Some e).
Proof.
  intros HS Hin.
  assert (Hrest : ∀ vt l rest,
            validated h cmd0 a0 vt →
            (∀ ev, ev ∈ rest → ∃ ev', ev = ev' ∧ ∀ c' a' r', ev' ≠ EvValidate c' a' r') →
            EvValidate cmd a (Some e) ∈ vt ++ flat_map (passed h cmd0 a0) l ++ rest →
            False).
  { intros vt l rest Hv Hrest H.
    apply elem_of_app in H as [H|H].
    { apply (validated_inv _ _ _ _ _ Hv) in H. discriminate. }
    apply elem_of_app in H as [H|H].
    { apply passed_inv in H as (s1 & fl1 & _ & _ & [=]). }
    apply Hrest in H as (ev' & <- & Hne). eapply Hne. reflexivity. }
  destruct HS as [e0 HA|vt Hv|vt l1 l2 s0 e0 Hv Hl Hs Hslot|vt rep e0 r Hv HR Hrep].
  - apply list_elem_of_singleton in Hin. injection Hin as -> -> ->. auto.
  - exfalso. apply (Hrest vt all_stages [] Hv).
    + intros ev H. inversion H.
    + rewrite app_nil_r. exact Hin.
  - exfalso. apply (Hrest vt l1 [EvCallback s0 true cmd0 a0 (Some e0)] Hv).
    + intros ev H. apply list_elem_of_singleton in H. subst ev.
      eexists. split; [reflexivity | discriminate].
    + exact Hin.
  - exfalso.
    apply (Hrest vt [StagePersistentPreRun; StagePreRun]
             ([EvCallback StageRun true cmd0 a0 (Some e0)] ++ rep) Hv).
    + intros ev H. exists ev. split; [reflexivity|].
      apply elem_of_app in H as [H|H].
      * apply list_elem_of_singleton in H. subst ev. discriminate.
      * destruct Hrep as (Hrep & _). apply Hrep in H.
        intros c' a' r' ->. discriminate.
    + exact Hin.
Qed.

(** C7. Pre-lifecycle abort: when flag parsing is enabled and parsing the
    effective flag set fails, [execute] returns that error and has logged
    nothing: no validator and no lifecycle callback was called; when the
    validator of the resolved target returns an error, [execute] returns
    that error and the call of the validator is all that it has logged: no
    lifecycle callback was called. *)
Theorem pre_lifecycle_abort (fuel : nat) (c : ptr) (args : list string)
    st st' (tr : list Event) (r : Res (option error)) :
  execute Parse call callE fuel c args st = (st', tr, r) →
  (∀ s1 t1 e,
     DisableFlagParsing (heap st c) = false →
     ParseFlags Parse fuel c args st = (s1, t1, Val (ParseErr e)) →
     st' = s1 ∧ tr = [] ∧ r = Val (Some e)) ∧
  (∀ cmd a e,
     EvValidate cmd a (Some e) ∈ tr →
     tr = [EvValidate cmd a (Some e)] ∧ r = Val (Some e) ∧
     ∃ s1 w, parse_step Parse fuel c args st = (s1, [], Val (ParseOk w)) ∧
             Find (heap st) c w = (cmd, a)).
Proof.
  intros Hex. apply execute_shape in Hex as (s1 & r1 & Hp & Hcase). split.
  - intros s2 t2 e Hd Hparse. unfold parse_step in Hp.
    rewrite Hd, Hparse in Hp. injection Hp as <- -> <-. exact Hcase.
  - intros cmd a e Hin.
    destruct r1 as [[w|e1]|msg|];
      try (destruct Hcase as (_ & -> & _); inversion Hin).
    destruct Hcase as [_ HS].
    destruct (Shape_invalid _ _ _ _ _ _ _ _ _ _ HS Hin) as (Hc & Ha & Htr & Hr).
    split; [exact Htr|]. split; [exact Hr|]. exists s1, w.
    split; [exact Hp|]. destruct (Find (heap st) c w). simpl in *. congruence.
Qed.

Lemma passed_no_run (h : Heap) (cmd : ptr) (a : list string) :
  Run (h cmd) = None → RunE (h cmd) = None → passed h cmd a StageRun = [].
Proof. intros H1 H2. unfold passed. simpl. rewrite H1, H2. reflexivity. Qed.

(** C10, amended. Missing Run is a silent no-op: when the tokens parse
    and the resolved target, which has neither [Run] nor [RunE] set,
    accepts the arguments, [execute] calls no callback for the run stage
    and goes on with the other stages in order; it returns nil, having
    called the callbacks of the four other stages that are set, in
    pipeline order, unless a callback of one of these four stages returns
    an error, which [execute] then returns. *)
Theorem missing_run_is_noop (fuel : nat) (c : ptr) (args : list string)
    st st' (tr : list Event) (r : Res (option error)) s1 (w : list string) :
  execute Parse call callE fuel c args st = (st', tr, r) →
  parse_step Parse fuel c args st = (s1, [], Val (ParseOk w)) →
  Run (heap st (Find (heap st) c w).1) = None →
  RunE (heap st (Find (heap st) c w).1) = None →
  (∀ e, EvValidate (Find (heap st) c w).1 (Find (heap st) c w).2 (Some e) ∉ tr) →
  (∀ ev, ev ∈ tr → stage_of ev ≠ Some StageRun) ∧
  (r = Val None ∨
   ∃ s e, s ≠ StageRun ∧ r = Val (Some e) ∧
          EvCallback s true (Find (heap st) c w).1 (Find (heap st) c w).2
            (Some e) ∈ tr) ∧
  (r = Val None →
   ∃ vt, validated (heap st) (Find (heap st) c w).1 (Find (heap st) c w).2 vt ∧
         tr = vt ++ flat_map
                      (passed (heap st) (Find (heap st) c w).1
                         (Find (heap st) c w).2)
                      [StagePersistentPreRun; StagePreRun; StagePostRun;
                       StagePersistentPostRun]).
Proof.
  intros Hex Hp HRun HRunE Hvalid.
  apply execute_shape in Hex as (s1' & r1 & Hp' & Hcase).
  rewrite Hp in Hp'. injection Hp' as <- <-. destruct Hcase as [_ HS].
  destruct (Find (heap st) c w) as [cmd a]. simpl in *.
  pose proof (passed_no_run (heap st) cmd a HRun HRunE) as Hnone.
  assert (Hpassed : ∀ l ev, ev ∈ flat_map (passed (heap st) cmd a) l →
                            stage_of ev ≠ Some StageRun).
  { intros l ev Hev. apply passed_inv in Hev as (s0 & fl0 & _ & Hev & ->).
    simpl. intros [= ->]. rewrite Hnone in Hev. inversion Hev. }
  destruct HS as [e0 HA|vt Hv|vt l1 l2 s0 e0 Hv Hl Hs Hslot|vt rep e0 r Hv HR Hrep].
  - exfalso. apply (Hvalid e0). left.
  - split; [|split].
    + intros ev Hev. apply elem_of_app in Hev as [Hev|Hev].
      * apply (validated_inv _ _ _ _ _ Hv) in Hev. subst ev. discriminate.
      * eapply Hpassed, Hev.
    + left. reflexivity.
    + intros _. exists vt. split; [exact Hv|].
      unfold all_stages. simpl. rewrite Hnone. reflexivity.
  - split; [|split].
    + intros ev Hev. apply elem_of_app in Hev as [Hev|Hev].
      * apply (validated_inv _ _ _ _ _ Hv) in Hev. subst ev. discriminate.
      * apply elem_of_app in Hev as [Hev|Hev]; [eapply Hpassed, Hev|].
        apply list_elem_of_singleton in Hev. subst ev. simpl. congruence.
    + right. exists s0, e0. split; [exact Hs|]. split; [reflexivity|].
      apply elem_of_app. right. apply elem_of_app. right. left.
    + discriminate.
  - rewrite HRunE in HR. destruct HR as [? [=]].
Qed.

(** The report of a failed run, as [execute] makes it.  When (and only
    when) the run stage fails, [execute] returns the error and reports it
    once, reading [SilenceErrors], [SilenceUsage], the error stream and the
    usage on its receiver, the node [execute] was called on: unless the
    receiver's [SilenceErrors] is set, the error is written exactly once to
    the receiver's error stream, and unless the receiver's [SilenceUsage]
    is set, the usage of the receiver is written exactly once to the
    receiver's output stream.  A run in which the run stage does not fail,
    because it passes, is not reached or an earlier step fails, writes
    nothing. *)
Lemma run_failure_report (fuel : nat) (c : ptr) (args : list string)
    st st' (tr : list Event) (r : Res (option error)) :
  execute Parse call callE fuel c args st = (st', tr, r) →
  rooted fuel (heap st) c →
  (∀ fl cmd a e,
     EvCallback StageRun fl cmd a (Some e) ∈ tr →
     r = Val (Some e) ∧
     ∃ w w',
       ErrOrStderr fuel (heap st) c = Val w ∧
       OutOrStdout fuel (heap st) c = Val w' ∧
       List.filter is_report tr =
         (if SilenceErrors (heap st c) then [] else [EvPrintErr w e]) ++
         (if SilenceUsage (heap st c) then [] else [EvUsage c w'])) ∧
  ((∀ fl cmd a e, EvCallback StageRun fl cmd a (Some e) ∉ tr) →
   List.filter is_report tr = []).
Proof.
  intros Hex Hroot.
  apply execute_shape in Hex as (s1 & r1 & Hp & Hcase).
  destruct r1 as [[w|e1]|msg|];
    try (destruct Hcase as (_ & -> & _);
         split; [intros fl cmd a e Hin; inversion Hin | reflexivity]).
  destruct Hcase as [_ HS]. split.
  - intros fl cmd a e Hin.
    destruct (Shape_failure _ _ _ _ _ _ _ _ _ _ _ _ HS Hin)
      as (_ & _ & _ & _ & _ & before & after & -> & _ & _ & _ & Hrep & _
          & Hquiet).
    destruct (Hrep eq_refl) as (Hall & _ & Hres).
    destruct (Hres Hroot) as (-> & w1 & w2 & Hw1 & Hw2 & Hafter).
    split; [reflexivity|]. exists w1, w2.
    split; [exact Hw1|]. split; [exact Hw2|].
    rewrite List.filter_app. simpl.
    rewrite (filter_none _ before Hquiet), (filter_all _ after Hall).
    exact Hafter.
  - intros Hnone. apply filter_none. intros ev Hev.
    destruct HS as [e0 HA|vt Hv|vt l1 l2 s0 e0 Hv Hl Hs Hslot|vt rep e0 r Hv HR Hrep].
    + apply list_elem_of_singleton in Hev. subst ev. reflexivity.
    + eapply quiet_before; eassumption.
    + rewrite app_assoc in Hev. apply elem_of_app in Hev as [Hev|Hev].
      * eapply quiet_before; eassumption.
      * apply list_elem_of_singleton in Hev. subst ev. reflexivity.
    + exfalso. apply (Hnone true (Find (heap st) c w).1 (Find (heap st) c w).2 e0).
      apply elem_of_app. right. apply elem_of_app. right.
      apply elem_of_app. left. left.
Qed.

End ExecutionProps.

(** ** Concrete runs *)

Lemma demo_execute_eta (fuel : nat) (c : ptr) (args : list string) (h : Heap) :
  execute pflag_Parse demo_call demo_callE fuel c args (mkState h [])
  = ((demo_execute fuel c args h).1.1, (demo_execute fuel c args h).1.2,
     (demo_execute fuel c args h).2).
Proof.
  unfold demo_execute.
  destruct (execute _ _ _ fuel c args _) as [[s t] r]. reflexivity.
Qed.

Lemma rooted_tree_cli : rooted 2 tree_cli 0.
Proof. exists 0. split; [lia | reflexivity]. Qed.

(** [app sub x]: the persistent pre-run and the pre-run of [sub] are
    called, its run fails, and [execute] returns that error. *)
Lemma lifecycle_short_circuit_witness :
  EvCallback StageRun true 1 ["x"] (Some (ErrUser "failed"))
    ∈ (demo_execute 2 0 ["sub"; "x"] tree_cli).1.2 ∧
  ((demo_execute 2 0 ["sub"; "x"] tree_cli).2 = Val (Some (ErrUser "failed")) ∨
   (StageRun = StageRun ∧
    (demo_execute 2 0 ["sub"; "x"] tree_cli).2 = OutOfFuel ∧
    ¬ rooted 2 tree_cli 0)).
Proof.
  assert (Hin : EvCallback StageRun true 1 ["x"] (Some (ErrUser "failed"))
                ∈ (demo_execute 2 0 ["sub"; "x"] tree_cli).1.2).
  { vm_compute. do 3 right. left. }
  split; [exact Hin|].
  destruct (lifecycle_short_circuit pflag_Parse demo_call demo_callE 2 0
              ["sub"; "x"] (mkState tree_cli []) _ _ _ _ _ _ _ _
              (demo_execute_eta 2 0 ["sub"; "x"] tree_cli) Hin)
    as (_ & Hr & _).
  exact Hr.
Defined.

(** C2 fails on the code.  The silence flags are documented per command
    ([SilenceErrors] prevents error messages from being displayed,
    [SilenceUsage] prevents usage from being displayed on errors), and
    validation and all five stages run on the resolved target; but the
    report of a failed run reads the flags, the error stream and the usage
    on the receiver.  In [app sub x] the resolved target [sub] has
    [SilenceErrors] and [SilenceUsage] set and its run fails: the error is
    written to the error stream and the usage of [app] to the output
    stream all the same, because [app], the receiver, sets neither flag.
    Run on [sub] itself, the same failure is reported to the caller only:
    nothing is written. *)
Theorem target_silence_flags_ignored :
  Find tree_cli 0 ["sub"; "x"] = (1, ["x"]) ∧
  SilenceErrors (tree_cli 1) = true ∧ SilenceUsage (tree_cli 1) = true ∧
  ErrOrStderr 2 tree_cli 1 = Val Stderr ∧
  OutOrStdout 2 tree_cli 1 = Val Stdout ∧
  (demo_execute 2 0 ["sub"; "x"] tree_cli).2 = Val (Some (ErrUser "failed")) ∧
  (demo_execute 2 0 ["sub"; "x"] tree_cli).1.2 =
    [EvValidate 1 ["x"] None;
     EvCallback StagePersistentPreRun false 1 ["x"] None;
     EvCallback StagePreRun true 1 ["x"] None;
     EvCallback StageRun true 1 ["x"] (Some (ErrUser "failed"));
     EvPrintErr Stderr (ErrUser "failed");
     EvUsage 0 Stdout] ∧
  (demo_execute 2 1 ["x"] tree_cli).2 = Val (Some (ErrUser "failed")) ∧
  (demo_execute 2 1 ["x"] tree_cli).1.2 =
    [EvValidate 1 ["x"] None;
     EvCallback StagePersistentPreRun false 1 ["x"] None;
     EvCallback StagePreRun true 1 ["x"] None;
     EvCallback StageRun true 1 ["x"] (Some (ErrUser "failed"))].
Proof. repeat split; vm_compute; reflexivity. Qed.

(** The same run, by the lemma on the report: [app] silences nothing, so
    the error goes to its error stream and its usage to its output
    stream, once each. *)
Lemma run_failure_report_witness :
  (demo_execute 2 0 ["sub"; "x"] tree_cli).2 = Val (Some (ErrUser "failed")) ∧
  ∃ w w',
    ErrOrStderr 2 tree_cli 0 = Val w ∧ OutOrStdout 2 tree_cli 0 = Val w' ∧
    List.filter is_report (demo_execute 2 0 ["sub"; "x"] tree_cli).1.2 =
      (if SilenceErrors (tree_cli 0) then []
       else [EvPrintErr w (ErrUser "failed")]) ++
      (if SilenceUsage (tree_cli 0) then [] else [EvUsage 0 w']).
Proof.
  destruct (run_failure_report pflag_Parse demo_call demo_callE 2 0
              ["sub"; "x"] (mkState tree_cli []) _ _ _
              (demo_execute_eta 2 0 ["sub"; "x"] tree_cli) rooted_tree_cli)
    as [Hrun _].
  apply (Hrun true 1 ["x"] (ErrUser "failed")).
  vm_compute. do 3 right. left.
Defined.

(** C4 fails on the code: [execute] has no branch for the help flag.  On
    the command [test], which declares the flag [help] with the shorthand
    [h] and takes exactly one argument, the tokens [--help] and [-h] parse,
    and the validator is then called on the empty remainder and fails; on
    the command [raw], with flag parsing disabled, the token [-h] is an
    argument like any other and the validator [NoArgs] rejects it; with
    [-h x], [test] even runs. *)
Theorem help_flag_still_validated :
  (demo_execute 2 0 ["--help"] tree_help).1.2
    = [EvValidate 0 [] (Some (ErrExactArgs 1 0))] ∧
  (demo_execute 2 0 ["--help"] tree_help).2 = Val (Some (ErrExactArgs 1 0)) ∧
  (demo_execute 2 0 ["-h"] tree_help).1.2
    = [EvValidate 0 [] (Some (ErrExactArgs 1 0))] ∧
  (demo_execute 2 0 ["-h"] tree_help).2 = Val (Some (ErrExactArgs 1 0)) ∧
  (demo_execute 2 1 ["-h"] tree_help).1.2
    = [EvValidate 1 ["-h"] (Some (ErrUnknownCommand "-h" "raw"))] ∧
  (demo_execute 2 1 ["-h"] tree_help).2
    = Val (Some (ErrUnknownCommand "-h" "raw")) ∧
  (demo_execute 2 0 ["-h"; "x"] tree_help).1.2
    = [EvValidate 0 ["x"] None; EvCallback StageRun false 0 ["x"] None] ∧
  (demo_execute 2 0 ["-h"; "x"] tree_help).2 = Val None.
Proof. repeat split; vm_compute; reflexivity. Qed.

(** [app --bogus sub] fails in the parser, [app sub] in the validator of
    [sub], which requires one argument. *)
Lemma pre_lifecycle_abort_witness :
  ((demo_execute 2 0 ["--bogus"; "sub"] tree_cli).1.2 = [] ∧
   (demo_execute 2 0 ["--bogus"; "sub"] tree_cli).2
     = Val (Some (ErrFlag "unknown flag"))) ∧
  ((demo_execute 2 0 ["sub"] tree_cli).1.2
     = [EvValidate 1 [] (Some (ErrMinimumNArgs 1 0))] ∧
   (demo_execute 2 0 ["sub"] tree_cli).2 = Val (Some (ErrMinimumNArgs 1 0))).
Proof.
  split.
  - destruct (pre_lifecycle_abort pflag_Parse demo_call demo_callE 2 0
                ["--bogus"; "sub"] (mkState tree_cli []) _ _ _
                (demo_execute_eta 2 0 ["--bogus"; "sub"] tree_cli))
      as [Hparse _].
    destruct (Hparse
                (ParseFlags pflag_Parse 2 0 ["--bogus"; "sub"]
                   (mkState tree_cli [])).1.1
                (ParseFlags pflag_Parse 2 0 ["--bogus"; "sub"]
                   (mkState tree_cli [])).1.2
                (ErrFlag "unknown flag"))
      as (_ & Htr & Hr).
    + reflexivity.
    + vm_compute. reflexivity.
    + split; [exact Htr | exact Hr].
  - destruct (pre_lifecycle_abort pflag_Parse demo_call demo_callE 2 0
                ["sub"] (mkState tree_cli []) _ _ _
                (demo_execute_eta 2 0 ["sub"] tree_cli))
      as [_ Hvalid].
    destruct (Hvalid 1 [] (ErrMinimumNArgs 1 0)) as (Htr & Hr & _).
    + vm_compute. left.
    + split; [exact Htr | exact Hr].
Defined.

(** C10, as stated, fails: [noopfail] has neither [Run] nor [RunE] and no
    validator, and the tokens of [app noopfail y] parse; [execute] does
    not return nil but the error of the [PostRunE] of [noopfail], and the
    [PersistentPostRun] of [noopfail] is not called. *)
Lemma missing_run_counterexample :
  Find tree_cli 0 ["noopfail"; "y"] = (3, ["y"]) ∧
  Run (tree_cli 3) = None ∧ RunE (tree_cli 3) = None ∧
  Args (tree_cli 3) = None ∧ PersistentPostRun (tree_cli 3) = Some 8 ∧
  (parse_step pflag_Parse 2 0 ["noopfail"; "y"] (mkState tree_cli [])).2
    = Val (ParseOk ["noopfail"; "y"]) ∧
  (demo_execute 2 0 ["noopfail"; "y"] tree_cli).2
    = Val (Some (ErrUser "failed")) ∧
  (demo_execute 2 0 ["noopfail"; "y"] tree_cli).1.2 =
    [EvCallback StagePreRun false 3 ["y"] None;
     EvCallback StagePostRun true 3 ["y"] (Some (ErrUser "failed"))].
Proof. repeat split; vm_compute; reflexivity. Qed.

(** [app noop -v]: [noop] has neither [Run] nor [RunE]; its pre-run and
    its post-run are called and [execute] returns nil. *)
Lemma missing_run_is_noop_witness :
  (∀ ev, ev ∈ (demo_execute 2 0 ["noop"; "-v"] tree_cli).1.2 →
         stage_of ev ≠ Some StageRun) ∧
  ((demo_execute 2 0 ["noop"; "-v"] tree_cli).2 = Val None ∨
   ∃ s e, s ≠ StageRun ∧
          (demo_execute 2 0 ["noop"; "-v"] tree_cli).2 = Val (Some e) ∧
          EvCallback s true 2 [] (Some e)
            ∈ (demo_execute 2 0 ["noop"; "-v"] tree_cli).1.2).
Proof.
  destruct (missing_run_is_noop pflag_Parse demo_call demo_callE 2 0
              ["noop"; "-v"] (mkState tree_cli []) _ _ _
              (parse_step pflag_Parse 2 0 ["noop"; "-v"]
                 (mkState tree_cli [])).1.1
              ["noop"]
              (demo_execute_eta 2 0 ["noop"; "-v"] tree_cli))
    as (Hnorun & Hres & _).
  - vm_compute. reflexivity.
  - reflexivity.
  - reflexivity.
  - intros e Hin. vm_compute in Hin.
    apply elem_of_cons in Hin as [Hin|Hin]; [discriminate|].
    apply elem_of_cons in Hin as [Hin|Hin]; [discriminate|].
    apply list_elem_of_singleton in Hin. discriminate.
  - split; [exact Hnorun | exact Hres].
Defined.

(* ================================================================== *)
(** * Further properties of the command tree *)

(** ** Names *)

Lemma index_space_cons (b : ascii) (s : string) :
  String.index 0 " " (String b s) =
  if ascii_dec " " b then Some 0 else S <$> String.index 0 " " s.
Proof.
  cbn [String.index String.prefix].
  destruct (ascii_dec " " b).
  - destruct s; reflexivity.
  - destruct (String.index 0 " " s); reflexivity.
Qed.

Lemma index_space_split (s : string) (i : nat) :
  String.index 0 " " s = Some i →
  String.index 0 " " (String.substring 0 i s) = None ∧
  ∃ rest, s = String.substring 0 i s +:+ " " +:+ rest.
Proof.
  revert i. induction s as [|b s IH]; intros i.
  - discriminate.
  - rewrite index_space_cons. destruct (ascii_dec " " b) as [<-|Hb].
    + intros [= <-]. split; [reflexivity|]. exists s. reflexivity.
    + destruct (String.index 0 " " s) as [j|]; [|discriminate].
      intros [= <-]. destruct (IH j eq_refl) as [Hnone [rest Hrest]].
      cbn [String.substring]. split.
      * rewrite index_space_cons, Hnone.
        destruct (ascii_dec " " b); [contradiction | reflexivity].
      * exists rest. rewrite Hrest at 1. reflexivity.
Qed.

(** X1. [Name] returns the first word of the usage string: the name
    contains no space, and the usage string is the name itself or the name
    followed by a space and the rest; a token that contains a space is the
    name of no command. *)
Theorem Name_first_word (c : Command) :
  String.index 0 " " (Name c) = None ∧
  (Use c = Name c ∨ ∃ rest, Use c = Name c +:+ " " +:+ rest) ∧
  (∀ tok, is_Some (String.index 0 " " tok) → Name c ≠ tok).
Proof.
  assert (Hnone : String.index 0 " " (Name c) = None).
  { unfold Name. destruct (String.index 0 " " (Use c)) as [i|] eqn:Hi.
    - apply index_space_split in Hi as [Hi _]. exact Hi.
    - exact Hi. }
  split; [exact Hnone|]. split.
  - unfold Name. destruct (String.index 0 " " (Use c)) as [i|] eqn:Hi.
    + right. apply index_space_split in Hi as [_ Hi]. exact Hi.
    + left. reflexivity.
  - intros tok [i Hi] <-. congruence.
Qed.

(** The command [greet [name]] of the example tree is called [greet]. *)
Lemma Name_first_word_witness :
  Name (tree_find 1) = "greet" ∧
  String.index 0 " " (Name (tree_find 1)) = None ∧
  Use (tree_find 1) = Name (tree_find 1) +:+ " " +:+ "[name]" ∧
  Name (tree_find 1) ≠ "greet [name]".
Proof.
  destruct (Name_first_word (tree_find 1)) as (Hnone & _ & Htok).
  split; [reflexivity|]. split; [exact Hnone|]. split; [reflexivity|].
  apply Htok. exists 5. reflexivity.
Defined.

(** ** Resolution as a whole *)

Lemma Find_child_first_match (h : Heap) (c : ptr) (tok : string) (cmd : ptr) :
  Find_child h (commands (h c)) tok = Some cmd ↔ first_match h c tok cmd.
Proof. apply Find_child_Some. Qed.

Lemma Find_resolves_sound (h : Heap) (args : list string) :
  ∀ c, ∃ consumed,
    args = consumed ++ (Find h c args).2 ∧
    resolves h c consumed (Find h c args).1 ∧
    ((Find h c args).2 = [] ∨
     ∃ tok rest, (Find h c args).2 = tok :: rest ∧
                 ∀ cmd, cmd ∈ commands (h (Find h c args).1) →
                        ¬ matches h cmd tok).
Proof.
  induction args as [|tok rest IH]; intros c.
  - exists []. split; [reflexivity|]. split; [constructor | left; reflexivity].
  - cbn [Find].
    destruct (Find_child h (commands (h c)) tok) as [cmd|] eqn:Hc.
    + destruct (IH cmd) as (consumed & Hargs & Hres & Hmax).
      exists (tok :: consumed). split; [simpl; congruence|].
      split; [|exact Hmax].
      econstructor; [|exact Hres]. apply Find_child_first_match, Hc.
    + exists []. split; [reflexivity|]. split; [constructor|].
      right. exists tok, rest. split; [reflexivity|].
      apply Find_child_None, Hc.
Qed.

Lemma resolves_Find (h : Heap) (c t : ptr) (consumed : list string) :
  resolves h c consumed t →
  ∀ rem, Find h c (consumed ++ rem) = Find h t rem.
Proof.
  induction 1 as [c|c cmd t tok rest Hfirst _ IH]; intros rem; [reflexivity|].
  apply Find_child_first_match in Hfirst.
  rewrite <- app_comm_cons. cbn [Find]. rewrite Hfirst. apply IH.
Qed.

Lemma Find_stuck (h : Heap) (t : ptr) (rem : list string) :
  rem = [] ∨
  (∃ tok rest, rem = tok :: rest ∧
               ∀ cmd, cmd ∈ commands (h t) → ¬ matches h cmd tok) →
  Find h t rem = (t, rem).
Proof.
  intros [->|(tok & rest & -> & Hnone)]; [reflexivity|].
  cbn [Find]. apply Find_child_None in Hnone. rewrite Hnone. reflexivity.
Qed.

(** X2. What [Find] computes: it returns the node [t] and the remainder
    [rem] exactly when the tokens are a consumed path followed by [rem],
    the path leads from the receiver to [t] by entering, token after token,
    the first child in registration order whose name or alias is the
    token, and the descent cannot go on: [rem] is empty, or its first token
    matches no child of [t].  Resolution is greedy and never fails. *)
Theorem Find_longest_path (h : Heap) (c t : ptr) (args rem : list string) :
  Find h c args = (t, rem) ↔
  ∃ consumed,
    args = consumed ++ rem ∧ resolves h c consumed t ∧
    (rem = [] ∨
     ∃ tok rest, rem = tok :: rest ∧
                 ∀ cmd, cmd ∈ commands (h t) → ¬ matches h cmd tok).
Proof.
  split.
  - intros HF. destruct (Find_resolves_sound h args c) as (l & Ha & Hr & Hm).
    rewrite HF in Ha, Hr, Hm. exists l. auto.
  - intros (l & -> & Hr & Hm).
    rewrite (resolves_Find _ _ _ _ Hr). apply Find_stuck, Hm.
Qed.

(** On the example tree, [hi all --x] is the path [hi], [all] from [root]
    to [all], and [--x] matches no child of [all]. *)
Lemma Find_longest_path_witness :
  Find tree_find 0 ["hi"; "all"; "--x"] = (3, ["--x"]) ∧
  ∃ consumed,
    ["hi"; "all"; "--x"] = consumed ++ ["--x"] ∧
    resolves tree_find 0 consumed 3.
Proof.
  assert (HF : Find tree_find 0 ["hi"; "all"; "--x"] = (3, ["--x"])).
  { reflexivity. }
  split; [exact HF|].
  destruct (proj1 (Find_longest_path tree_find 0 3 _ _) HF)
    as (consumed & Ha & Hr & _).
  exists consumed. split; [exact Ha | exact Hr].
Defined.

(** X3. Resolution composes and is stable: when a first list of tokens is
    consumed entirely and leads to a node, resolving the tokens followed by
    more tokens is resolving the additional tokens from that node; and
    resolving the remainder again from the resolved node changes
    nothing. *)
Theorem Find_compose (h : Heap) (c : ptr) (args : list string) :
  (∀ t more, Find h c args = (t, []) →
             Find h c (args ++ more) = Find h t more) ∧
  Find h (Find h c args).1 (Find h c args).2 = Find h c args.
Proof.
  split.
  - intros t more HF.
    destruct (Find_resolves_sound h args c) as (l & Ha & Hr & _).
    rewrite HF in Ha, Hr. simpl in Ha, Hr.
    rewrite app_nil_r in Ha. subst l. apply resolves_Find, Hr.
  - destruct (Find_resolves_sound h args c) as (l & _ & _ & Hm).
    destruct (Find h c args) as [t rem]. simpl in *. apply Find_stuck, Hm.
Qed.

(** On the example tree, [hi] leads to [greet], and [hi all] is resolved
    as [all] from [greet]. *)
Lemma Find_compose_witness :
  Find tree_find 0 (["hi"] ++ ["all"]) = Find tree_find 1 ["all"].
Proof.
  destruct (Find_compose tree_find 0 ["hi"]) as [Happ _].
  apply Happ. reflexivity.
Defined.

(** ** Relations between the standard validators *)

(** X4. The standard validators, compared and at their limits:
    [RangeArgs(min, max)] accepts what both [MinimumNArgs(min)] and
    [MaximumNArgs(max)] accept; [ExactArgs(n)] accepts what
    [RangeArgs(n, n)] accepts; [NoArgs] accepts what [ExactArgs(0)] and
    [MaximumNArgs(0)] accept.  The bounds are not checked when a validator
    is built: [MinimumNArgs] of a bound that is not positive accepts every
    argument list, while [ExactArgs] and [MaximumNArgs] of a negative count
    and [RangeArgs] of an empty range reject every argument list, the empty
    one included. *)
Theorem validators_compared (cmd : Command) (args : list string) :
  (∀ min max,
     RangeArgs min max cmd args = None ↔
     MinimumNArgs min cmd args = None ∧ MaximumNArgs max cmd args = None) ∧
  (∀ n, ExactArgs n cmd args = None ↔ RangeArgs n n cmd args = None) ∧
  (NoArgs cmd args = None ↔ ExactArgs 0 cmd args = None) ∧
  (NoArgs cmd args = None ↔ MaximumNArgs 0 cmd args = None) ∧
  (∀ n, (n ≤ 0)%Z → MinimumNArgs n cmd args = None) ∧
  (∀ n, (n < 0)%Z →
        ExactArgs n cmd args = Some (ErrExactArgs n (length args)) ∧
        MaximumNArgs n cmd args = Some (ErrMaximumNArgs n (length args))) ∧
  (∀ min max, (max < min)%Z →
        RangeArgs min max cmd args
          = Some (ErrRangeArgs min max (length args))).
Proof.
  unfold RangeArgs, MinimumNArgs, MaximumNArgs, ExactArgs, NoArgs.
  repeat split; intros;
    repeat (case_bool_decide; simpl in * ); simpl;
    try reflexivity; try discriminate; try lia;
    repeat match goal with H : _ ∧ _ |- _ => destruct H end;
    try discriminate; try lia.
Qed.

(** [ExactArgs(-1)] rejects the empty argument list, and [MinimumNArgs(0)]
    accepts it. *)
Lemma validators_compared_witness :
  MinimumNArgs 0 zeroCommand [] = None ∧
  ExactArgs (-1) zeroCommand [] = Some (ErrExactArgs (-1) 0) ∧
  RangeArgs 2 1 zeroCommand ["a"] = Some (ErrRangeArgs 2 1 1).
Proof.
  destruct (validators_compared zeroCommand [])
    as (_ & _ & _ & _ & Hmin & Hneg & _).
  destruct (validators_compared zeroCommand ["a"])
    as (_ & _ & _ & _ & _ & _ & Hrange).
  split; [apply Hmin; lia|]. split; [apply Hneg; lia|]. apply Hrange; lia.
Defined.

(** ** Building the tree, continued *)

(** [AddCommand] and [RemoveCommand] write to the child lists and to the
    parent back-references only. *)
Lemma edges_only_eq (a b : Command) :
  set_commands [] (set_parent None a) = set_commands [] (set_parent None b) →
  commands a = commands b → parent a = parent b → a = b.
Proof.
  destruct a, b. unfold set_commands, set_parent. simpl.
  intros [= -> -> -> -> -> -> -> -> -> -> -> -> -> -> -> -> -> -> -> -> ->]
         -> ->.
  reflexivity.
Qed.

Lemma AddCommand_edges_only (cmds : list ptr) :
  ∀ (h : Heap) (c x : ptr),
  set_commands [] (set_parent None ((AddCommand h c cmds).1 x))
  = set_commands [] (set_parent None (h x)).
Proof.
  induction cmds as [|cmd rest IH]; intros h c x; [reflexivity|].
  cbn [AddCommand]. case_bool_decide as Hc; [reflexivity|].
  cbv zeta. rewrite IH.
  destruct (decide (c = x)) as [->|Hx].
  - rewrite fn_lookup_insert, fn_lookup_insert_ne by exact Hc. reflexivity.
  - rewrite fn_lookup_insert_ne by exact Hx.
    destruct (decide (cmd = x)) as [->|Hx'].
    + rewrite fn_lookup_insert. reflexivity.
    + rewrite fn_lookup_insert_ne by exact Hx'. reflexivity.
Qed.

Lemma RemoveCommand_loop_edges_only (cmds children : list ptr) :
  ∀ (h : Heap) (kept : list ptr) (x : ptr),
  set_commands [] (set_parent None
    ((RemoveCommand_loop h children cmds kept).1 x))
  = set_commands [] (set_parent None (h x)).
Proof.
  induction children as [|command rest IH]; intros h kept x; [reflexivity|].
  cbn [RemoveCommand_loop]. destruct (RemoveCommand_match command cmds).
  - rewrite IH. destruct (decide (command = x)) as [->|Hx].
    + rewrite fn_lookup_insert. reflexivity.
    + rewrite fn_lookup_insert_ne by exact Hx. reflexivity.
  - apply IH.
Qed.

Lemma RemoveCommand_edges_only (h : Heap) (c : ptr) (cmds : list ptr) (x : ptr) :
  set_commands [] (set_parent None (RemoveCommand h c cmds x))
  = set_commands [] (set_parent None (h x)).
Proof.
  unfold RemoveCommand.
  pose proof (RemoveCommand_loop_edges_only cmds (commands (h c)) h []) as H.
  destruct (RemoveCommand_loop h (commands (h c)) cmds []) as [h1 kept].
  simpl in H. destruct (decide (c = x)) as [->|Hx].
  - rewrite fn_lookup_insert, <- H. reflexivity.
  - rewrite fn_lookup_insert_ne by exact Hx. apply H.
Qed.

Lemma filter_fixed (P : ptr → Prop) `{∀ x, Decision (P x)} (l : list ptr) :
  (∀ x, x ∈ l → P x) → filter P l = l.
Proof.
  induction l as [|a l IH]; intros Hall; [reflexivity|].
  rewrite filter_cons_True by (apply Hall; left).
  f_equal. apply IH. intros x Hx. apply Hall. right. exact Hx.
Qed.

Lemma filter_empty (P : ptr → Prop) `{∀ x, Decision (P x)} (l : list ptr) :
  (∀ x, x ∈ l → ¬ P x) → filter P l = [].
Proof.
  induction l as [|a l IH]; intros Hall; [reflexivity|].
  rewrite filter_cons_False by (apply Hall; left).
  apply IH. intros x Hx. apply Hall. right. exact Hx.
Qed.

(** X5. A variadic [AddCommand] is the sequence of its single additions:
    adding a list followed by another is adding the first list and then,
    if that returned, the second one to the result; when the first part
    panics, the call ends there, in the state the first part has
    reached. *)
Theorem AddCommand_in_sequence (h : Heap) (c : ptr) (pre post : list ptr) :
  AddCommand h c (pre ++ post) =
  match AddCommand h c pre with
  | (h1, Val _) => AddCommand h1 c post
  | (h1, r) => (h1, r)
  end.
Proof.
  revert h. induction pre as [|cmd rest IH]; intros h; [reflexivity|].
  rewrite <- app_comm_cons. cbn [AddCommand].
  case_bool_decide; [reflexivity|]. cbv zeta. apply IH.
Qed.

(** X6. [RemoveCommand] is local and idempotent: none of its arguments is
    a child of the receiver afterwards; the child lists of the other nodes
    are as before, so a node stays listed by any other node that lists it;
    the parent of a node that is not both a child of the receiver and an
    argument is as before; nothing but child lists and parent
    back-references is written; repeating the call changes nothing; and a
    call none of whose arguments is a child of the receiver changes
    nothing. *)
Theorem RemoveCommand_local (h : Heap) (c : ptr) (cmds : list ptr) :
  (∀ x, x ∈ cmds → x ∉ commands (RemoveCommand h c cmds c)) ∧
  (∀ y, y ≠ c → commands (RemoveCommand h c cmds y) = commands (h y)) ∧
  (∀ x, x ∉ commands (h c) ∨ x ∉ cmds →
        parent (RemoveCommand h c cmds x) = parent (h x)) ∧
  (∀ x, RemoveCommand (RemoveCommand h c cmds) c cmds x
        = RemoveCommand h c cmds x) ∧
  ((∀ x, x ∈ cmds → x ∉ commands (h c)) →
   ∀ x, RemoveCommand h c cmds x = h x).
Proof.
  destruct (RemoveCommand_spec h c cmds) as [Hcmds Hpar].
  assert (Hc : commands (RemoveCommand h c cmds c)
               = filter (λ y, y ∉ cmds) (commands (h c))).
  { rewrite Hcmds, bool_decide_eq_true_2 by reflexivity. reflexivity. }
  split; [|split; [|split; [|split]]].
  - intros x Hx. rewrite Hc. intros Hin.
    apply list_elem_of_filter in Hin as [Hn _]. contradiction.
  - intros y Hy. rewrite Hcmds, bool_decide_eq_false_2 by exact Hy.
    reflexivity.
  - intros x Hx. rewrite Hpar, bool_decide_eq_false_2 by tauto. reflexivity.
  - intros x.
    destruct (RemoveCommand_spec (RemoveCommand h c cmds) c cmds)
      as [Hcmds' Hpar'].
    apply edges_only_eq.
    + apply RemoveCommand_edges_only.
    + rewrite Hcmds'. case_bool_decide as Hx; [|reflexivity]. subst x.
      rewrite Hc. apply filter_fixed. intros y Hy.
      apply list_elem_of_filter in Hy as [Hn _]. exact Hn.
    + rewrite Hpar', bool_decide_eq_false_2; [reflexivity|].
      rewrite Hc. intros [Hin Hx].
      apply list_elem_of_filter in Hin as [Hn _]. contradiction.
  - intros Hnone x. apply edges_only_eq.
    + apply RemoveCommand_edges_only.
    + rewrite Hcmds. case_bool_decide as Hx; [|reflexivity]. subst x.
      apply filter_fixed. intros y Hy Hin. exact (Hnone y Hin Hy).
    + rewrite Hpar, bool_decide_eq_false_2; [reflexivity|].
      intros [Hin Hx]. exact (Hnone x Hx Hin).
Qed.

(** On the example tree: removing [greet] from [root] leaves [list], keeps
    the children of [greet], and removing the grandchild [all] from [root]
    changes nothing. *)
Lemma RemoveCommand_local_witness :
  (1 ∉ commands (RemoveCommand tree_find 0 [1] 0)) ∧
  commands (RemoveCommand tree_find 0 [1] 1) = [3] ∧
  parent (RemoveCommand tree_find 0 [3] 3) = Some 1 ∧
  (∀ x, RemoveCommand tree_find 0 [3] x = tree_find x).
Proof.
  destruct (RemoveCommand_local tree_find 0 [1]) as (Hgone & Hother & _).
  destruct (RemoveCommand_local tree_find 0 [3]) as (_ & _ & Hpar & _ & Hnop).
  split; [apply Hgone; left|].
  split; [apply (Hother 1); lia|].
  split; [apply (Hpar 3); left; compute_done|].
  apply Hnop. intros x Hx. apply list_elem_of_singleton in Hx. subst x.
  compute_done.
Defined.

(** X7. Adding and removing undo each other: when nodes that have no
    parent and are not yet children of the receiver are added to it and
    then removed from it, every node is as it was. *)
Theorem AddCommand_RemoveCommand_undo (h : Heap) (c : ptr) (cmds : list ptr) :
  (c ∉ cmds) →
  (∀ x, x ∈ cmds → (x ∉ commands (h c)) ∧ parent (h x) = None) →
  ∃ h1, AddCommand h c cmds = (h1, Val ()) ∧
        ∀ y, RemoveCommand h1 c cmds y = h y.
Proof.
  intros Hc Hnew.
  destruct (AddCommand_returns cmds h c Hc) as (h1 & Hrun & Hcmds & Hpar).
  exists h1. split; [exact Hrun|]. intros y.
  destruct (RemoveCommand_spec h1 c cmds) as [Hcmds' Hpar'].
  apply edges_only_eq.
  - rewrite RemoveCommand_edges_only.
    pose proof (AddCommand_edges_only cmds h c y) as He.
    rewrite Hrun in He. exact He.
  - rewrite Hcmds'. case_bool_decide as Hy.
    + subst y. rewrite Hcmds, bool_decide_eq_true_2 by reflexivity.
      rewrite filter_app, filter_fixed.
      * rewrite filter_empty; [apply app_nil_r|].
        intros x Hx Hn. contradiction.
      * intros x Hx Hin. destruct (Hnew x Hin) as [Hn _]. contradiction.
    + rewrite Hcmds, bool_decide_eq_false_2 by exact Hy. reflexivity.
  - rewrite Hpar'. destruct (decide (y ∈ cmds)) as [Hy|Hy].
    + rewrite bool_decide_eq_true_2.
      * destruct (Hnew y Hy) as [_ ->]. reflexivity.
      * split; [|exact Hy].
        rewrite Hcmds, bool_decide_eq_true_2 by reflexivity.
        apply elem_of_app. right. exact Hy.
    + rewrite bool_decide_eq_false_2 by tauto.
      rewrite Hpar, bool_decide_eq_false_2 by exact Hy. reflexivity.
Qed.

(** [root.AddCommand(a, b)] then [root.RemoveCommand(a, b)] on fresh
    nodes. *)
Lemma AddCommand_RemoveCommand_undo_witness :
  ∃ h1, AddCommand emptyHeap 0 [1; 2] = (h1, Val ()) ∧
        ∀ y, RemoveCommand h1 0 [1; 2] y = emptyHeap y.
Proof.
  apply (AddCommand_RemoveCommand_undo emptyHeap 0 [1; 2]).
  - compute_done.
  - intros x _. split; [apply not_elem_of_nil | reflexivity].
Defined.

(** ** The root of a node, and cycles *)

Lemma Root_mono (h : Heap) (fuel : nat) :
  ∀ c r, Root fuel h c = Val r → Root (S fuel) h c = Val r.
Proof.
  induction fuel as [|fuel IH]; intros c r; [discriminate|].
  intros H. simpl in *. destruct (parent (h c)) as [p|]; [|exact H].
  apply IH, H.
Qed.

Lemma Root_depth (h : Heap) (k : nat) :
  ∀ fuel c, depth_is k h c → k < fuel →
  ∃ r, Root fuel h c = Val r ∧ reaches k h c r ∧ parent (h r) = None.
Proof.
  induction k as [|k IH]; intros fuel c Hd Hlt;
    (destruct fuel as [|fuel]; [lia|]); simpl in *.
  - rewrite Hd. exists c. auto.
  - destruct Hd as (p & Hp & Hd). rewrite Hp.
    destruct (IH fuel p Hd) as (r & HR & Hreach & Hroot); [lia|].
    exists r. split; [exact HR|]. split; [exists p; auto | exact Hroot].
Qed.

(** Walking up from [c] gives the same result in two heaps that agree on
    the parent of [c] and of its ancestors. *)
Lemma Root_same_chain (h h' : Heap) (fuel : nat) :
  ∀ c, (∀ j y, reaches j h c y → parent (h' y) = parent (h y)) →
       Root fuel h' c = Root fuel h c.
Proof.
  induction fuel as [|fuel IH]; intros c Hsame; [reflexivity|]. simpl.
  rewrite (Hsame 0 c eq_refl).
  destruct (parent (h c)) as [p|] eqn:Hp; [|reflexivity].
  apply IH. intros j y Hr. apply (Hsame (S j)). exists p. auto.
Qed.

Lemma depth_is_same_chain (h h' : Heap) (k : nat) :
  ∀ c, (∀ j y, reaches j h c y → parent (h' y) = parent (h y)) →
       depth_is k h c → depth_is k h' c.
Proof.
  induction k as [|k IH]; intros c Hsame; simpl.
  - rewrite (Hsame 0 c eq_refl). auto.
  - intros (p & Hp & Hd). exists p. rewrite (Hsame 0 c eq_refl).
    split; [exact Hp|]. apply IH; [|exact Hd].
    intros j y Hr. apply (Hsame (S j)). exists p. auto.
Qed.

(** On a parent chain that never ends, the methods that walk up to the
    root do not return. *)
Lemma endless_chain (h : Heap) (I : ptr → Prop) :
  (∀ x, I x → ∃ p, parent (h x) = Some p ∧ I p) →
  ∀ fuel x, I x →
    Root fuel h x = OutOfFuel ∧ UseLine fuel h x = OutOfFuel ∧
    ∀ k, ¬ depth_is k h x.
Proof.
  intros Hstep fuel x Hx. split; [|split].
  - revert x Hx. induction fuel as [|fuel IH]; intros x Hx; [reflexivity|].
    simpl. destruct (Hstep x Hx) as (p & -> & Hp). apply IH, Hp.
  - revert x Hx. induction fuel as [|fuel IH]; intros x Hx; [reflexivity|].
    simpl. destruct (Hstep x Hx) as (p & -> & Hp). rewrite (IH p Hp).
    reflexivity.
  - intros k. revert x Hx. induction k as [|k IH]; intros x Hx; simpl.
    + destruct (Hstep x Hx) as (p & -> & _). discriminate.
    + intros (p & Hp & Hd). destruct (Hstep x Hx) as (p' & Hp' & HI).
      apply (IH p'); [exact HI|]. congruence.
Qed.

Lemma endless_merge {W : Type} (I : ptr → Prop) (fuel : nat) :
  ∀ (x : ptr) (st : @State W),
  (∀ y, I y → ∃ p, parent (heap st y) = Some p ∧ I p) → I x →
  mergePersistentFlags fuel x st = (st, [], OutOfFuel).
Proof.
  induction fuel as [|fuel IH]; intros x st Hstep Hx; [reflexivity|].
  cbn [mergePersistentFlags]. rewrite bind_get_heap.
  destruct (Hstep x Hx) as (p & -> & Hp).
  unfold bind at 1. unfold bind at 1. rewrite (IH p st Hstep Hp).
  reflexivity.
Qed.

(** X8. [Root] on a tree: for a node whose parent chain ends, [Root]
    returns the node at the end of the chain, which has no parent and is
    its own root; the root of a node is the root of its parent; and a node
    is its own root exactly when it has no parent. *)
Theorem Root_of_tree (h : Heap) (c : ptr) (k fuel : nat) :
  depth_is k h c → k < fuel →
  ∃ r, Root fuel h c = Val r ∧ reaches k h c r ∧
       HasParent h r = false ∧ Root fuel h r = Val r ∧
       (∀ p, Parent h c = Some p → Root fuel h p = Val r) ∧
       (r = c ↔ HasParent h c = false).
Proof.
  intros Hd Hlt.
  destruct (Root_depth h k fuel c Hd Hlt) as (r & HR & Hreach & Hroot).
  exists r. split; [exact HR|]. split; [exact Hreach|].
  destruct fuel as [|fuel]; [lia|].
  split; [|split; [|split]].
  - unfold HasParent. rewrite Hroot. reflexivity.
  - simpl. rewrite Hroot. reflexivity.
  - unfold Parent. intros p Hp. apply Root_mono.
    simpl in HR. rewrite Hp in HR. exact HR.
  - unfold HasParent. simpl in HR. split.
    + intros ->. rewrite Hroot. reflexivity.
    + intros Hn. apply bool_decide_eq_false in Hn.
      destruct (parent (h c)) as [p|]; [exfalso; apply Hn; discriminate|].
      congruence.
Qed.

(** On the example tree, the root of [all] is [root]. *)
Lemma Root_of_tree_witness :
  ∃ r, Root 3 tree_find 3 = Val r ∧ reaches 2 tree_find 3 r ∧
       HasParent tree_find r = false ∧ Root 3 tree_find r = Val r ∧
       (∀ p, Parent tree_find 3 = Some p → Root 3 tree_find p = Val r) ∧
       (r = 3 ↔ HasParent tree_find 3 = false).
Proof.
  apply (Root_of_tree tree_find 3 2 3); [|lia].
  exists 1. split; [reflexivity|]. exists 0. split; reflexivity.
Defined.

(** X9. [AddCommand] extends a tree: when none of the added nodes is the
    receiver or one of its ancestors, the call returns, the receiver keeps
    its root and its depth and lists the added nodes after its former
    children, and each added node is one level below the
    receiver, has a parent, and has the root of the receiver as its root;
    the receiver then has subcommands. *)
Theorem AddCommand_joins_tree (h : Heap) (c : ptr) (cmds : list ptr)
    (k fuel : nat) :
  depth_is k h c → k < fuel →
  (∀ j y, reaches j h c y → y ∉ cmds) →
  ∃ h', AddCommand h c cmds = (h', Val ()) ∧
        Root fuel h' c = Root fuel h c ∧ depth_is k h' c ∧
        Commands h' c = Commands h c ++ cmds ∧
        (cmds ≠ [] → HasSubCommands h' c = true) ∧
        ∀ x, x ∈ cmds →
             HasParent h' x = true ∧ Parent h' x = Some c ∧
             depth_is (S k) h' x ∧ Root (S fuel) h' x = Root fuel h c.
Proof.
  intros Hd Hlt Hchain.
  assert (Hc : c ∉ cmds) by (apply (Hchain 0); reflexivity).
  destruct (AddCommand_returns cmds h c Hc) as (h' & Hrun & Hcmds & Hpar).
  assert (Hsame : ∀ j y, reaches j h c y → parent (h' y) = parent (h y)).
  { intros j y Hr. rewrite Hpar, bool_decide_eq_false_2 by eauto.
    reflexivity. }
  exists h'. split; [exact Hrun|].
  split; [apply Root_same_chain, Hsame|].
  split; [apply (depth_is_same_chain h h' k c Hsame Hd)|].
  split.
  { unfold Commands. rewrite Hcmds, bool_decide_eq_true_2 by reflexivity.
    reflexivity. }
  split.
  - intros Hne. unfold HasSubCommands. apply bool_decide_eq_true_2.
    rewrite Hcmds, bool_decide_eq_true_2, length_app by reflexivity.
    destruct cmds; [contradiction | simpl; lia].
  - intros x Hx.
    assert (Hp : parent (h' x) = Some c).
    { rewrite Hpar, bool_decide_eq_true_2 by exact Hx. reflexivity. }
    unfold HasParent, Parent. rewrite Hp.
    split; [reflexivity|]. split; [reflexivity|]. split.
    + exists c. split; [exact Hp|].
      apply (depth_is_same_chain h h' k c Hsame Hd).
    + simpl. rewrite Hp. apply Root_same_chain, Hsame.
Qed.

(** Adding a fresh node [new] (4) below [all] (3) in the example tree. *)
Lemma AddCommand_joins_tree_witness :
  ∃ h', AddCommand tree_find 3 [4] = (h', Val ()) ∧
        Root 3 h' 3 = Val 0 ∧ Root 4 h' 4 = Val 0 ∧ depth_is 3 h' 4.
Proof.
  destruct (AddCommand_joins_tree tree_find 3 [4] 2 3)
    as (h' & Hrun & Hroot & _ & _ & _ & Hnew).
  - exists 1. split; [reflexivity|]. exists 0. split; reflexivity.
  - lia.
  - intros j y Hr Hy. apply list_elem_of_singleton in Hy. subst y.
    destruct j as [|[|[|j]]]; simpl in Hr.
    + discriminate.
    + destruct Hr as (p & [= <-] & Hr). discriminate.
    + destruct Hr as (p & [= <-] & q & [= <-] & Hr). discriminate.
    + destruct Hr as (p & [= <-] & q & [= <-] & q' & Hq & _). discriminate.
  - destruct (Hnew 4) as (_ & _ & Hdepth & Hroot4); [left|].
    exists h'. split; [exact Hrun|].
    split; [rewrite Hroot; reflexivity|].
    split; [rewrite Hroot4; reflexivity | exact Hdepth].
Defined.

(** X10. [AddCommand] guards against the receiver itself only: given an
    ancestor of the receiver, it returns and closes a cycle of parent
    links: the added node is then its own ancestor.  From then on the methods that walk up the parent chain of the
    receiver do not return: [Root] and [UseLine] do not, no node of the
    cycle has a depth, and [execute] on the receiver, with flag parsing
    enabled, does not get past the merge of the persistent flags: it calls
    no validator and no callback. *)
Theorem AddCommand_accepts_cycle (h : Heap) (c r : ptr) (k : nat) :
  reaches k h c r → r ≠ c →
  ∃ h', AddCommand h c [r] = (h', Val ()) ∧
        Parent h' r = Some c ∧ (∃ j, reaches (S j) h' r r) ∧
        ∀ fuel,
          Root fuel h' c = OutOfFuel ∧ UseLine fuel h' c = OutOfFuel ∧
          ¬ rooted fuel h' c ∧
          ∀ (W : Type) Parse call callE (args : list string) (w : W),
            DisableFlagParsing (h' c) = false →
            execute Parse call callE fuel c args (mkState h' w)
            = (mkState h' w, [], OutOfFuel).
Proof.
  intros Hreach Hne.
  assert (Hc : c ∉ [r]).
  { intros H. apply list_elem_of_singleton in H. congruence. }
  destruct (AddCommand_returns [r] h c Hc) as (h' & Hrun & _ & Hpar).
  assert (Hr : parent (h' r) = Some c).
  { rewrite Hpar, bool_decide_eq_true_2 by left. reflexivity. }
  assert (Hother : ∀ x, x ≠ r → parent (h' x) = parent (h x)).
  { intros x Hx. rewrite Hpar, bool_decide_eq_false_2; [reflexivity|].
    intros H. apply list_elem_of_singleton in H. contradiction. }
  assert (Hstep : ∀ x, (∃ j, reaches j h x r) →
                       ∃ p, parent (h' x) = Some p ∧ ∃ j, reaches j h p r).
  { intros x [j Hj]. destruct (decide (x = r)) as [->|Hx].
    - exists c. split; [exact Hr | eauto].
    - destruct j as [|j]; simpl in Hj; [contradiction|].
      destruct Hj as (p & Hp & Hj). exists p.
      rewrite Hother by exact Hx. eauto. }
  assert (Hreach' : ∀ j x, reaches j h x r → ∃ j', reaches j' h' x r).
  { induction j as [|j IH]; intros x Hj; simpl in Hj.
    - exists 0. exact Hj.
    - destruct Hj as (p & Hp & Hj).
      destruct (decide (x = r)) as [->|Hx]; [exists 0; reflexivity|].
      destruct (IH p Hj) as [j' Hj']. exists (S j'). exists p.
      rewrite Hother by exact Hx. auto. }
  assert (Hk : ∃ j, reaches (S j) h' r r).
  { destruct (Hreach' k c Hreach) as [j Hj]. exists j, c. auto. }
  exists h'. split; [exact Hrun|]. split; [exact Hr|]. split; [exact Hk|].
  intros fuel.
  destruct (endless_chain h' (λ x, ∃ j, reaches j h x r) Hstep fuel c)
    as (HRoot & HUse & Hdepth); [eauto|].
  split; [exact HRoot|]. split; [exact HUse|]. split.
  - intros (k' & _ & Hd). exact (Hdepth k' Hd).
  - intros W Parse call callE args w Hflag.
    rewrite execute_unfold. simpl. rewrite Hflag.
    unfold bind at 1. unfold ParseFlags. unfold bind at 1.
    rewrite (endless_merge (λ x, ∃ j, reaches j h x r) fuel c (mkState h' w));
      [reflexivity | exact Hstep | eauto].
Qed.

(** [all.AddCommand(root)] on the example tree, where [root] is the
    grandparent of [all]. *)
Lemma AddCommand_accepts_cycle_witness :
  ∃ h', AddCommand tree_find 3 [0] = (h', Val ()) ∧
        Parent h' 0 = Some 3 ∧
        ∀ fuel, Root fuel h' 3 = OutOfFuel ∧ UseLine fuel h' 3 = OutOfFuel.
Proof.
  destruct (AddCommand_accepts_cycle tree_find 3 0 2)
    as (h' & Hrun & Hpar & _ & Hall).
  - exists 1. split; [reflexivity|]. exists 0. split; reflexivity.
  - discriminate.
  - exists h'. split; [exact Hrun|]. split; [exact Hpar|].
    intros fuel. destruct (Hall fuel) as (HR & HU & _). auto.
Defined.

(** ** Streams and the usage line, continued *)

Lemma ancestors_nonempty (k : nat) (h : Heap) (c : ptr) : ancestors k h c ≠ [].
Proof. destruct k; simpl; [|destruct (parent (h c))]; discriminate. Qed.

Lemma append_assoc (a b c : string) : (a +:+ b) +:+ c = a +:+ b +:+ c.
Proof.
  induction a as [|x a IH]; [reflexivity|].
  change (String x ((a +:+ b) +:+ c) = String x (a +:+ b +:+ c)).
  f_equal. exact IH.
Qed.

Lemma concat_snoc (sep x : string) (l : list string) :
  l ≠ [] → String.concat sep (l ++ [x]) = String.concat sep l +:+ sep +:+ x.
Proof.
  induction l as [|a l IH]; intros Hne; [contradiction|].
  destruct l as [|b l]; [reflexivity|].
  change (String.concat sep ((a :: b :: l) ++ [x]))
    with (a +:+ sep +:+ String.concat sep ((b :: l) ++ [x])).
  change (String.concat sep (a :: b :: l))
    with (a +:+ sep +:+ String.concat sep (b :: l)).
  rewrite IH by discriminate.
  rewrite !append_assoc. reflexivity.
Qed.

(** X11. The streams of a node in a tree: [OutOrStdout] returns the writer
    set on the closest node, starting from the node itself and going up to
    the root, that has an output writer set, and the standard output of
    the process when none has; [ErrOrStderr] does the same with the error
    writers and the standard error of the process. *)
Theorem streams_closest_ancestor (h : Heap) (c : ptr) (k fuel : nat) :
  depth_is k h c → k < fuel →
  OutOrStdout fuel h c =
    Val (default Stdout
           (first_set (map (λ x, output (h x)) (ancestors k h c)))) ∧
  ErrOrStderr fuel h c =
    Val (default Stderr
           (first_set (map (λ x, errOutput (h x)) (ancestors k h c)))).
Proof.
  revert c fuel. induction k as [|k IH]; intros c fuel Hd Hlt;
    (destruct fuel as [|fuel]; [lia|]); simpl in Hd.
  - cbn [OutOrStdout ErrOrStderr ancestors map first_set]. rewrite Hd.
    split; [destruct (output (h c)) | destruct (errOutput (h c))]; reflexivity.
  - destruct Hd as (p & Hp & Hd).
    destruct (IH p fuel Hd) as [Hout Herr]; [lia|].
    cbn [OutOrStdout ErrOrStderr ancestors]. rewrite Hp.
    cbn [map first_set]. rewrite Hout, Herr.
    split; [destruct (output (h c)) | destruct (errOutput (h c))]; reflexivity.
Qed.

(** In the chain [root], [mid], [leaf] only [root] has an output writer:
    it is the output stream of [leaf], whose error stream is the standard
    error of the process. *)
Lemma streams_closest_ancestor_witness :
  OutOrStdout 3 tree_streams 2 = Val (Buffer 7) ∧
  ErrOrStderr 3 tree_streams 2 = Val Stderr.
Proof.
  destruct (streams_closest_ancestor tree_streams 2 2 3) as [Hout Herr].
  - exists 1. split; [reflexivity|]. exists 0. split; reflexivity.
  - lia.
  - split; [exact Hout | exact Herr].
Defined.

Lemma SetOutput_other (h : Heap) (p : ptr) (o : option Writer) (x : ptr) :
  errOutput (SetOutput h p o x) = errOutput (h x) ∧
  parent (SetOutput h p o x) = parent (h x) ∧
  output (SetOutput h p o x) = if bool_decide (x = p) then o else output (h x).
Proof.
  unfold SetOutput. case_bool_decide as Hx.
  - subst x. rewrite fn_lookup_insert. auto.
  - rewrite fn_lookup_insert_ne by congruence. auto.
Qed.

Lemma SetErr_other (h : Heap) (p : ptr) (o : option Writer) (x : ptr) :
  output (SetErr h p o x) = output (h x) ∧
  parent (SetErr h p o x) = parent (h x) ∧
  errOutput (SetErr h p o x)
    = if bool_decide (x = p) then o else errOutput (h x).
Proof.
  unfold SetErr. case_bool_decide as Hx.
  - subst x. rewrite fn_lookup_insert. auto.
  - rewrite fn_lookup_insert_ne by congruence. auto.
Qed.

(** X12. [SetOutput] and [SetErr] act on subtrees and on one stream each:
    after [SetOutput] of a writer on a node, the writer is the output
    stream of every descendant that is not separated from the node by a
    node with an output writer of its own, and likewise for [SetErr] and
    the error stream; [SetOutput] changes the error stream of no node, and
    [SetErr] the output stream of no node. *)
Theorem SetOutput_SetErr_inherited (h : Heap) (p : ptr) :
  (∀ k c fuel w,
     reaches k h c p → k < fuel →
     (∀ j x, j < k → reaches j h c x → output (h x) = None) →
     OutOrStdout fuel (SetOutput h p (Some w)) c = Val w) ∧
  (∀ k c fuel w,
     reaches k h c p → k < fuel →
     (∀ j x, j < k → reaches j h c x → errOutput (h x) = None) →
     ErrOrStderr fuel (SetErr h p (Some w)) c = Val w) ∧
  (∀ fuel o x,
     ErrOrStderr fuel (SetOutput h p o) x = ErrOrStderr fuel h x ∧
     OutOrStdout fuel (SetErr h p o) x = OutOrStdout fuel h x).
Proof.
  split; [|split].
  - induction k as [|k IH]; intros c fuel w Hr Hlt Hquiet;
      (destruct fuel as [|fuel]; [lia|]); cbn [OutOrStdout];
      destruct (SetOutput_other h p (Some w) c) as (_ & Hpar & Hout);
      rewrite Hout, Hpar; case_bool_decide as Hc; try reflexivity.
    + simpl in Hr. contradiction.
    + simpl in Hr. destruct Hr as (q & Hq & Hr).
      rewrite (Hquiet 0 c) by (lia || reflexivity). rewrite Hq.
      apply IH; [exact Hr | lia|].
      intros j x Hj Hx. apply (Hquiet (S j)); [lia|]. exists q. auto.
  - induction k as [|k IH]; intros c fuel w Hr Hlt Hquiet;
      (destruct fuel as [|fuel]; [lia|]); cbn [ErrOrStderr];
      destruct (SetErr_other h p (Some w) c) as (_ & Hpar & Herr);
      rewrite Herr, Hpar; case_bool_decide as Hc; try reflexivity.
    + simpl in Hr. contradiction.
    + simpl in Hr. destruct Hr as (q & Hq & Hr).
      rewrite (Hquiet 0 c) by (lia || reflexivity). rewrite Hq.
      apply IH; [exact Hr | lia|].
      intros j x Hj Hx. apply (Hquiet (S j)); [lia|]. exists q. auto.
  - induction fuel as [|fuel IH]; intros o x; [split; reflexivity|].
    cbn [ErrOrStderr OutOrStdout].
    destruct (SetOutput_other h p o x) as (-> & -> & _).
    destruct (SetErr_other h p o x) as (-> & -> & _).
    split.
    + destruct (errOutput (h x)); [reflexivity|].
      destruct (parent (h x)); [apply IH | reflexivity].
    + destruct (output (h x)); [reflexivity|].
      destruct (parent (h x)); [apply IH | reflexivity].
Qed.

(** On the example tree, an output writer set on [root] is the output
    stream of the grandchild [all]. *)
Lemma SetOutput_SetErr_inherited_witness :
  OutOrStdout 3 (SetOutput tree_find 0 (Some (Buffer 1))) 3 = Val (Buffer 1).
Proof.
  destruct (SetOutput_SetErr_inherited tree_find 0) as (Hout & _ & _).
  apply (Hout 2); [|lia|].
  - exists 1. split; [reflexivity|]. exists 0. split; reflexivity.
  - intros j x Hj Hx. destruct j as [|[|j]]; [| |lia]; simpl in Hx.
    + subst x. reflexivity.
    + destruct Hx as (q & [= <-] & <-). reflexivity.
Defined.

(** X13. The usage line of a node in a tree is the usage strings of its
    ancestors, from the root down to the node itself, joined by single
    spaces. *)
Theorem UseLine_path (h : Heap) (c : ptr) (k fuel : nat) :
  depth_is k h c → k < fuel →
  UseLine fuel h c =
    Val (String.concat " " (map (λ x, Use (h x)) (rev (ancestors k h c)))).
Proof.
  revert c fuel. induction k as [|k IH]; intros c fuel Hd Hlt;
    (destruct fuel as [|fuel]; [lia|]); simpl in Hd.
  - cbn [UseLine ancestors]. rewrite Hd. reflexivity.
  - destruct Hd as (p & Hp & Hd).
    cbn [UseLine ancestors]. rewrite Hp, (IH p fuel Hd) by lia.
    cbn [rev]. rewrite map_app. cbn [map].
    rewrite concat_snoc; [reflexivity|].
    intros Hnil. apply map_eq_nil in Hnil.
    apply (f_equal (@rev ptr)) in Hnil. rewrite rev_involutive in Hnil.
    exact (ancestors_nonempty k h p Hnil).
Qed.

(** The usage line of [all] in the example tree. *)
Lemma UseLine_path_witness :
  UseLine 3 tree_find 3 = Val "root greet [name] all".
Proof.
  rewrite (UseLine_path tree_find 3 2 3); [reflexivity | | lia].
  exists 1. split; [reflexivity|]. exists 0. split; reflexivity.
Defined.

(** ** Flag composition, continued *)

Section MergeAgain.
Context {W : Type}.

Implicit Types (st : @State W).

Lemma saturated_extend (h h' : Heap) (x : ptr) :
  flags_extend h h' → saturated h x → saturated h' x.
Proof.
  intros He (Hp & Hl & Hpar).
  destruct (extend_pflags h h' x He) as [Epf Elf].
  assert (Hkeep : ∀ n, is_Some (Lookup (flags (h x)) n) →
                       is_Some (Lookup (flags (h' x)) n)).
  { intros n [f Hf]. exists f. eapply flags_extend_Lookup; eassumption. }
  split; [|split].
  - intros f Hf. rewrite Epf in Hf. auto.
  - intros f Hf. rewrite Elf in Hf. auto.
  - intros p f Hpx Hf. destruct (extend_pflags h h' p He) as [Epp _].
    rewrite Epp in Hf. destruct (He x) as [l Hx]. rewrite Hx in Hpx.
    simpl in Hpx. eauto.
Qed.

Lemma visit_saturated (c : ptr) (l : list Flag) st :
  (∀ f, f ∈ l → is_Some (Lookup (flags (heap st c)) (FlagName f))) →
  visit l (merge_flag c) st = (st, [], Val ()).
Proof.
  induction l as [|f l IH]; intros Hall; [reflexivity|].
  cbn [visit].
  assert (Hf : merge_flag c f st = (st, [], Val ())).
  { unfold merge_flag. rewrite bind_get_heap.
    destruct (Hall f) as [g ->]; [left | reflexivity]. }
  rewrite (bind_Val_l _ _ _ _ _ _ Hf), IH; [reflexivity|].
  intros g Hg. apply Hall. right. exact Hg.
Qed.

Lemma visited_is_Some (c : ptr) (l : list Flag) st st' t (f : Flag) :
  visit l (merge_flag c) st = (st', t, Val ()) → f ∈ l →
  is_Some (Lookup (flags (heap st' c)) (FlagName f)).
Proof.
  intros Hv Hf. apply visit_Val in Hv as (_ & _ & Hl). rewrite Hl.
  destruct (Lookup (flags (heap st c)) (FlagName f)); [eauto|].
  eapply Lookup_is_Some; [exact Hf | reflexivity].
Qed.

(** A merge on a chain of saturated nodes adds nothing. *)
Lemma merge_saturated (fuel : nat) :
  ∀ k c st, depth_is k (heap st) c → k < fuel →
  (∀ j x, reaches j (heap st) c x → saturated (heap st) x) →
  mergePersistentFlags fuel c st = (st, [], Val ()).
Proof.
  induction fuel as [|fuel IH]; intros k c st Hd Hlt Hsat; [lia|].
  destruct (Hsat 0 c eq_refl) as (Hp & Hl & Hpar).
  assert (Hown : visit (VisitAll (pflags (heap st c))) (merge_flag c) st
                 = (st, [], Val ())).
  { apply visit_saturated. intros f Hf.
    apply (proj1 (VisitAll_elem_of _ _)) in Hf. auto. }
  assert (Hloc : visit (VisitAll (lflags (heap st c))) (merge_flag c) st
                 = (st, [], Val ())).
  { apply visit_saturated. intros f Hf.
    apply (proj1 (VisitAll_elem_of _ _)) in Hf. auto. }
  cbn [mergePersistentFlags]. rewrite bind_get_heap.
  destruct k as [|k]; simpl in Hd.
  - rewrite Hd. unfold bind, ret, get_heap. rewrite Hown, Hloc. reflexivity.
  - destruct Hd as (p & Hpc & Hd). rewrite Hpc.
    assert (Hup : mergePersistentFlags fuel p st = (st, [], Val ())).
    { apply (IH k); [exact Hd | lia|].
      intros j x Hr. apply (Hsat (S j)). exists p. auto. }
    assert (Hvp : visit (VisitAll (pflags (heap st p))) (merge_flag c) st
                  = (st, [], Val ())).
    { apply visit_saturated. intros f Hf.
      apply (proj1 (VisitAll_elem_of _ _)) in Hf. eauto. }
    unfold bind, get_heap. rewrite Hup, Hvp, Hown, Hloc. reflexivity.
Qed.

(** A merge that returns leaves the node and its ancestors saturated. *)
Lemma merge_makes_saturated (fuel : nat) :
  ∀ c st st' t, mergePersistentFlags fuel c st = (st', t, Val ()) →
  ∀ j x, reaches j (heap st') c x → saturated (heap st') x.
Proof.
  induction fuel as [|fuel IH]; intros c st st' t H; [discriminate|].
  pose proof (mergePersistentFlags_Val _ _ _ _ _ H) as [Eall _].
  assert (Hparent : parent (heap st' c) = parent (heap st c)).
  { destruct (Eall c) as [l ->]. reflexivity. }
  destruct (parent (heap st c)) as [p|] eqn:Hp.
  - destruct (mergePersistentFlags_steps _ _ _ _ _ _ Hp H)
      as (s1 & s2 & s3 & t1 & t2 & t3 & t4 & Hrec & Hpar & Hown & Hloc).
    pose proof (mergePersistentFlags_Val _ _ _ _ _ Hrec) as [Erec _].
    pose proof (visit_extend _ _ _ _ _ Hpar) as Epar.
    pose proof (visit_extend _ _ _ _ _ Hown) as Eown.
    pose proof (visit_extend _ _ _ _ _ Hloc) as Eloc.
    assert (E1 : flags_extend (heap s1) (heap st'))
      by eauto using flags_extend_trans.
    assert (E2 : flags_extend (heap s2) (heap st'))
      by eauto using flags_extend_trans.
    intros [|j] x Hr; simpl in Hr.
    + subst x.
      assert (Hkeep : ∀ (s : @State W) n, flags_extend (heap s) (heap st') →
                             is_Some (Lookup (flags (heap s c)) n) →
                             is_Some (Lookup (flags (heap st' c)) n)).
      { intros s n He [f Hf]. exists f.
        eapply flags_extend_Lookup; eassumption. }
      split; [|split].
      * intros f Hf. apply (Hkeep s3); [exact Eloc|].
        eapply visited_is_Some; [exact Hown|]. apply VisitAll_elem_of.
        destruct (extend_pflags _ _ c E2) as [<- _]. exact Hf.
      * intros f Hf. eapply visited_is_Some; [exact Hloc|].
        apply VisitAll_elem_of.
        destruct (extend_pflags _ _ c Eloc) as [_ <-]. exact Hf.
      * intros q f Hq Hf. rewrite Hparent in Hq. injection Hq as <-.
        apply (Hkeep s2); [exact E2|].
        eapply visited_is_Some; [exact Hpar|]. apply VisitAll_elem_of.
        destruct (extend_pflags _ _ p E1) as [<- _]. exact Hf.
    + destruct Hr as (q & Hq & Hr). rewrite Hparent in Hq.
      injection Hq as <-.
      apply (saturated_extend (heap s1)); [exact E1|].
      apply (IH p st s1 t1 Hrec j).
      clear -E1 Hr. revert p Hr.
      induction j as [|j IHj]; intros p Hr; simpl in *; [exact Hr|].
      destruct Hr as (q & Hq & Hr). exists q.
      destruct (E1 p) as [l Hl]. rewrite Hl in Hq. simpl in Hq. auto.
  - destruct (mergePersistentFlags_root_steps _ _ _ _ _ Hp H)
      as (s3 & t3 & t4 & Hown & Hloc).
    pose proof (visit_extend _ _ _ _ _ Hown) as Eown.
    pose proof (visit_extend _ _ _ _ _ Hloc) as Eloc.
    intros [|j] x Hr; simpl in Hr.
    + subst x. split; [|split].
      * intros f Hf.
        destruct (visited_is_Some c _ st s3 t3 f Hown) as [g Hg].
        { apply VisitAll_elem_of.
          destruct (extend_pflags _ _ c Eall) as [<- _]. exact Hf. }
        exists g. eapply flags_extend_Lookup; eassumption.
      * intros f Hf. eapply visited_is_Some; [exact Hloc|].
        apply VisitAll_elem_of.
        destruct (extend_pflags _ _ c Eloc) as [_ <-]. exact Hf.
      * intros q f Hq. congruence.
    + destruct Hr as (q & Hq & _). congruence.
Qed.

(** X14. Merging flags is idempotent: after a merge that has returned, the
    effective flag set of the node and of each of its ancestors holds a
    flag for every name of its own persistent and local scopes and of the
    persistent scope of its parent, and a second merge returns without
    adding a flag to any node and without registering any name twice; a
    second [ParseFlags] is then the parse alone. *)
Theorem merge_idempotent (fuel : nat) (c : ptr) st st' t :
  mergePersistentFlags fuel c st = (st', t, Val ()) →
  (∀ j x, reaches j (heap st') c x → saturated (heap st') x) ∧
  mergePersistentFlags fuel c st' = (st', [], Val ()) ∧
  ∀ Parse args, ParseFlags Parse fuel c args st' = Flags_Parse Parse c args st'.
Proof.
  intros H.
  pose proof (merge_makes_saturated _ _ _ _ _ H) as Hsat.
  assert (Hagain : mergePersistentFlags fuel c st' = (st', [], Val ())).
  { apply mergePersistentFlags_Val in H as (He & k & Hk & Hd & _).
    apply (merge_saturated fuel k); [|exact Hk | exact Hsat].
    apply (depth_is_extend _ _ k He), Hd. }
  split; [exact Hsat|]. split; [exact Hagain|].
  intros Parse args. unfold ParseFlags.
  rewrite (bind_Val_l _ _ _ _ _ _ Hagain).
  destruct (Flags_Parse Parse c args st') as [[s2 t2] r2]. reflexivity.
Qed.

Lemma Lookup_VisitAll_None (fs : FlagSet) (n : string) :
  Lookup fs n = None → Lookup (VisitAll fs) n = None.
Proof.
  intros Hnone. destruct (Lookup (VisitAll fs) n) as [f|] eqn:Hf; [|reflexivity].
  apply Lookup_Some in Hf as [Hin Hname].
  apply (proj1 (VisitAll_elem_of _ _)) in Hin.
  destruct (Lookup_is_Some fs n f Hin Hname) as [g Hg]. congruence.
Qed.

(** X15. Persistent flags are inherited over one level only: the merge
    copies into the effective set of a node the persistent scope of its
    parent, not the effective set of the parent, so a name that is neither
    in the scopes of the node nor in the persistent scope of its parent is
    not in the effective set of the node after the merge, whatever the
    grandparent and the ancestors above it declare. *)
Theorem persistent_flags_one_level (fuel : nat) (c : ptr) st st' t
    (n : string) :
  mergePersistentFlags fuel c st = (st', t, Val ()) →
  Lookup (flags (heap st c)) n = None →
  Lookup (pflags (heap st c)) n = None →
  Lookup (lflags (heap st c)) n = None →
  (∀ p, parent (heap st c) = Some p → Lookup (pflags (heap st p)) n = None) →
  Lookup (flags (heap st' c)) n = None.
Proof.
  intros H Hf Hp Hl Hparent.
  rewrite (mergePersistentFlags_precedence _ _ _ _ _ n H), Hf.
  rewrite (Lookup_VisitAll_None _ _ Hp), (Lookup_VisitAll_None _ _ Hl).
  destruct (parent (heap st c)) as [p|]; [|reflexivity].
  rewrite (Lookup_VisitAll_None _ _ (Hparent p eq_refl)). reflexivity.
Qed.

End MergeAgain.

(** On the tree of the flag [verbose], a merge on [local] returns, and a
    second merge changes nothing. *)
Lemma merge_idempotent_witness :
  ∃ st', (mergePersistentFlags 2 1 (mkState tree_flags ())).1.1 = st' ∧
         mergePersistentFlags 2 1 st' = (st', [], Val ()).
Proof.
  destruct (mergePersistentFlags 2 1 (mkState tree_flags ()))
    as [[s t] r] eqn:E.
  assert (Hr : r = Val ()).
  { change r with (s, t, r).2. rewrite <- E. vm_compute. reflexivity. }
  subst r. exists s. split; [reflexivity|].
  destruct (merge_idempotent 2 1 _ _ _ E) as (_ & H & _). exact H.
Defined.

(** In the chain [top], [mid], [leaf], the persistent flag [verbose] of
    [top] reaches [mid] and does not reach [leaf]. *)
Lemma persistent_flags_one_level_witness :
  Lookup (flags (heap (mergePersistentFlags 3 2 (mkState tree_deep ())).1.1 1))
    "verbose" = Some flag_root ∧
  Lookup (flags (heap (mergePersistentFlags 3 2 (mkState tree_deep ())).1.1 2))
    "verbose" = None.
Proof.
  split; [vm_compute; reflexivity|].
  destruct (mergePersistentFlags 3 2 (mkState tree_deep ()))
    as [[s t] r] eqn:E.
  assert (Hr : r = Val ()).
  { change r with (s, t, r).2. rewrite <- E. vm_compute. reflexivity. }
  subst r.
  apply (persistent_flags_one_level 3 2 _ _ _ "verbose" E); try reflexivity.
  intros p [= <-]. reflexivity.
Defined.

(** ** Execution, continued *)

Section ExecuteMore.
Context {W : Type}.
Context (Parse : FlagSet → list string → W → W * ParseResult).
Context (call : Fn → ptr → list string → Heap → W → W).
Context (callE : Fn → ptr → list string → Heap → W → W * option error).

Implicit Types (st : @State W).

(** *** What a merge writes, however it ends *)

Lemma bind_extends {A B} (m : @M W A) (k : A → @M W B) st :
  flags_extend (heap st) (heap (m st).1.1) →
  (∀ a, flags_extend (heap (m st).1.1) (heap (k a (m st).1.1).1.1)) →
  flags_extend (heap st) (heap (bind m k st).1.1).
Proof.
  unfold bind. destruct (m st) as [[s1 t1] [a|msg|]]; simpl; intros Hm Hk;
    try exact Hm.
  specialize (Hk a). destruct (k a s1) as [[s2 t2] r]. simpl in *.
  eapply flags_extend_trans; eassumption.
Qed.

Lemma bind_local {A B} (m : @M W A) (k : A → @M W B) st (x : ptr) :
  heap (m st).1.1 x = heap st x →
  (∀ a, heap (k a (m st).1.1).1.1 x = heap (m st).1.1 x) →
  heap (bind m k st).1.1 x = heap st x.
Proof.
  unfold bind. destruct (m st) as [[s1 t1] [a|msg|]]; simpl; intros Hm Hk;
    try exact Hm.
  specialize (Hk a). destruct (k a s1) as [[s2 t2] r]. simpl in *.
  congruence.
Qed.

Lemma merge_flag_writes (c : ptr) (f : Flag) st :
  flags_extend (heap st) (heap (merge_flag c f st).1.1) ∧
  ∀ x, x ≠ c → heap (merge_flag c f st).1.1 x = heap st x.
Proof.
  unfold merge_flag. rewrite bind_get_heap.
  destruct (Lookup (flags (heap st c)) (FlagName f));
    [split; [apply flags_extend_refl | reflexivity]|].
  destruct (AddFlag (flags (heap st c)) f) as [fs|] eqn:Ha;
    [|split; [apply flags_extend_refl | reflexivity]].
  apply AddFlag_Some in Ha. subst fs. simpl. split.
  - intros x. destruct (decide (c = x)) as [->|Hx].
    + rewrite fn_lookup_insert. eauto.
    + rewrite fn_lookup_insert_ne by exact Hx. apply flags_extend_refl.
  - intros x Hx. rewrite fn_lookup_insert_ne by congruence. reflexivity.
Qed.

Lemma visit_writes (c : ptr) (l : list Flag) :
  ∀ st, flags_extend (heap st) (heap (visit l (merge_flag c) st).1.1) ∧
        ∀ x, x ≠ c → heap (visit l (merge_flag c) st).1.1 x = heap st x.
Proof.
  induction l as [|f l IH]; intros st;
    [split; [apply flags_extend_refl | reflexivity]|].
  cbn [visit]. destruct (merge_flag_writes c f st) as [He Hx]. split.
  - apply bind_extends; [exact He|]. intros _. apply IH.
  - intros x Hne. apply bind_local; [apply Hx, Hne|]. intros _.
    apply IH, Hne.
Qed.

Lemma reaches_extend (h h' : Heap) (j : nat) :
  flags_extend h h' → ∀ c x, reaches j h' c x → reaches j h c x.
Proof.
  intros He. induction j as [|j IH]; intros c x; simpl; [auto|].
  intros (p & Hp & Hr). exists p. destruct (He c) as [l Hl].
  rewrite Hl in Hp. simpl in Hp. auto.
Qed.

Lemma mergePersistentFlags_writes (fuel : nat) :
  ∀ c st,
    flags_extend (heap st) (heap (mergePersistentFlags fuel c st).1.1) ∧
    ∀ x, (∀ j, ¬ reaches j (heap st) c x) →
         heap (mergePersistentFlags fuel c st).1.1 x = heap st x.
Proof.
  induction fuel as [|fuel IH]; intros c st;
    [split; [apply flags_extend_refl | reflexivity]|].
  cbn [mergePersistentFlags]. rewrite bind_get_heap. split.
  - apply bind_extends.
    + destruct (parent (heap st c)) as [p|]; [|apply flags_extend_refl].
      apply bind_extends; [apply IH|]. intros _. rewrite bind_get_heap.
      apply visit_writes.
    + intros _. rewrite bind_get_heap. apply bind_extends;
        [apply visit_writes|].
      intros _. rewrite bind_get_heap. apply visit_writes.
  - intros x Hx.
    assert (Hne : x ≠ c).
    { intros ->. apply (Hx 0). reflexivity. }
    apply bind_local.
    + destruct (parent (heap st c)) as [p|] eqn:Hp; [|reflexivity].
      apply bind_local.
      * apply IH. intros j Hr. apply (Hx (S j)). exists p. auto.
      * intros _. rewrite bind_get_heap. apply visit_writes, Hne.
    + intros _. rewrite bind_get_heap. apply bind_local;
        [apply visit_writes, Hne|].
      intros _. rewrite bind_get_heap. apply visit_writes, Hne.
Qed.

Lemma parse_step_writes (fuel : nat) (c : ptr) (args : list string) st :
  flags_extend (heap st) (heap (parse_step Parse fuel c args st).1.1) ∧
  (∀ x, (∀ j, ¬ reaches j (heap st) c x) →
        heap (parse_step Parse fuel c args st).1.1 x = heap st x) ∧
  (DisableFlagParsing (heap st c) = true →
   parse_step Parse fuel c args st = (st, [], Val (ParseOk args))).
Proof.
  unfold parse_step. destruct (DisableFlagParsing (heap st c)).
  - split; [apply flags_extend_refl|]. split; reflexivity.
  - destruct (mergePersistentFlags_writes fuel c st) as [He Hx].
    assert (Hparse : ∀ s : @State W,
              heap (Flags_Parse Parse c args s).1.1 = heap s).
    { intros s. unfold Flags_Parse.
      destruct (Parse (flags (heap s c)) args (app s)). reflexivity. }
    unfold ParseFlags. split; [|split; [|discriminate]].
    + apply bind_extends; [exact He|]. intros _. rewrite Hparse.
      apply flags_extend_refl.
    + intros x Hn. apply bind_local; [apply Hx, Hn|]. intros _.
      rewrite Hparse. reflexivity.
Qed.

Lemma execute_heap (fuel : nat) (c : ptr) (args : list string) st st' tr r :
  execute Parse call callE fuel c args st = (st', tr, r) →
  heap st' = heap (parse_step Parse fuel c args st).1.1.
Proof.
  intros H. apply execute_shape in H as (s1 & r1 & -> & Hcase). simpl.
  destruct r1 as [[a|e]|msg|]; destruct Hcase as [Hs _];
    [exact Hs | subst; reflexivity ..].
Qed.

(** X16. What [execute] writes to the tree: however it ends, it has only
    appended flags to effective flag sets, and only on the receiver and on
    the ancestors of the receiver; every other node is as it was, so the
    flag scopes of a resolved subcommand are never composed into its
    effective set.  When flag parsing is disabled on the receiver the tree
    is as it was and the parser plays no role: the run is the same with
    any other parser. *)
Theorem execute_writes (fuel : nat) (c : ptr) (args : list string)
    st st' (tr : list Event) (r : Res (option error)) :
  execute Parse call callE fuel c args st = (st', tr, r) →
  flags_extend (heap st) (heap st') ∧
  (∀ x, (∀ j, ¬ reaches j (heap st) c x) → heap st' x = heap st x) ∧
  (DisableFlagParsing (heap st c) = true →
   heap st' = heap st ∧
   ∀ Parse', execute Parse' call callE fuel c args st = (st', tr, r)).
Proof.
  intros H. pose proof (execute_heap _ _ _ _ _ _ _ H) as Hh.
  destruct (parse_step_writes fuel c args st) as (He & Hx & Hd).
  rewrite Hh. split; [exact He|]. split; [exact Hx|].
  intros Hdis. rewrite (Hd Hdis). split; [reflexivity|].
  intros Parse'. rewrite <- H, !execute_unfold, Hdis. reflexivity.
Qed.

(** *** The calls of a run *)

Lemma stages_passed (h : Heap) (cmd : ptr) (a : list string) (l : list Stage) :
  sublist (omap stage_of (flat_map (passed h cmd a) l)) l.
Proof.
  induction l as [|s l IH]; [constructor|].
  cbn [flat_map]. rewrite omap_app. unfold passed at 1.
  destruct (stage_slots s (h cmd)) as [[g|] [g'|]]; simpl;
    [apply sublist_skip | apply sublist_skip | apply sublist_skip
    | apply sublist_cons]; exact IH.
Qed.

Lemma stages_validated (h : Heap) (cmd : ptr) (a : list string)
    (vt : list Event) :
  validated h cmd a vt → omap stage_of vt = [].
Proof. intros [[_ ->]|[_ ->]]; reflexivity. Qed.

Lemma stages_report (rep : list Event) :
  (∀ ev, ev ∈ rep → is_report ev = true) → omap stage_of rep = [].
Proof.
  induction rep as [|ev rep IH]; intros Hall; [reflexivity|].
  simpl. rewrite (report_stage_of ev) by (apply Hall; left).
  apply IH. intros ev' Hev'. apply Hall. right. exact Hev'.
Qed.

Lemma Shape_stages (h : Heap) (fuel : nat) (c cmd : ptr) (a : list string)
    (tr : list Event) (r : Res (option error)) :
  Shape h fuel c cmd a tr r → sublist (omap stage_of tr) all_stages.
Proof.
  intros [e HA|vt Hv|vt l1 l2 s e Hv Hl Hs Hslot|vt rep e r' Hv HR Hrep].
  - apply sublist_nil_l.
  - rewrite omap_app, (stages_validated _ _ _ _ Hv). apply stages_passed.
  - rewrite !omap_app, (stages_validated _ _ _ _ Hv), Hl. simpl.
    apply sublist_app; [apply stages_passed|].
    apply sublist_skip, sublist_nil_l.
  - rewrite !omap_app, (stages_validated _ _ _ _ Hv). simpl.
    destruct Hrep as (Hrep & _). rewrite (stages_report _ Hrep).
    change all_stages
      with ([StagePersistentPreRun; StagePreRun]
              ++ StageRun :: [StagePostRun; StagePersistentPostRun]).
    apply sublist_app;
      [apply (stages_passed h cmd a [StagePersistentPreRun; StagePreRun])|].
    apply sublist_skip, sublist_nil_l.
Qed.

Lemma Shape_calls (h : Heap) (fuel : nat) (c cmd : ptr) (a : list string)
    (tr : list Event) (r : Res (option error)) (ev : Event)
    (pr : ptr * list string) :
  Shape h fuel c cmd a tr r → ev ∈ tr → call_of ev = Some pr → pr = (cmd, a).
Proof.
  assert (Hpre : ∀ vt l, validated h cmd a vt →
            ev ∈ vt ++ flat_map (passed h cmd a) l →
            call_of ev = Some pr → pr = (cmd, a)).
  { intros vt l Hv Hin Hc. apply elem_of_app in Hin as [Hin|Hin].
    - apply (validated_inv _ _ _ _ _ Hv) in Hin. subst ev. simpl in Hc.
      congruence.
    - apply passed_inv in Hin as (s & fl & _ & _ & ->). simpl in Hc.
      congruence. }
  intros [e HA|vt Hv|vt l1 l2 s e Hv Hl Hs Hslot|vt rep e r' Hv HR Hrep]
    Hin Hc.
  - apply list_elem_of_singleton in Hin. subst ev. simpl in Hc. congruence.
  - eapply Hpre; eassumption.
  - rewrite app_assoc in Hin. apply elem_of_app in Hin as [Hin|Hin].
    + eapply Hpre; eassumption.
    + apply list_elem_of_singleton in Hin. subst ev. simpl in Hc. congruence.
  - rewrite app_assoc in Hin. apply elem_of_app in Hin as [Hin|Hin].
    + eapply Hpre; eassumption.
    + apply elem_of_cons in Hin as [->|Hin]; [simpl in Hc; congruence|].
      destruct Hrep as (Hrep & _). apply Hrep in Hin.
      destruct ev; simpl in *; congruence.
Qed.

Lemma passed_variant (h : Heap) (cmd : ptr) (a : list string) (s : Stage)
    (fl : bool) (cmd' : ptr) (a' : list string) (r' : option error) :
  EvCallback s fl cmd' a' r' ∈ passed h cmd a s →
  r' = None ∧
  if fl then is_Some (stage_slots s (h cmd)).1
  else (stage_slots s (h cmd)).1 = None ∧ is_Some (stage_slots s (h cmd)).2.
Proof.
  unfold passed. destruct (stage_slots s (h cmd)) as [[g|] [g'|]]; simpl;
    intros Hin; try (inversion Hin; fail);
    apply list_elem_of_singleton in Hin; injection Hin as -> -> -> ->;
    eauto.
Qed.

Lemma Shape_variant (h : Heap) (fuel : nat) (c cmd : ptr) (a : list string)
    (tr : list Event) (r : Res (option error)) (s : Stage) (fl : bool)
    (cmd' : ptr) (a' : list string) (r' : option error) :
  Shape h fuel c cmd a tr r → EvCallback s fl cmd' a' r' ∈ tr →
  if fl then is_Some (stage_slots s (h cmd)).1
  else (stage_slots s (h cmd)).1 = None ∧ is_Some (stage_slots s (h cmd)).2
       ∧ r' = None.
Proof.
  assert (Hpre : ∀ vt l, validated h cmd a vt →
            EvCallback s fl cmd' a' r' ∈ vt ++ flat_map (passed h cmd a) l →
            if fl then is_Some (stage_slots s (h cmd)).1
            else (stage_slots s (h cmd)).1 = None
                 ∧ is_Some (stage_slots s (h cmd)).2 ∧ r' = None).
  { intros vt l Hv Hin. apply elem_of_app in Hin as [Hin|Hin].
    - apply (validated_inv _ _ _ _ _ Hv) in Hin. discriminate.
    - apply passed_inv in Hin as (s0 & fl0 & _ & Hin & Heq).
      injection Heq as -> -> -> -> ->.
      apply passed_variant in Hin as [_ Hin].
      match goal with |- if ?b then _ else _ => destruct b end;
        [exact Hin | tauto]. }
  intros [e HA|vt Hv|vt l1 l2 s0 e Hv Hl Hs Hslot|vt rep e r0 Hv HR Hrep] Hin.
  - apply list_elem_of_singleton in Hin. discriminate.
  - eapply Hpre; eassumption.
  - rewrite app_assoc in Hin. apply elem_of_app in Hin as [Hin|Hin].
    + eapply Hpre; eassumption.
    + apply list_elem_of_singleton in Hin. injection Hin as -> -> -> -> ->.
      exact Hslot.
  - rewrite app_assoc in Hin. apply elem_of_app in Hin as [Hin|Hin].
    + eapply Hpre; eassumption.
    + apply elem_of_cons in Hin as [Hin|Hin].
      * injection Hin as -> -> -> -> ->. exact HR.
      * destruct Hrep as (Hrep & _). apply Hrep in Hin. discriminate.
Qed.

Lemma Shape_validate_first (h : Heap) (fuel : nat) (c cmd : ptr)
    (a : list string) (tr : list Event) (r : Res (option error))
    (cmd' : ptr) (a' : list string) (r0 : option error) :
  Shape h fuel c cmd a tr r → EvValidate cmd' a' r0 ∈ tr →
  ∃ rest, tr = EvValidate cmd' a' r0 :: rest ∧
          ∀ c1 a1 r1, EvValidate c1 a1 r1 ∉ rest.
Proof.
  assert (Hpassed : ∀ l c1 a1 r1,
            EvValidate c1 a1 r1 ∉ flat_map (passed h cmd a) l).
  { intros l c1 a1 r1 Hin.
    apply passed_inv in Hin as (s & fl & _ & _ & [=]). }
  assert (Hpre : ∀ vt l rest, validated h cmd a vt →
            (∀ c1 a1 r1, EvValidate c1 a1 r1 ∉ rest) →
            EvValidate cmd' a' r0 ∈ vt ++ flat_map (passed h cmd a) l ++ rest →
            ∃ rest', vt ++ flat_map (passed h cmd a) l ++ rest
                     = EvValidate cmd' a' r0 :: rest' ∧
                     ∀ c1 a1 r1, EvValidate c1 a1 r1 ∉ rest').
  { intros vt l rest [[_ ->]|[_ ->]] Hrest Hin.
    - simpl in Hin. apply elem_of_app in Hin as [Hin|Hin].
      + exfalso. exact (Hpassed _ _ _ _ Hin).
      + exfalso. exact (Hrest _ _ _ Hin).
    - apply elem_of_cons in Hin as [Hin|Hin].
      + injection Hin as -> -> ->. eexists. split; [reflexivity|].
        intros c1 a1 r1 H. apply elem_of_app in H as [H|H].
        * exact (Hpassed _ _ _ _ H).
        * exact (Hrest _ _ _ H).
      + exfalso. apply elem_of_app in Hin as [Hin|Hin].
        * exact (Hpassed _ _ _ _ Hin).
        * exact (Hrest _ _ _ Hin). }
  intros [e HA|vt Hv|vt l1 l2 s e Hv Hl Hs Hslot|vt rep e r' Hv HR Hrep] Hin.
  - apply list_elem_of_singleton in Hin. injection Hin as -> -> ->.
    exists []. split; [reflexivity|]. intros c1 a1 r1 H. inversion H.
  - rewrite <- (app_nil_r (flat_map _ _)) in Hin |- *.
    apply Hpre; [exact Hv | | exact Hin].
    intros c1 a1 r1 H. inversion H.
  - apply Hpre; [exact Hv | | exact Hin].
    intros c1 a1 r1 H. apply list_elem_of_singleton in H. discriminate.
  - apply Hpre; [exact Hv | | exact Hin].
    intros c1 a1 r1 H. apply elem_of_cons in H as [H|H]; [discriminate|].
    destruct Hrep as (Hrep & _). apply Hrep in H. discriminate.
Qed.

(** X17. The calls of a run, whatever its outcome: every validator and
    callback that [execute] calls is called on the resolved target, with
    the tokens that resolution has left; the callbacks of the ancestors of
    the target, persistent or not, are never called.  The validator is
    called at most once, before every callback, and the stages are
    entered in pipeline order, each at most once. *)
Theorem execute_calls_in_order (fuel : nat) (c : ptr) (args : list string)
    st st' (tr : list Event) (r : Res (option error)) :
  execute Parse call callE fuel c args st = (st', tr, r) →
  sublist (omap stage_of tr) all_stages ∧
  (∀ ev pr, ev ∈ tr → call_of ev = Some pr →
     ∃ s1 w, parse_step Parse fuel c args st = (s1, [], Val (ParseOk w)) ∧
             pr = Find (heap st) c w) ∧
  (∀ cmd a r0, EvValidate cmd a r0 ∈ tr →
     ∃ rest, tr = EvValidate cmd a r0 :: rest ∧
             ∀ c1 a1 r1, EvValidate c1 a1 r1 ∉ rest).
Proof.
  intros H. apply execute_shape in H as (s1 & r1 & Hp & Hcase).
  destruct r1 as [[w|e]|msg|].
  - destruct Hcase as [_ HS]. split; [eapply Shape_stages, HS|]. split.
    + intros ev pr Hin Hc. exists s1, w. split; [exact Hp|].
      rewrite (Shape_calls _ _ _ _ _ _ _ _ _ HS Hin Hc).
      destruct (Find (heap st) c w). reflexivity.
    + intros cmd a r0 Hin. eapply Shape_validate_first; eassumption.
  - destruct Hcase as (_ & -> & _). split; [apply sublist_nil_l|].
    split; [intros ev pr Hin | intros cmd a r0 Hin]; inversion Hin.
  - destruct Hcase as (_ & -> & _). split; [apply sublist_nil_l|].
    split; [intros ev pr Hin | intros cmd a r0 Hin]; inversion Hin.
  - destruct Hcase as (_ & -> & _). split; [apply sublist_nil_l|].
    split; [intros ev pr Hin | intros cmd a r0 Hin]; inversion Hin.
Qed.

(** X18. The choice between the two callbacks of a stage: a callback with
    an error result is only called when it is set, a callback without
    error result only when it is set and the one with an error result of
    the same stage is not; so in no run are both callbacks of a stage
    called, and when both are set the one without error result is
    ignored. *)
Theorem execute_variant_choice (fuel : nat) (c : ptr) (args : list string)
    st st' (tr : list Event) (r : Res (option error)) (s : Stage) (fl : bool)
    (cmd : ptr) (a : list string) (r' : option error) :
  execute Parse call callE fuel c args st = (st', tr, r) →
  EvCallback s fl cmd a r' ∈ tr →
  if fl then is_Some (stage_slots s (heap st cmd)).1
  else (stage_slots s (heap st cmd)).1 = None ∧
       is_Some (stage_slots s (heap st cmd)).2 ∧ r' = None.
Proof.
  intros H Hin. apply execute_shape in H as (s1 & r1 & Hp & Hcase).
  destruct r1 as [[w|e]|msg|];
    try (destruct Hcase as (_ & -> & _); inversion Hin).
  destruct Hcase as [_ HS].
  assert (Hc : (cmd, a) = ((Find (heap st) c w).1, (Find (heap st) c w).2)).
  { eapply Shape_calls; [exact HS | exact Hin | reflexivity]. }
  injection Hc as Hcmd _. rewrite Hcmd.
  eapply Shape_variant; eassumption.
Qed.

(** X19. A successful run: when [execute] returns nil, the tokens have
    parsed, the validator of the resolved target, if it has one, has
    accepted the remaining tokens, and then, for each of the five stages in
    pipeline order, the callback of the target has been called once: the
    one with an error result if it is set, else the one without if it is
    set; nothing else has been called or written. *)
Theorem execute_success (fuel : nat) (c : ptr) (args : list string)
    st st' (tr : list Event) :
  execute Parse call callE fuel c args st = (st', tr, Val None) →
  ∃ s1 w vt,
    parse_step Parse fuel c args st = (s1, [], Val (ParseOk w)) ∧
    validated (heap st) (Find (heap st) c w).1 (Find (heap st) c w).2 vt ∧
    tr = vt ++ flat_map (passed (heap st) (Find (heap st) c w).1
                           (Find (heap st) c w).2) all_stages.
Proof.
  intros H. apply execute_shape in H as (s1 & r1 & Hp & Hcase).
  destruct r1 as [[w|e]|msg|];
    try (destruct Hcase as (_ & _ & [=])).
  destruct Hcase as [_ HS]. exists s1, w.
  remember (Val None) as r0 eqn:Hr0.
  destruct HS as [e HA|vt Hv|vt l1 l2 s e Hv Hl Hs Hslot|vt rep e r' Hv HR Hrep];
    try discriminate.
  - exists vt. auto.
  - destruct Hrep as (_ & [->| ->] & _); discriminate.
Qed.

(** *** The validator *)

Lemma standard_validator_Use (v : PositionalArgs)
    (f : Command → list string → option error) (c1 c2 : Command)
    (a : list string) :
  standard_validator v = Some f → Use c1 = Use c2 → f c1 a = f c2 a.
Proof.
  destruct v; intros [= <-] HU; try reflexivity.
  unfold NoArgs. rewrite HU. reflexivity.
Qed.

Lemma call_Args_standard (v : PositionalArgs)
    (f : Command → list string → option error) (cmd : ptr) (a : list string)
    st :
  standard_validator v = Some f →
  call_Args callE v cmd a st
  = (st, [EvValidate cmd a (f (heap st cmd) a)], Val (f (heap st cmd) a)).
Proof.
  destruct v; intros [= <-]; unfold call_Args; rewrite mkState_eta;
    reflexivity.
Qed.

(** X20. The standard validators in a run: when the tokens have parsed and
    the resolved target has one of the standard validators, [execute]
    applies it to the target and to the tokens that resolution has left,
    not to the receiver or to all the tokens.  When the validator rejects
    them, [execute] returns its error and has called nothing else; when it
    accepts them, the run starts with this call. *)
Theorem execute_validates_target (fuel : nat) (c : ptr) (args : list string)
    st st' (tr : list Event) (r : Res (option error)) s1 (w : list string)
    (v : PositionalArgs) (f : Command → list string → option error) :
  execute Parse call callE fuel c args st = (st', tr, r) →
  parse_step Parse fuel c args st = (s1, [], Val (ParseOk w)) →
  Args (heap st (Find (heap st) c w).1) = Some v →
  standard_validator v = Some f →
  match f (heap st (Find (heap st) c w).1) (Find (heap st) c w).2 with
  | Some e =>
      tr = [EvValidate (Find (heap st) c w).1 (Find (heap st) c w).2 (Some e)]
      ∧ r = Val (Some e) ∧ st' = s1
  | None =>
      ∃ rest,
        tr = EvValidate (Find (heap st) c w).1 (Find (heap st) c w).2 None
             :: rest
  end.
Proof.
  intros H Hp HA Hv.
  pose proof (parse_step_spec _ _ _ _ _ _ _ _ Hp) as [_ He].
  specialize (He _ eq_refl).
  rewrite execute_unfold in H. unfold bind at 1 in H.
  change ((if DisableFlagParsing (heap st c) then ret (ParseOk args)
           else ParseFlags Parse fuel c args) st)
    with (parse_step Parse fuel c args st) in H.
  rewrite Hp in H. unfold dispatch in H. rewrite bind_get_heap in H.
  rewrite (Find_extend (heap st) (heap s1)) in H by exact He.
  destruct (Find (heap st) c w) as [cmd a]. simpl in HA |- *.
  destruct (extend_set_flags _ _ cmd He) as [fs Hfs].
  assert (HA1 : Args (heap s1 cmd) = Some v) by (rewrite Hfs; exact HA).
  rewrite HA1 in H.
  rewrite (bind_Val_l _ _ _ _ _ _ (call_Args_standard v f cmd a s1 Hv)) in H.
  rewrite (standard_validator_Use v f (heap s1 cmd) (heap st cmd) a Hv) in H
    by (rewrite Hfs; reflexivity).
  destruct (f (heap st cmd) a) as [e|].
  - simpl in H. injection H as <- <- <-. auto.
  - match type of H with
    | context [bind ?m ?k s1] => destruct (bind m k s1) as [[s2 t2] r2]
    end.
    simpl in H. injection H as <- <- <-. eauto.
Qed.

End ExecuteMore.

(** ** Concrete runs, continued *)

(** [app sub x], run on [app]: the persistent flag [verbose] of [app] is
    merged into the effective set of [app]; the node [sub] is as it was. *)
Lemma execute_writes_witness :
  heap (demo_execute 2 0 ["sub"; "x"] tree_cli).1.1 1 = tree_cli 1.
Proof.
  destruct (execute_writes pflag_Parse demo_call demo_callE 2 0
              ["sub"; "x"] (mkState tree_cli []) _ _ _
              (demo_execute_eta 2 0 ["sub"; "x"] tree_cli))
    as (_ & Hother & _).
  apply Hother. intros [|j] Hr; simpl in Hr; [discriminate|].
  destruct Hr as (p & Hp & _). discriminate.
Defined.

(** [app sub x]: the stages of the run are entered in pipeline order. *)
Lemma execute_calls_in_order_witness :
  sublist (omap stage_of (demo_execute 2 0 ["sub"; "x"] tree_cli).1.2)
    all_stages.
Proof.
  destruct (execute_calls_in_order pflag_Parse demo_call demo_callE 2 0
              ["sub"; "x"] (mkState tree_cli []) _ _ _
              (demo_execute_eta 2 0 ["sub"; "x"] tree_cli))
    as (Horder & _).
  exact Horder.
Defined.

(** [app sub x]: the persistent pre-run callback of [sub] without error
    result is called, and [sub] has none with an error result. *)
Lemma execute_variant_choice_witness :
  PersistentPreRunE (tree_cli 1) = None ∧
  is_Some (PersistentPreRun (tree_cli 1)).
Proof.
  destruct (execute_variant_choice pflag_Parse demo_call demo_callE 2 0
              ["sub"; "x"] (mkState tree_cli []) _ _ _
              StagePersistentPreRun false 1 ["x"] None
              (demo_execute_eta 2 0 ["sub"; "x"] tree_cli))
    as (HE & Hplain & _).
  - vm_compute. right. left.
  - split; [exact HE | exact Hplain].
Defined.

(** [app noop -v] returns nil: the trace is the accepted validation
    followed by the callbacks of [noop] that are set. *)
Lemma execute_success_witness :
  ∃ w vt,
    (parse_step pflag_Parse 2 0 ["noop"; "-v"] (mkState tree_cli [])).2
      = Val (ParseOk w) ∧
    (demo_execute 2 0 ["noop"; "-v"] tree_cli).1.2 =
      vt ++ flat_map (passed tree_cli (Find tree_cli 0 w).1
                        (Find tree_cli 0 w).2) all_stages.
Proof.
  pose proof (demo_execute_eta 2 0 ["noop"; "-v"] tree_cli) as E.
  change (demo_execute 2 0 ["noop"; "-v"] tree_cli).2
    with (Val None : Res (option error)) in E.
  destruct (execute_success pflag_Parse demo_call demo_callE 2 0
              ["noop"; "-v"] (mkState tree_cli []) _ _ E)
    as (s1 & w & vt & Hp & _ & Htr).
  exists w, vt. rewrite Hp. split; [reflexivity | exact Htr].
Defined.

(** [app sub]: [sub] requires one argument and resolution leaves none. *)
Lemma execute_validates_target_witness :
  (demo_execute 2 0 ["sub"] tree_cli).1.2
    = [EvValidate 1 [] (Some (ErrMinimumNArgs 1 0))] ∧
  (demo_execute 2 0 ["sub"] tree_cli).2 = Val (Some (ErrMinimumNArgs 1 0)).
Proof.
  destruct (execute_validates_target pflag_Parse demo_call demo_callE 2 0
              ["sub"] (mkState tree_cli []) _ _ _
              (parse_step pflag_Parse 2 0 ["sub"] (mkState tree_cli [])).1.1
              ["sub"] (ArgsMinimumNArgs 1) (MinimumNArgs 1)
              (demo_execute_eta 2 0 ["sub"] tree_cli))
    as (Htr & Hr & _).
  - vm_compute. reflexivity.
  - reflexivity.
  - reflexivity.
  - split; [exact Htr | exact Hr].
Defined.
